(** * LWM2M-Contiki: the CoAP request/response core

    A shallow embedding of four pieces of the CoAP stack and the properties
    proved about them:

    - [RestEngine]     : apps/er-coap/rest-engine.c  (registry, dispatch,
                         periodic timer callback);
    - [Transport]      : the uIP transport (endpoint parsing and comparison,
                         connection test, PSK lookup for the DTLS handshake);
    - [Lwm2mSecurity]  : the LWM2M security object's keystore;
    - [BlockingApi]    : apps/er-coap/er-coap-blocking-api.c (block-wise
                         blocking request protothread).

    Conventions.  C integers are [Z]; where a fixed width matters the
    wrap-around is written out.  A C string or byte buffer is a [string]
    (a list of 8-bit characters); reading past the modelled bytes yields
    NUL.  A pointer that the code tests against NULL is an [option].  An
    object that the code writes through a pointer while it is linked
    elsewhere carries its address, and the write shows wherever the object
    is linked.  The static locals of a function are state shared by all its
    calls.  Calls into collaborators that only have effects (handlers,
    timers, the REST implementation) are recorded as events, in call
    order. *)

From Stdlib Require Import ZArith List String Ascii Bool Lia Sorted.
Import ListNotations.
Open Scope Z_scope.

(** ** C strings *)

Module CString.

Definition NUL : ascii := Ascii.zero.

(** A C condition: non-zero is true. *)
Definition truthy (z : Z) : bool := negb (z =? 0).

Definition of_bool (b : bool) : Z := if b then 1 else 0.

Definition hd (s : string) : ascii :=
  match s with EmptyString => NUL | String c _ => c end.

Definition tl (s : string) : string :=
  match s with EmptyString => EmptyString | String _ r => r end.

(** [s + n]: the buffer seen from offset [n]. *)
Fixpoint drop (n : nat) (s : string) : string :=
  match n, s with
  | O, _ => s
  | S _, EmptyString => EmptyString
  | S k, String _ r => drop k r
  end.

Fixpoint take (n : nat) (s : string) : string :=
  match n, s with
  | O, _ => EmptyString
  | S _, EmptyString => EmptyString
  | S k, String c r => String c (take k r)
  end.

(** [s[i]] *)
Definition char_at (s : string) (i : Z) : ascii :=
  if i <? 0 then NUL else hd (drop (Z.to_nat i) s).

Definition uchar (c : ascii) : Z := Z.of_N (N_of_ascii c).

(** [strlen]: number of characters before the first NUL. *)
Fixpoint strlen (s : string) : nat :=
  match s with
  | EmptyString => O
  | String c r => if Ascii.eqb c NUL then O else S (strlen r)
  end.

(** The characters before the first NUL: the string a [char *] denotes. *)
Fixpoint cstr (s : string) : string :=
  match s with
  | EmptyString => EmptyString
  | String c r => if Ascii.eqb c NUL then EmptyString else String c (cstr r)
  end.

(** [strncmp(s1, s2, n)]: compares at most [n] characters, stops after a
    NUL; the result is the difference of the first differing characters. *)
Fixpoint strncmp (s1 s2 : string) (n : nat) : Z :=
  match n with
  | O => 0
  | S k =>
      let c1 := hd s1 in
      let c2 := hd s2 in
      if Ascii.eqb c1 c2
      then if Ascii.eqb c1 NUL then 0 else strncmp (tl s1) (tl s2) k
      else uchar c1 - uchar c2
  end.

(** [memcmp(a, b, n)] *)
Fixpoint memcmp (a b : string) (n : nat) : Z :=
  match n with
  | O => 0
  | S k =>
      let c1 := hd a in
      let c2 := hd b in
      if Ascii.eqb c1 c2 then memcmp (tl a) (tl b) k else uchar c1 - uchar c2
  end.

(** [memcpy(dst, src, n)]: the first [n] bytes of [dst] are replaced. *)
Definition memcpy (dst src : string) (n : nat) : string :=
  (take n src ++ drop n dst)%string.

Lemma truthy_true z : truthy z = true <-> z <> 0.
Proof.
  unfold truthy. rewrite negb_true_iff, Z.eqb_neq. reflexivity.
Qed.

Lemma truthy_false z : truthy z = false <-> z = 0.
Proof.
  unfold truthy. rewrite negb_false_iff, Z.eqb_eq. reflexivity.
Qed.

Lemma uchar_inj c1 c2 : uchar c1 = uchar c2 -> c1 = c2.
Proof.
  unfold uchar. intros H. apply N2Z.inj in H.
  rewrite <- (ascii_N_embedding c1), <- (ascii_N_embedding c2).
  now rewrite H.
Qed.

Lemma strlen_cstr s : strlen s = String.length (cstr s).
Proof.
  induction s as [|c r IH]; simpl; [reflexivity|].
  destruct (Ascii.eqb c NUL); simpl; congruence.
Qed.

Lemma cstr_idem s : cstr (cstr s) = cstr s.
Proof.
  induction s as [|c r IH]; simpl; [reflexivity|].
  destruct (Ascii.eqb c NUL) eqn:E; simpl; [reflexivity|].
  now rewrite E, IH.
Qed.

(** Comparing over the length of [s1]: zero exactly when [s2] starts with
    the characters of [s1]. *)
Lemma strncmp_strlen_0 s1 : forall s2,
  strncmp s1 s2 (strlen s1) = 0 <-> exists rest, s2 = (cstr s1 ++ rest)%string.
Proof.
  induction s1 as [|c r IH]; intros s2; simpl.
  - split; [intros _; now exists s2 | reflexivity].
  - destruct (Ascii.eqb c NUL) eqn:Ec; simpl.
    + split; [intros _; now exists s2 | reflexivity].
    + destruct (Ascii.eqb_spec c (hd s2)) as [Heq|Hne].
      * rewrite Ec. rewrite IH. destruct s2 as [|c2 r2]; simpl in *.
        { subst c. unfold NUL in Ec. rewrite Ascii.eqb_refl in Ec. discriminate. }
        subst c2. split; intros [rest Hr]; exists rest.
        -- now rewrite Hr.
        -- now injection Hr.
      * split.
        -- intros H. exfalso. apply Hne, uchar_inj. lia.
        -- intros [rest Hr]. subst s2. simpl in Hne. congruence.
Qed.

Lemma char_at_app_length s rest :
  char_at (s ++ rest) (Z.of_nat (String.length s)) = hd rest.
Proof.
  unfold char_at.
  destruct (Z.ltb_spec (Z.of_nat (String.length s)) 0) as [Hlt|_]; [lia|].
  rewrite Nat2Z.id. clear. induction s as [|c r IH]; simpl; auto.
Qed.

Lemma length_app s t :
  String.length (s ++ t) = (String.length s + String.length t)%nat.
Proof. induction s; simpl; congruence. Qed.

Lemma app_empty_r s : (s ++ "")%string = s.
Proof. induction s; simpl; congruence. Qed.

End CString.

(** ** rest-engine.c: resource registry, dispatch, periodic callback *)

Module RestEngine.
Import CString.

(** A handler is a C function pointer; the model keeps its identity and
    records each call.  Handlers are opaque: they may write the response,
    but they do not touch the registry or the resource descriptors. *)
Definition restful_handler := nat.
Definition restful_periodic_handler := nat.
Definition coap_timer_id := nat.

Record periodic_resource_t := {
  period : Z;                                         (* uint32_t *)
  periodic_handler : option restful_periodic_handler;
  periodic_timer : coap_timer_id
}.

(** A resource is an object of the application, which the engine reaches
    through a pointer; [self] is the address of the object, what a
    [resource_t *] to it holds.  Two values with the same [self] are the
    same object. *)
Record resource_t := {
  self : nat;
  url : string;                                       (* const char *url *)
  flags : Z;                                          (* rest_resource_flags_t *)
  get_handler : option restful_handler;
  post_handler : option restful_handler;
  put_handler : option restful_handler;
  delete_handler : option restful_handler;
  periodic : option periodic_resource_t
}.

(** A timer as [process_callback] sees it: what
    [coap_timer_get_user_data(t)] returns is the owning resource. *)
Record coap_timer_t := {
  timer_id : coap_timer_id;
  user_data : option resource_t
}.

(** What the REST implementation's accessors return for a request:
    [REST.get_url] gives a pointer and a length (the bytes need not be
    NUL-terminated), [REST.get_method_type] the method as a flag value. *)
Record request_t := {
  req_url : string;
  req_method : Z
}.

(** The two members of [REST.status] the engine uses. *)
Inductive rest_status := METHOD_NOT_ALLOWED | NOT_FOUND.

Inductive event :=
| EvHandler (h : restful_handler)            (* h(request, response, buffer, buffer_size, offset) *)
| EvSetResponseStatus (s : rest_status)      (* REST.set_response_status(response, s) *)
| EvSubscription (r : resource_t)            (* REST.subscription_handler(r, request, response) *)
| EvPeriodicHandler (h : restful_periodic_handler)
| EvTimerSetCallback (t : coap_timer_id)     (* coap_timer_set_callback(t, process_callback) *)
| EvTimerSetUserData (t : coap_timer_id) (r : resource_t)
| EvTimerSet (t : coap_timer_id) (p : Z)     (* coap_timer_set(t, p) *)
| EvSetServiceCallback                       (* REST.set_service_callback(rest_invoke_restful_service) *)
| EvInit.                                    (* REST.init() *)

(** The file-scope state. *)
Record engine := {
  restful_services : list resource_t;
  restful_periodic_services : list periodic_resource_t;
  is_initialized : Z                                  (* uint8_t *)
}.

Definition is_some {A} (o : option A) : bool :=
  match o with Some _ => true | None => false end.

(** Modelled from the spec: [list_add] of lib/list.c, which is not among the
    sources; the spec says registration "appends to an ordered collection
    (registration order is dispatch priority)". *)
Definition list_add {A} (l : list A) (item : A) : list A := l ++ [item].

Definition rest_init_engine (st : engine) : engine * list event :=
  if truthy (is_initialized st) then (st, [])
  else
    ({| restful_services := [];
        restful_periodic_services := [];
        is_initialized := 1 |},
     [EvSetServiceCallback; EvInit]).

Definition rest_get_resources (st : engine) : list resource_t :=
  restful_services st.

Section Flags.

(** The flag values of [rest_resource_flags_t] come from a header that is
    not among the sources; they are parameters here. *)
Variables METHOD_GET METHOD_POST METHOD_PUT METHOD_DELETE : Z.
Variables HAS_SUB_RESOURCES IS_OBSERVABLE IS_PERIODIC : Z.

Definition set_url (resource : resource_t) (path : string) : resource_t :=
  {| self := self resource; url := path; flags := flags resource;
     get_handler := get_handler resource;
     post_handler := post_handler resource;
     put_handler := put_handler resource;
     delete_handler := delete_handler resource;
     periodic := periodic resource |}.

Definition with_periodic (st : engine) (services : list resource_t)
    (periodics : list periodic_resource_t) : engine :=
  {| restful_services := services;
     restful_periodic_services := periodics;
     is_initialized := is_initialized st |}.

Definition same_object (a b : resource_t) : bool := Nat.eqb (self a) (self b).

(** [resource->url = path] writes into the object.  The list links the
    objects themselves, so where the object is already linked the entry
    shows the new path as well. *)
Definition write_url (services : list resource_t) (resource : resource_t)
    (path : string) : list resource_t :=
  map (fun r => if same_object r resource then set_url r path else r) services.

(** [rest_activate_resource(resource, path)]; [resource] is the object the
    pointer is to, as it is at the call. *)
Definition rest_activate_resource (st : engine) (resource : resource_t)
    (path : string) : engine * list event :=
  let linked := write_url (restful_services st) resource path in
  let resource := set_url resource path in
  let services := list_add linked resource in
  let plain := (with_periodic st services (restful_periodic_services st), []) in
  (* Only add periodic resources with a periodic_handler and a period > 0. *)
  if truthy (Z.land (flags resource) IS_PERIODIC) then
    match periodic resource with
    | Some p =>
        if is_some (periodic_handler p) && truthy (period p) then
          (with_periodic st services (list_add (restful_periodic_services st) p),
           [EvTimerSetCallback (periodic_timer p);
            EvTimerSetUserData (periodic_timer p) resource;
            EvTimerSet (periodic_timer p) (period p)])
        else plain
    | None => plain
    end
  else plain.

(** The condition of the [if] in the dispatch loop. *)
Definition url_matches (resource : resource_t) (request_url : string) : bool :=
  let url_len := Z.of_nat (String.length request_url) in
  let res_url_len := strlen (url resource) in
  ((url_len =? Z.of_nat res_url_len)
   || ((url_len >? Z.of_nat res_url_len)
       && truthy (Z.land (flags resource) HAS_SUB_RESOURCES)
       && Ascii.eqb (char_at request_url (Z.of_nat res_url_len)) "/"))
  && (strncmp (url resource) request_url res_url_len =? 0).

Definition call (h : option restful_handler) : list event :=
  match h with Some f => [EvHandler f] | None => [] end.

(** The body of the [if]: the handler chain.  Returns [allowed] and the
    calls made. *)
Definition invoke_method (resource : resource_t) (method : Z)
    : Z * list event :=
  if truthy (Z.land method METHOD_GET) && is_some (get_handler resource)
  then (1, call (get_handler resource))
  else if truthy (Z.land method METHOD_POST) && is_some (post_handler resource)
  then (1, call (post_handler resource))
  else if truthy (Z.land method METHOD_PUT) && is_some (put_handler resource)
  then (1, call (put_handler resource))
  else if truthy (Z.land method METHOD_DELETE) && is_some (delete_handler resource)
  then (1, call (delete_handler resource))
  else (0, [EvSetResponseStatus METHOD_NOT_ALLOWED]).

(** The [for] loop over [restful_services], from the list head.  Returns
    [found], [allowed], the loop variable [resource] on exit (NULL when the
    list was exhausted) and the calls made. *)
Fixpoint scan_services (services : list resource_t) (request : request_t)
    : Z * Z * option resource_t * list event :=
  match services with
  | [] => (0, 1, None, [])
  | resource :: next =>
      if url_matches resource (req_url request)
      then
        let '(allowed, evs) := invoke_method resource (req_method request) in
        (1, allowed, Some resource, evs)                       (* break *)
      else scan_services next request
  end.

Definition rest_invoke_restful_service (st : engine) (request : request_t)
    : Z * list event :=
  let '(found, allowed, resource, evs) :=
    scan_services (restful_services st) request in
  let evs' :=
    if negb (truthy found) then [EvSetResponseStatus NOT_FOUND]
    else if truthy allowed then
      match resource with
      | Some r =>
          if truthy (Z.land (flags r) IS_OBSERVABLE)
          then [EvSubscription r] else []
      | None => []
      end
    else [] in
  (Z.land found allowed, evs ++ evs').

(** The timer callback: this callback occurs when [t] is expired. *)
Definition process_callback (st : engine) (t : coap_timer_t) : list event :=
  match user_data t with
  | Some resource =>
      if truthy (Z.land (flags resource) IS_PERIODIC) then
        match periodic resource with
        | Some p =>
            if truthy (period p) then
              (if negb (truthy (is_initialized st)) then
                 []                    (* REST has not yet been initialized. *)
               else
                 match periodic_handler p with
                 | Some h => [EvPeriodicHandler h]
                 | None => []
                 end)
              ++ [EvTimerSet (timer_id t) (period p)]
            else []
        | None => []
        end
      else []
  | None => []
  end.

(** *** Vocabulary of the properties *)

(** The path a resource is registered under. *)
Definition path (resource : resource_t) : string := cstr (url resource).

Inductive coap_method := GET | POST | PUT | DELETE.

Definition method_flag (m : coap_method) : Z :=
  match m with
  | GET => METHOD_GET
  | POST => METHOD_POST
  | PUT => METHOD_PUT
  | DELETE => METHOD_DELETE
  end.

Definition handler_of (resource : resource_t) (m : coap_method)
    : option restful_handler :=
  match m with
  | GET => get_handler resource
  | POST => post_handler resource
  | PUT => put_handler resource
  | DELETE => delete_handler resource
  end.

(** The four method flags are distinct bits. *)
Definition method_flags_distinct : Prop :=
  (METHOD_GET <> 0 /\ METHOD_POST <> 0 /\ METHOD_PUT <> 0 /\ METHOD_DELETE <> 0)
  /\ Z.land METHOD_GET METHOD_POST = 0
  /\ Z.land METHOD_GET METHOD_PUT = 0
  /\ Z.land METHOD_GET METHOD_DELETE = 0
  /\ Z.land METHOD_POST METHOD_PUT = 0
  /\ Z.land METHOD_POST METHOD_DELETE = 0
  /\ Z.land METHOD_PUT METHOD_DELETE = 0.

(** No registered resource matches [u]. *)
Definition no_match (services : list resource_t) (u : string) : Prop :=
  forall r, In r services -> url_matches r u = false.

(** [r] is the first resource, in registration order, that matches [u]. *)
Definition first_match (services : list resource_t) (u : string)
    (r : resource_t) : Prop :=
  exists before after,
    services = before ++ r :: after
    /\ no_match before u
    /\ url_matches r u = true.

(** The hook run after a permitted request on an observable resource. *)
Definition observe_hook (r : resource_t) : list event :=
  if truthy (Z.land (flags r) IS_OBSERVABLE) then [EvSubscription r] else [].

(** The method handlers called, in order. *)
Definition handler_calls (evs : list event) : list restful_handler :=
  flat_map (fun e => match e with EvHandler h => [h] | _ => [] end) evs.

(** The timer re-arms among the calls made. *)
Definition rearms (evs : list event) : list (coap_timer_id * Z) :=
  flat_map (fun e => match e with EvTimerSet t p => [(t, p)] | _ => [] end) evs.

Definition periodic_calls (evs : list event) : list restful_periodic_handler :=
  flat_map (fun e => match e with EvPeriodicHandler h => [h] | _ => [] end) evs.

(** *** Path matching *)

Lemma url_matches_iff (r : resource_t) (u : string) :
  url_matches r u = true <->
  u = path r
  \/ exists x, u = (path r ++ String "/" x)%string
               /\ Z.land (flags r) HAS_SUB_RESOURCES <> 0.
Proof.
  unfold url_matches, path.
  rewrite andb_true_iff, Z.eqb_eq, strncmp_strlen_0, strlen_cstr.
  split.
  - intros [Hlen [rest Hu]]. subst u. rewrite length_app in Hlen.
    apply orb_true_iff in Hlen. destruct Hlen as [Heq|Hext].
    + apply Z.eqb_eq in Heq. left.
      destruct rest as [|c rest']; [now rewrite app_empty_r|].
      simpl in Heq. lia.
    + right. rewrite !andb_true_iff in Hext.
      destruct Hext as [[_ Hflag] Hch].
      rewrite char_at_app_length in Hch. apply Ascii.eqb_eq in Hch.
      destruct rest as [|c rest']; simpl in Hch; [discriminate|].
      subst c. exists rest'. split; [reflexivity|].
      now apply truthy_true.
  - intros [Hu|[x [Hu Hflag]]]; subst u.
    + split; [|exists ""%string; now rewrite app_empty_r].
      apply orb_true_iff. left. now apply Z.eqb_eq.
    + split; [|now exists (String "/" x)].
      apply orb_true_iff. right. rewrite !andb_true_iff. repeat split.
      * rewrite length_app. simpl. apply Z.gtb_lt. lia.
      * now apply truthy_true.
      * now rewrite char_at_app_length.
Qed.

Lemma url_matches_exact (r : resource_t) : url_matches r (path r) = true.
Proof. apply url_matches_iff. now left. Qed.

Lemma url_matches_subpath_needs_flag (r : resource_t) (x : string) :
  Z.land (flags r) HAS_SUB_RESOURCES = 0 ->
  url_matches r (path r ++ String "/" x) = false.
Proof.
  intros Hflag. apply not_true_iff_false. intros H.
  apply url_matches_iff in H. destruct H as [H|[y [_ Hy]]]; [|congruence].
  apply (f_equal String.length) in H. rewrite length_app in H.
  simpl in H. lia.
Qed.

(** *** The scan *)

Lemma scan_services_no_match services request :
  no_match services (req_url request) ->
  scan_services services request = (0, 1, None, []).
Proof.
  induction services as [|r rest IH]; intros Hno; simpl; [reflexivity|].
  rewrite (Hno r (or_introl eq_refl)). apply IH.
  intros r' Hin. apply Hno. now right.
Qed.

Lemma scan_services_first_match services request r :
  first_match services (req_url request) r ->
  scan_services services request =
    (1, fst (invoke_method r (req_method request)), Some r,
     snd (invoke_method r (req_method request))).
Proof.
  intros (before & after & -> & Hno & Hm).
  induction before as [|b before IH]; simpl.
  - rewrite Hm. now destruct (invoke_method r (req_method request)).
  - rewrite (Hno b (or_introl eq_refl)). apply IH.
    intros r' Hin. apply Hno. now right.
Qed.

Lemma match_cases services u :
  no_match services u \/ exists r, first_match services u r.
Proof.
  induction services as [|a rest IH].
  - left. intros r [].
  - destruct (url_matches a u) eqn:Ha.
    + right. exists a, [], rest. repeat split; auto. intros r [].
    + destruct IH as [Hno|[r (before & after & -> & Hno & Hm)]].
      * left. intros r [<-|Hin]; auto.
      * right. exists r, (a :: before), after. repeat split; auto.
        intros r' [<-|Hin]; auto.
Qed.

Lemma first_match_excludes_no_match services u r :
  first_match services u r -> no_match services u -> False.
Proof.
  intros (before & after & -> & _ & Hm) Hno.
  rewrite (Hno r) in Hm; [discriminate|].
  apply in_or_app. right. now left.
Qed.

Lemma first_match_unique services u r r' :
  first_match services u r -> first_match services u r' -> r = r'.
Proof.
  intros (before & after & -> & Hno & Hm) (before' & after' & Heq & Hno' & Hm').
  revert before' Heq Hno'.
  induction before as [|b before IH]; intros [|b' before'] Heq Hno';
    simpl in Heq.
  - now injection Heq.
  - injection Heq as <- _.
    rewrite (Hno' r (or_introl eq_refl)) in Hm. discriminate.
  - injection Heq as -> _.
    rewrite (Hno r' (or_introl eq_refl)) in Hm'. discriminate.
  - injection Heq as <- Heq. apply (IH (fun x Hx => Hno x (or_intror Hx))
                                      before' Heq).
    intros x Hx. apply Hno'. now right.
Qed.

(** *** The handler chain *)

Lemma invoke_method_flag (r : resource_t) (m : coap_method) :
  method_flags_distinct ->
  invoke_method r (method_flag m) =
    match handler_of r m with
    | Some h => (1, [EvHandler h])
    | None => (0, [EvSetResponseStatus METHOD_NOT_ALLOWED])
    end.
Proof.
  intros ((Hg & Hp & Hu & Hd) & Hgp & Hgu & Hgd & Hpu & Hpd & Hud).
  assert (Hpg : Z.land METHOD_POST METHOD_GET = 0) by now rewrite Z.land_comm.
  assert (Hug : Z.land METHOD_PUT METHOD_GET = 0) by now rewrite Z.land_comm.
  assert (Hdg : Z.land METHOD_DELETE METHOD_GET = 0) by now rewrite Z.land_comm.
  assert (Hup : Z.land METHOD_PUT METHOD_POST = 0) by now rewrite Z.land_comm.
  assert (Hdp : Z.land METHOD_DELETE METHOD_POST = 0) by now rewrite Z.land_comm.
  assert (Hdu : Z.land METHOD_DELETE METHOD_PUT = 0) by now rewrite Z.land_comm.
  assert (Hself : forall z, z <> 0 -> truthy (Z.land z z) = true).
  { intros z Hz. apply truthy_true. now rewrite Z.land_diag. }
  unfold invoke_method.
  destruct m; simpl;
    rewrite ?Hgp, ?Hgu, ?Hgd, ?Hpu, ?Hpd, ?Hud,
            ?Hpg, ?Hug, ?Hdg, ?Hup, ?Hdp, ?Hdu;
    rewrite ?(Hself _ Hg), ?(Hself _ Hp), ?(Hself _ Hu), ?(Hself _ Hd);
    simpl.
  - now destruct (get_handler r).
  - now destruct (post_handler r).
  - now destruct (put_handler r).
  - now destruct (delete_handler r).
Qed.

(** *** Dispatch *)

Lemma invoke_no_match st request :
  no_match (restful_services st) (req_url request) ->
  rest_invoke_restful_service st request
  = (0, [EvSetResponseStatus NOT_FOUND]).
Proof.
  intros Hno. unfold rest_invoke_restful_service.
  now rewrite (scan_services_no_match _ _ Hno).
Qed.

Lemma invoke_permitted st request r m h :
  method_flags_distinct ->
  req_method request = method_flag m ->
  first_match (restful_services st) (req_url request) r ->
  handler_of r m = Some h ->
  rest_invoke_restful_service st request = (1, EvHandler h :: observe_hook r).
Proof.
  intros Hd Hm Hf Hh. unfold rest_invoke_restful_service.
  rewrite (scan_services_first_match _ _ _ Hf), Hm.
  rewrite (invoke_method_flag r m Hd), Hh. reflexivity.
Qed.

Lemma invoke_denied st request r m :
  method_flags_distinct ->
  req_method request = method_flag m ->
  first_match (restful_services st) (req_url request) r ->
  handler_of r m = None ->
  rest_invoke_restful_service st request
  = (0, [EvSetResponseStatus METHOD_NOT_ALLOWED]).
Proof.
  intros Hd Hm Hf Hh. unfold rest_invoke_restful_service.
  rewrite (scan_services_first_match _ _ _ Hf), Hm.
  rewrite (invoke_method_flag r m Hd), Hh. reflexivity.
Qed.

Lemma handler_calls_observe_hook r : handler_calls (observe_hook r) = [].
Proof. unfold observe_hook. now destruct (truthy _). Qed.

(** Whatever the method value, the chain calls one handler and allows the
    request, or calls none and refuses it. *)
Lemma invoke_method_cases (r : resource_t) (method : Z) :
  (exists h, invoke_method r method = (1, [EvHandler h]))
  \/ invoke_method r method = (0, [EvSetResponseStatus METHOD_NOT_ALLOWED]).
Proof.
  unfold invoke_method.
  destruct (truthy (Z.land method METHOD_GET)); simpl;
    [destruct (get_handler r) as [h|]; simpl; [left; now exists h|]|];
  (destruct (truthy (Z.land method METHOD_POST)); simpl;
    [destruct (post_handler r) as [h|]; simpl; [left; now exists h|]|]);
  (destruct (truthy (Z.land method METHOD_PUT)); simpl;
    [destruct (put_handler r) as [h|]; simpl; [left; now exists h|]|]);
  (destruct (truthy (Z.land method METHOD_DELETE)); simpl;
    [destruct (delete_handler r) as [h|]; simpl; [left; now exists h|]|]);
  now right.
Qed.

Lemma dispatch_result_cases st request :
  (fst (rest_invoke_restful_service st request) = 1
   /\ exists h, handler_calls (snd (rest_invoke_restful_service st request)) = [h])
  \/ (fst (rest_invoke_restful_service st request) = 0
      /\ handler_calls (snd (rest_invoke_restful_service st request)) = []).
Proof.
  destruct (match_cases (restful_services st) (req_url request)) as [Hno|[r Hf]].
  - right. now rewrite (invoke_no_match _ _ Hno).
  - unfold rest_invoke_restful_service.
    rewrite (scan_services_first_match _ _ _ Hf).
    destruct (invoke_method_cases r (req_method request)) as [[h Hi]|Hi];
      rewrite Hi; simpl.
    + left. split; [reflexivity|]. exists h.
      fold (observe_hook r). now rewrite handler_calls_observe_hook.
    + right. now split.
Qed.

(** *** Initialisation *)

Lemma rest_init_engine_sets_flag st :
  is_initialized (fst (rest_init_engine st)) <> 0.
Proof.
  unfold rest_init_engine.
  destruct (truthy (is_initialized st)) eqn:E; simpl; [|lia].
  now apply truthy_true.
Qed.

Lemma rest_activate_resource_keeps_flag st resource p :
  is_initialized (fst (rest_activate_resource st resource p))
  = is_initialized st.
Proof.
  unfold rest_activate_resource.
  destruct (truthy _); [|reflexivity].
  destruct (periodic _) as [q|]; [|reflexivity].
  now destruct (_ && _).
Qed.

Lemma rest_init_engine_when_initialized st :
  is_initialized st <> 0 -> rest_init_engine st = (st, []).
Proof.
  intros H. unfold rest_init_engine.
  now rewrite (proj2 (truthy_true _) H).
Qed.

(** Registering resources, one after the other. *)
Definition activate_all (st : engine) (acts : list (resource_t * string))
    : engine :=
  fold_left (fun s a => fst (rest_activate_resource s (fst a) (snd a))) acts st.

Lemma activate_all_keeps_flag acts : forall st,
  is_initialized (activate_all st acts) = is_initialized st.
Proof.
  induction acts as [|a acts IH]; intros st; simpl; [reflexivity|].
  unfold activate_all in *. simpl. rewrite IH.
  apply rest_activate_resource_keeps_flag.
Qed.

(** The object [resource] is not linked into the list. *)
Definition not_linked (services : list resource_t) (resource : resource_t)
    : Prop :=
  forall r, In r services -> self r <> self resource.

(** Each of the objects is registered once, and none of them is linked
    before. *)
Definition registered_once (services : list resource_t)
    (acts : list (resource_t * string)) : Prop :=
  NoDup (map (fun a => self (fst a)) acts)
  /\ forall a, In a acts -> not_linked services (fst a).

Lemma write_url_not_linked services resource p :
  not_linked services resource ->
  write_url services resource p = services.
Proof.
  unfold write_url, same_object.
  induction services as [|r rest IH]; intros Hno; simpl; [reflexivity|].
  destruct (Nat.eqb_spec (self r) (self resource)) as [Heq|_].
  - elim (Hno r (or_introl eq_refl) Heq).
  - rewrite IH; [reflexivity|]. intros r' Hin. apply Hno. now right.
Qed.

Lemma rest_activate_resource_services st resource p :
  restful_services (fst (rest_activate_resource st resource p))
  = write_url (restful_services st) resource p ++ [set_url resource p].
Proof.
  unfold rest_activate_resource, list_add.
  destruct (truthy _); [|reflexivity].
  destruct (periodic _) as [q|]; [|reflexivity].
  now destruct (_ && _).
Qed.

(** Registration appends: objects registered once are kept in registration
    order. *)
Lemma activate_all_appends acts : forall st,
  registered_once (restful_services st) acts ->
  restful_services (activate_all st acts)
  = restful_services st ++ map (fun a => set_url (fst a) (snd a)) acts.
Proof.
  induction acts as [|a acts IH]; intros st [Hnd Hfresh]; simpl.
  - now rewrite app_nil_r.
  - unfold activate_all in *. simpl.
    assert (Hs : restful_services (fst (rest_activate_resource st (fst a) (snd a)))
                 = restful_services st ++ [set_url (fst a) (snd a)]).
    { rewrite rest_activate_resource_services, write_url_not_linked;
        [reflexivity|]. apply Hfresh. now left. }
    simpl in Hnd. inversion Hnd as [|? ? Hnotin Hnd']; subst.
    rewrite IH.
    + rewrite Hs, <- app_assoc. reflexivity.
    + split; [exact Hnd'|]. intros b Hb r Hr. rewrite Hs in Hr.
      apply in_app_or in Hr. destruct Hr as [Hr|[<-|[]]].
      * apply (Hfresh b (or_intror Hb) r Hr).
      * simpl. intros Heq. apply Hnotin. rewrite Heq.
        apply (in_map (fun a => self (fst a)) acts b Hb).
Qed.

(** *** The claims about the registry *)

(** C1 (amended).  Dispatch scans the resources in registration order
    (registration appends to the list, each resource object being
    registered once; the first match decides).  A
    resource matches exactly when the request path equals its path, or
    extends it by a '/' and more while the resource has the sub-resource
    flag.  On an exact-path request whose method the first matching
    resource supports, that resource's handler is the one handler called
    (followed only by the observe hook), and the call returns 1.  A
    resource at p without the sub-resource flag does not match p/x; the
    request is answered Not-Found when no registered resource matches it. *)
Theorem dispatch_first_match_wins :
  method_flags_distinct ->
  (forall r u,
      url_matches r u = true <->
      u = path r
      \/ exists x, u = (path r ++ String "/" x)%string
                   /\ Z.land (flags r) HAS_SUB_RESOURCES <> 0)
  /\ (forall st request r m h,
        first_match (restful_services st) (req_url request) r ->
        req_url request = path r ->
        req_method request = method_flag m ->
        handler_of r m = Some h ->
        rest_invoke_restful_service st request
        = (1, EvHandler h :: observe_hook r)
        /\ handler_calls (snd (rest_invoke_restful_service st request)) = [h])
  /\ (forall r x,
        Z.land (flags r) HAS_SUB_RESOURCES = 0 ->
        url_matches r (path r ++ String "/" x) = false)
  /\ (forall st request,
        no_match (restful_services st) (req_url request) ->
        rest_invoke_restful_service st request
        = (0, [EvSetResponseStatus NOT_FOUND]))
  /\ (forall st acts,
        registered_once (restful_services st) acts ->
        restful_services (activate_all st acts)
        = restful_services st ++ map (fun a => set_url (fst a) (snd a)) acts).
Proof.
  intros Hd. repeat split.
  - apply url_matches_iff.
  - apply url_matches_iff.
  - now apply (invoke_permitted st request r m h).
  - rewrite (invoke_permitted st request r m h) by assumption.
    simpl. now rewrite handler_calls_observe_hook.
  - apply url_matches_subpath_needs_flag.
  - apply invoke_no_match.
  - intros st acts. apply activate_all_appends.
Qed.

(** C2.  When the first matching resource has no handler for the request's
    method, dispatch sets Method-Not-Allowed, calls no handler, looks at no
    later resource and returns 0.  When no resource matches it sets
    Not-Found.  When the first matching resource has a handler for the
    method, that handler is called, it is the only one, and dispatch returns
    1.  So it returns 1 exactly when a resource matches and the first one
    that does has a handler for the method, and 0 otherwise; for any method
    value whatever, it returns 1 with exactly one handler called, or 0 with
    none. *)
Theorem dispatch_reports_unsupported_and_unknown :
  method_flags_distinct ->
  (forall before r after st request m,
      restful_services st = before ++ r :: after ->
      no_match before (req_url request) ->
      url_matches r (req_url request) = true ->
      req_method request = method_flag m ->
      handler_of r m = None ->
      rest_invoke_restful_service st request
      = (0, [EvSetResponseStatus METHOD_NOT_ALLOWED]))
  /\ (forall st request,
        no_match (restful_services st) (req_url request) ->
        rest_invoke_restful_service st request
        = (0, [EvSetResponseStatus NOT_FOUND]))
  /\ (forall st request m,
        req_method request = method_flag m ->
        (forall r h,
            first_match (restful_services st) (req_url request) r ->
            handler_of r m = Some h ->
            rest_invoke_restful_service st request
            = (1, EvHandler h :: observe_hook r)
            /\ handler_calls (snd (rest_invoke_restful_service st request))
               = [h])
        /\ (fst (rest_invoke_restful_service st request) = 1 <->
            exists r h,
              first_match (restful_services st) (req_url request) r
              /\ handler_of r m = Some h)
        /\ (fst (rest_invoke_restful_service st request) <> 1 ->
            fst (rest_invoke_restful_service st request) = 0
            /\ handler_calls (snd (rest_invoke_restful_service st request)) = []))
  /\ (forall st request,
        (fst (rest_invoke_restful_service st request) = 1
         /\ exists h,
              handler_calls (snd (rest_invoke_restful_service st request)) = [h])
        \/ (fst (rest_invoke_restful_service st request) = 0
            /\ handler_calls (snd (rest_invoke_restful_service st request)) = [])).
Proof.
  intros Hd. split; [|split; [|split; [|apply dispatch_result_cases]]].
  - intros before r after st request m Hs Hno Hm Hmeth Hh.
    apply (invoke_denied st request r m); auto.
    now exists before, after.
  - apply invoke_no_match.
  - intros st request m Hmeth. split.
    { intros r h Hf Hh.
      rewrite (invoke_permitted st request r m h) by assumption.
      split; [reflexivity|]. simpl. now rewrite handler_calls_observe_hook. }
    destruct (match_cases (restful_services st) (req_url request))
      as [Hno|[r Hf]].
    + rewrite (invoke_no_match _ _ Hno). simpl. split.
      * split; [discriminate|].
        intros (r & h & Hf & _). exfalso.
        eapply first_match_excludes_no_match; eauto.
      * auto.
    + destruct (handler_of r m) as [h|] eqn:Hh.
      * rewrite (invoke_permitted st request r m h) by assumption. simpl.
        split.
        -- split; [|reflexivity]. intros _. now exists r, h.
        -- congruence.
      * rewrite (invoke_denied st request r m) by assumption. simpl. split.
        -- split; [discriminate|]. intros (r' & h & Hf' & Hh').
           rewrite (first_match_unique _ _ _ _ Hf' Hf) in Hh'. congruence.
        -- auto.
Qed.

(** C7 (amended).  On an expiry for a resource that is still flagged
    periodic, with a descriptor whose period is non-zero: the periodic
    handler is called exactly when the engine is initialised and the handler
    is non-null, and the timer is re-armed exactly once, with that period.
    The timer is re-armed on no other expiry; whether the resource has a
    handler plays no part in the re-arm. *)
Theorem periodic_expiry_rearms_once :
  (forall st t resource p,
      user_data t = Some resource ->
      periodic resource = Some p ->
      Z.land (flags resource) IS_PERIODIC <> 0 ->
      period p <> 0 ->
      (forall h, In h (periodic_calls (process_callback st t)) <->
                 is_initialized st <> 0 /\ periodic_handler p = Some h)
      /\ rearms (process_callback st t) = [(timer_id t, period p)])
  /\ (forall st t,
        rearms (process_callback st t) <> [] ->
        exists resource p,
          user_data t = Some resource
          /\ periodic resource = Some p
          /\ Z.land (flags resource) IS_PERIODIC <> 0
          /\ period p <> 0).
Proof.
  split.
  - intros st t resource p Hu Hp Hf Hper. unfold process_callback.
    rewrite Hu, (proj2 (truthy_true _) Hf), Hp, (proj2 (truthy_true _) Hper).
    destruct (truthy (is_initialized st)) eqn:Hi; simpl.
    + apply truthy_true in Hi.
      destruct (periodic_handler p) as [h0|]; simpl; split; try reflexivity.
      * intros h. split.
        -- intros [<-|[]]. now split.
        -- intros [_ [= ->]]. now left.
      * intros h. split; [intros []|intros [_ [=]]].
    + apply truthy_false in Hi. split; [|reflexivity].
      intros h. split; [intros []|intros [Hn _]; contradiction].
  - intros st t. unfold process_callback.
    destruct (user_data t) as [resource|] eqn:Hu; [|now intros []].
    destruct (truthy (Z.land _ _)) eqn:Hf; [|now intros []].
    destruct (periodic resource) as [p|] eqn:Hp; [|now intros []].
    destruct (truthy (period p)) eqn:Hper; [|now intros []].
    intros _. exists resource, p.
    repeat split; auto; now apply truthy_true.
Qed.

(** C10.  After a first call of [rest_init_engine], and whatever resources
    are registered afterwards, a further call changes nothing: the lists,
    the flag and the registered resources stay as they are, and neither the
    service callback nor the server initialisation is run again. *)
Theorem rest_init_engine_idempotent :
  forall (st : engine) (acts : list (resource_t * string)),
    let st1 := fst (rest_init_engine st) in
    let st2 := activate_all st1 acts in
    rest_init_engine st2 = (st2, []).
Proof.
  intros st acts st1 st2. apply rest_init_engine_when_initialized.
  unfold st2. rewrite activate_all_keeps_flag.
  apply rest_init_engine_sets_flag.
Qed.

End Flags.

(** *** Worked examples

    The flag values used here are single distinct bits, GET lowest, then
    POST, PUT, DELETE, the sub-resource flag, (one unused bit,) the
    observable flag and the periodic flag. *)

Definition bit_GET : Z := 1.
Definition bit_POST : Z := 2.
Definition bit_PUT : Z := 4.
Definition bit_DELETE : Z := 8.
Definition bit_HAS_SUB_RESOURCES : Z := 16.
Definition bit_IS_OBSERVABLE : Z := 64.
Definition bit_IS_PERIODIC : Z := 128.

Definition dispatch : engine -> request_t -> Z * list event :=
  rest_invoke_restful_service bit_GET bit_POST bit_PUT bit_DELETE
    bit_HAS_SUB_RESOURCES bit_IS_OBSERVABLE.

Lemma bits_distinct : method_flags_distinct bit_GET bit_POST bit_PUT bit_DELETE.
Proof.
  unfold method_flags_distinct. repeat split; (discriminate || reflexivity).
Defined.

Definition running (services : list resource_t) : engine :=
  {| restful_services := services;
     restful_periodic_services := [];
     is_initialized := 1 |}.

(** "a" takes GET and has no sub-resources; "a/b" is a resource of its own. *)
Definition res_a : resource_t :=
  {| self := 1%nat; url := "a"; flags := 0;
     get_handler := Some 1%nat; post_handler := None;
     put_handler := None; delete_handler := None; periodic := None |}.

Definition res_a_b : resource_t :=
  {| self := 2%nat; url := "a/b"; flags := 0;
     get_handler := Some 2%nat; post_handler := None;
     put_handler := None; delete_handler := None; periodic := None |}.

(** A second resource registered under "a", taking POST. *)
Definition res_a_post : resource_t :=
  {| self := 3%nat; url := "a"; flags := 0;
     get_handler := None; post_handler := Some 3%nat;
     put_handler := None; delete_handler := None; periodic := None |}.

Definition get_a : request_t := {| req_url := "a"; req_method := bit_GET |}.
Definition get_a_b : request_t := {| req_url := "a/b"; req_method := bit_GET |}.
Definition post_a : request_t := {| req_url := "a"; req_method := bit_POST |}.
Definition get_c : request_t := {| req_url := "c"; req_method := bit_GET |}.

(** C1, as stated, fails here: "a" is registered without the sub-resource
    flag, the request goes to its sub-path "a/b", and dispatch does not
    answer Not-Found: the resource registered at "a/b" serves it. *)
Lemma subpath_served_by_another_resource :
  In res_a (restful_services (running [res_a; res_a_b]))
  /\ path res_a = "a"%string
  /\ Z.land (flags res_a) bit_HAS_SUB_RESOURCES = 0
  /\ req_url get_a_b = (path res_a ++ String "/" "b")%string
  /\ dispatch (running [res_a; res_a_b]) get_a_b = (1, [EvHandler 2%nat]).
Proof.
  repeat split. now left.
Qed.

Lemma dispatch_first_match_wins_example :
  (dispatch (running [res_a_b; res_a; res_a_post]) get_a
   = (1, [EvHandler 1%nat])
   /\ handler_calls (snd (dispatch (running [res_a_b; res_a; res_a_post]) get_a))
      = [1%nat])
  /\ url_matches bit_HAS_SUB_RESOURCES res_a "a/b" = false
  /\ dispatch (running [res_a; res_a_b]) get_c
     = (0, [EvSetResponseStatus NOT_FOUND])
  /\ restful_services
       (activate_all bit_IS_PERIODIC (running [res_a_b])
          [(res_a, "a"%string); (res_a_post, "a"%string)])
     = [res_a_b; res_a; res_a_post].
Proof.
  pose proof (dispatch_first_match_wins bit_GET bit_POST bit_PUT bit_DELETE
                bit_HAS_SUB_RESOURCES bit_IS_OBSERVABLE bit_IS_PERIODIC
                bits_distinct)
    as (_ & Hexact & Hsub & Hnone & Hreg).
  split; [|split; [|split]].
  4:{ apply (Hreg (running [res_a_b])
               [(res_a, "a"%string); (res_a_post, "a"%string)]).
      split.
      - repeat constructor; simpl; intuition discriminate.
      - intros a [<-|[<-|[]]] r [<-|[]]; discriminate. }
  - apply (Hexact (running [res_a_b; res_a; res_a_post]) get_a res_a GET 1%nat).
    + exists [res_a_b], [res_a_post]. repeat split.
      intros r [<-|[]]. reflexivity.
    + reflexivity.
    + reflexivity.
    + reflexivity.
  - apply (Hsub res_a "b"%string). reflexivity.
  - apply (Hnone (running [res_a; res_a_b]) get_c).
    intros r [<-|[<-|[]]]; reflexivity.
Defined.

Lemma dispatch_reports_unsupported_and_unknown_example :
  dispatch (running [res_a_b; res_a; res_a_post]) post_a
  = (0, [EvSetResponseStatus METHOD_NOT_ALLOWED])
  /\ dispatch (running [res_a; res_a_b]) get_c
     = (0, [EvSetResponseStatus NOT_FOUND])
  /\ (dispatch (running [res_a_b; res_a; res_a_post]) get_a
      = (1, [EvHandler 1%nat])
      /\ handler_calls
           (snd (dispatch (running [res_a_b; res_a; res_a_post]) get_a))
         = [1%nat]).
Proof.
  pose proof (dispatch_reports_unsupported_and_unknown bit_GET bit_POST bit_PUT
                bit_DELETE bit_HAS_SUB_RESOURCES bit_IS_OBSERVABLE bits_distinct)
    as (Hdenied & Hnone & Hserved & _).
  split; [|split].
  3:{ apply (proj1 (Hserved (running [res_a_b; res_a; res_a_post]) get_a GET
                      eq_refl) res_a 1%nat).
      - exists [res_a_b], [res_a_post]. repeat split.
        intros r [<-|[]]. reflexivity.
      - reflexivity. }
  - apply (Hdenied [res_a_b] res_a [res_a_post]
             (running [res_a_b; res_a; res_a_post]) post_a POST).
    + reflexivity.
    + intros r [<-|[]]. reflexivity.
    + reflexivity.
    + reflexivity.
    + reflexivity.
  - apply (Hnone (running [res_a; res_a_b]) get_c).
    intros r [<-|[<-|[]]]; reflexivity.
Defined.

(** A periodic resource whose handler pointer is null, and one with a
    handler. *)
Definition tick_none : periodic_resource_t :=
  {| period := 5; periodic_handler := None; periodic_timer := 3%nat |}.

Definition tick_some : periodic_resource_t :=
  {| period := 10; periodic_handler := Some 7%nat; periodic_timer := 4%nat |}.

Definition res_periodic (p : periodic_resource_t) : resource_t :=
  {| self := 4%nat; url := "tick"; flags := bit_IS_PERIODIC;
     get_handler := None; post_handler := None;
     put_handler := None; delete_handler := None; periodic := Some p |}.

Definition timer_of (p : periodic_resource_t) : coap_timer_t :=
  {| timer_id := periodic_timer p; user_data := Some (res_periodic p) |}.

(** C7, as stated, fails here: the resource is periodic with period 5 and
    has no handler, and the timer is re-armed all the same. *)
Lemma rearm_without_handler :
  periodic_handler tick_none = None
  /\ process_callback bit_IS_PERIODIC (running []) (timer_of tick_none)
     = [EvTimerSet 3%nat 5].
Proof.
  split; reflexivity.
Qed.

Lemma periodic_expiry_rearms_once_example :
  (forall h,
      In h (periodic_calls
              (process_callback bit_IS_PERIODIC (running []) (timer_of tick_some)))
      <-> is_initialized (running []) <> 0
          /\ periodic_handler tick_some = Some h)
  /\ rearms (process_callback bit_IS_PERIODIC (running []) (timer_of tick_some))
     = [(4%nat, 10)].
Proof.
  apply (proj1 (periodic_expiry_rearms_once bit_IS_PERIODIC)
           (running []) (timer_of tick_some) (res_periodic tick_some) tick_some).
  - reflexivity.
  - reflexivity.
  - discriminate.
  - discriminate.
Defined.

End RestEngine.

(** ** The uIP transport: endpoints, connection test, PSK lookup *)

Module Transport.
Import CString.

(** [uip_ipaddr_t]: the sixteen bytes [u8[16]] of an IPv6 address. *)
Definition uip_ipaddr_t := list Z.

Record coap_endpoint_t := {
  ipaddr : uip_ipaddr_t;
  port : Z;                       (* uint16_t, network byte order *)
  secure : Z                      (* uint8_t *)
}.

(** Modelled from the spec: [uip_ipaddr_cmp] of uip.h, which is not among the
    sources; the spec compares endpoints structurally ("equal iff address,
    port, and secure flag all match"), so two addresses compare equal when
    their bytes are the same. *)
Fixpoint uip_ipaddr_cmp (a b : uip_ipaddr_t) : bool :=
  match a, b with
  | [], [] => true
  | x :: a', y :: b' => (x =? y) && uip_ipaddr_cmp a' b'
  | _, _ => false
  end.

Definition coap_endpoint_copy (destination from : coap_endpoint_t)
    : coap_endpoint_t :=
  {| ipaddr := ipaddr from; port := port from; secure := secure from |}.

Definition coap_endpoint_cmp (e1 e2 : coap_endpoint_t) : Z :=
  if negb (uip_ipaddr_cmp (ipaddr e1) (ipaddr e2)) then 0
  else of_bool ((port e1 =? port e2) && (secure e1 =? secure e2)).

(** [dtls_session_equals] of the DTLS support file: a session is an
    endpoint. *)
Definition dtls_session_equals (a b : coap_endpoint_t) : Z :=
  coap_endpoint_cmp a b.

(** The value of a plain [char] that holds the byte [ch], after the
    integer promotions.  Whether plain [char] is a signed type is up to the
    implementation: where it is, a byte above 127 is a negative number. *)
Definition plain_char (char_is_signed : bool) (ch : ascii) : Z :=
  if char_is_signed && (127 <? uchar ch) then uchar ch - 256 else uchar ch.

(** The [for] loop of [index_of], with [n] positions left before [len];
    [data[offset] == c] compares a plain [char] with a [uint8_t]. *)
Fixpoint index_of_loop (char_is_signed : bool) (data : string) (c : ascii)
    (offset : Z) (n : nat) : Z :=
  match n with
  | O => -1
  | S k =>
      if plain_char char_is_signed (char_at data offset) =? uchar c then offset
      else index_of_loop char_is_signed data c (offset + 1) k
  end.

Definition index_of (char_is_signed : bool) (data : string) (offset len : Z)
    (c : ascii) : Z :=
  if offset <? 0 then offset
  else index_of_loop char_is_signed data c offset (Z.to_nat (len - offset)).

Definition is_digit (ch : ascii) : bool :=
  (uchar "0" <=? uchar ch) && (uchar ch <=? uchar "9").

(** The loop of [get_port] at index [i], [inbuf] being the buffer from that
    index on; returns the final [i] and [*value] (a [uint32_t]). *)
Fixpoint get_port_loop (inbuf : string) (len i value : Z) : Z * Z :=
  if i <? len then
    match inbuf with
    | String ch rest =>
        if is_digit ch
        then get_port_loop rest len (i + 1)
               ((value * 10 + (uchar ch - uchar "0")) mod 2 ^ 32)
        else (i, value)
    | EmptyString => (i, value)
    end
  else (i, value).

Definition get_port (inbuf : string) (len : Z) : Z * Z :=
  get_port_loop inbuf len 0 0.

Definition with_ipaddr (ep : coap_endpoint_t) (a : uip_ipaddr_t)
    : coap_endpoint_t :=
  {| ipaddr := a; port := port ep; secure := secure ep |}.

Section Endpoint.

(** From headers that are not among the sources: the byte-order macro, the
    two default ports, the largest [size_t], and the address conversion of
    uiplib, which reads the text at a pointer and writes into an address; it
    returns non-zero on success, and the address as it left it. *)
Variable UIP_HTONS : Z -> Z.
Variables COAP_DEFAULT_PORT COAP_DEFAULT_SECURE_PORT : Z.
Variable SIZE_MAX : Z.
Variable uiplib_ipaddrconv : string -> uip_ipaddr_t -> Z * uip_ipaddr_t.

(** Whether plain [char] is signed on the platform. *)
Variable char_is_signed : bool.

Definition SERVER_LISTEN_PORT : Z := UIP_HTONS COAP_DEFAULT_PORT.
Definition SERVER_LISTEN_SECURE_PORT : Z := UIP_HTONS COAP_DEFAULT_SECURE_PORT.

(** An expression of type [size_t]. *)
Definition to_size_t (z : Z) : Z := z mod (SIZE_MAX + 1).

(** [coap_endpoint_parse(text, size, ep)].  [text] is the memory at the
    pointer [text].  [text_var] is what a string routine reads at
    [(const char * )&text], the address of the parameter itself: the bytes
    of the pointer value and whatever follows them on the stack; the [else]
    branch of the source hands that to the address conversion.  Returns the
    result and the endpoint as it is left. *)
Definition coap_endpoint_parse (text text_var : string) (size : Z)
    (ep : coap_endpoint_t) : Z * coap_endpoint_t :=
  (* Only IPv6 supported *)
  let start := index_of char_is_signed text 0 size "[" in
  let end_ := index_of char_is_signed text start size "]" in
  let secure_ := of_bool (strncmp text "coaps:" 6 =? 0) in
  let '(conv, a1) :=
    if (start >? 0) && (end_ >? start)
    then uiplib_ipaddrconv (drop (Z.to_nat start) text) (ipaddr ep)
    else (0, ipaddr ep) in
  if truthy conv then
    let '(digits, port_) :=
      if Ascii.eqb (char_at text (end_ + 1)) ":"
      then get_port (drop (Z.to_nat (end_ + 2)) text) (to_size_t (size - end_ - 2))
      else (0, 0) in
    if truthy digits then
      (1, {| ipaddr := a1; port := UIP_HTONS port_; secure := secure ep |})
    else if truthy secure_ then
      (1, {| ipaddr := a1; port := SERVER_LISTEN_SECURE_PORT; secure := 1 |})
    else
      (1, {| ipaddr := a1; port := SERVER_LISTEN_PORT; secure := 0 |})
  else
    let '(conv', a2) := uiplib_ipaddrconv text_var a1 in
    if truthy conv' then
      (1, {| ipaddr := a2; port := SERVER_LISTEN_PORT; secure := 0 |})
    else
      (0, with_ipaddr ep a2).

End Endpoint.

Definition coap_endpoint_is_secure (ep : coap_endpoint_t) : Z := secure ep.

Section Connected.

(** Build options, and the two operations of the DTLS library the
    connection test uses (the library is not among the sources). *)
Variables UIP_CONF_IPV6_RPL WITH_DTLS : bool.
Variables dtls_context_t dtls_peer_t : Type.
Variable dtls_get_peer : dtls_context_t -> coap_endpoint_t -> option dtls_peer_t.
Variable dtls_peer_is_connected : dtls_peer_t -> Z.

(** [rpl_dag]: whether [rpl_get_any_dag()] is non-null.  [dtls_context] is
    the file-scope context pointer. *)
Definition coap_endpoint_is_connected (rpl_dag : bool)
    (dtls_context : option dtls_context_t) (ep : option coap_endpoint_t) : Z :=
  if UIP_CONF_IPV6_RPL && negb rpl_dag then 0
  else if WITH_DTLS then
    match ep, dtls_context with
    | Some e, Some ctx =>
        if truthy (secure e) then
          match dtls_get_peer ctx e with
          | Some peer =>
              (* only if handshake is done! *)
              dtls_peer_is_connected peer
          | None => 1                               (* Assume connected *)
          end
        else 1
    | _, _ => 1
    end
  else 1.

End Connected.

(** *** PSK lookup *)

Record coap_keystore_psk_entry_t := {
  identity_hint : option string;
  identity_hint_len : Z;
  identity : option string;
  identity_len : Z;
  key : option string;
  key_len : Z
}.

(** A keystore callback gets the endpoint and the entry by pointer; it
    returns its result and the entry as it left it. *)
Definition psk_callback :=
  option coap_endpoint_t -> option coap_keystore_psk_entry_t ->
  Z * option coap_keystore_psk_entry_t.

Record coap_keystore_t := {
  coap_get_psk_info : option psk_callback
}.

Inductive dtls_credentials_type_t :=
| DTLS_PSK_HINT | DTLS_PSK_IDENTITY | DTLS_PSK_KEY.

Inductive dtls_alert_t :=
| DTLS_ALERT_ILLEGAL_PARAMETER | DTLS_ALERT_INTERNAL_ERROR.

Definition set_identity (info : coap_keystore_psk_entry_t)
    (p : option string) (len : Z) : coap_keystore_psk_entry_t :=
  {| identity_hint := identity_hint info;
     identity_hint_len := identity_hint_len info;
     identity := p; identity_len := len;
     key := key info; key_len := key_len info |}.

Definition set_key (info : coap_keystore_psk_entry_t)
    (p : option string) (len : Z) : coap_keystore_psk_entry_t :=
  {| identity_hint := identity_hint info;
     identity_hint_len := identity_hint_len info;
     identity := identity info; identity_len := identity_len info;
     key := p; key_len := len |}.

Definition set_identity_hint (info : coap_keystore_psk_entry_t)
    (p : option string) (len : Z) : coap_keystore_psk_entry_t :=
  {| identity_hint := p; identity_hint_len := len;
     identity := identity info; identity_len := identity_len info;
     key := key info; key_len := key_len info |}.

(** [memset(&ks, 0, sizeof(ks))] *)
Definition zeroed : coap_keystore_psk_entry_t :=
  {| identity_hint := None; identity_hint_len := 0;
     identity := None; identity_len := 0;
     key := None; key_len := 0 |}.

Definition is_null {A} (p : option A) : bool :=
  match p with Some _ => false | None => true end.

Definition bytes_at (p : option string) : string :=
  match p with Some s => s | None => EmptyString end.

Definition get_default_psk_info (PSK_DEFAULT_IDENTITY PSK_DEFAULT_KEY : string)
    (address_info : option coap_endpoint_t)
    (info : option coap_keystore_psk_entry_t)
    : Z * option coap_keystore_psk_entry_t :=
  match info with
  | Some i =>
      if is_null (identity i) || (identity_len i =? 0) then
        (* Identity requested *)
        (1, Some (set_identity i (Some PSK_DEFAULT_IDENTITY)
                    (Z.of_nat (strlen PSK_DEFAULT_IDENTITY))))
      else if negb (identity_len i =? Z.of_nat (strlen PSK_DEFAULT_IDENTITY))
              || negb (memcmp (bytes_at (identity i)) PSK_DEFAULT_IDENTITY
                         (Z.to_nat (identity_len i)) =? 0) then
        (* Identity not matching *)
        (0, Some i)
      else
        (1, Some (set_key i (Some PSK_DEFAULT_KEY)
                    (Z.of_nat (strlen PSK_DEFAULT_KEY))))
  | None => (0, None)
  end.

Definition default_key_store (PSK_DEFAULT_IDENTITY PSK_DEFAULT_KEY : string)
    : coap_keystore_t :=
  {| coap_get_psk_info :=
       Some (get_default_psk_info PSK_DEFAULT_IDENTITY PSK_DEFAULT_KEY) |}.

(** The source defines both macros, unconditionally, a few lines after its
    includes (inside [#if WITH_DTLS]). *)
Definition PSK_DEFAULT_in_source : option (string * string) :=
  Some ("Client_identity"%string, "secretPSK"%string).

Section Psk.

(** [PSK_DEFAULT]: the pair (PSK_DEFAULT_IDENTITY, PSK_DEFAULT_KEY) when both
    macros are defined, which is what the [#if defined(...)] blocks test.
    [dtls_alert_fatal_create] belongs to the DTLS library. *)
Variable PSK_DEFAULT : option (string * string).
Variable dtls_alert_fatal_create : dtls_alert_t -> Z.

(** The keystore the lookup uses: the registered one, else the default one
    when it is compiled in. *)
Definition select_keystore (dtls_keystore : option coap_keystore_t)
    : option coap_keystore_t :=
  match dtls_keystore with
  | Some k => Some k
  | None =>
      match PSK_DEFAULT with
      | Some (i, k) => Some (default_key_store i k)
      | None => None
      end
  end.

(** [keystore->coap_get_psk_info((coap_endpoint_t * )session, &ks)], the
    result being ignored; [ks] afterwards. *)
Definition consult (f : psk_callback) (session : coap_endpoint_t)
    (ks : coap_keystore_psk_entry_t) : coap_keystore_psk_entry_t :=
  match snd (f (Some session) (Some ks)) with
  | Some ks' => ks'
  | None => ks
  end.

(** What the two kinds of request hand to the keystore. *)
Definition identity_request (id : option string) (id_len : Z)
    : coap_keystore_psk_entry_t :=
  if negb (is_null id) && truthy id_len
  then set_identity_hint zeroed id id_len
  else zeroed.

Definition key_request (id : option string) (id_len : Z)
    : coap_keystore_psk_entry_t :=
  set_identity zeroed id id_len.

(** [get_psk_info]: returns the result and the [result] buffer. *)
Definition get_psk_info (dtls_keystore : option coap_keystore_t)
    (session : coap_endpoint_t) (type : dtls_credentials_type_t)
    (id : option string) (id_len : Z)
    (result : string) (result_length : Z) : Z * string :=
  match select_keystore dtls_keystore with
  | None =>
      (* No key store available *)
      (0, result)
  | Some keystore =>
      match type with
      | DTLS_PSK_IDENTITY =>
          let ks := identity_request id id_len in
          let ks :=
            match coap_get_psk_info keystore with
            | Some f => consult f session ks
            | None => ks
            end in
          if is_null (identity ks) || (identity_len ks =? 0) then (0, result)
          else if result_length <? identity_len ks then
            (* cannot set psk_identity -- buffer too small *)
            (dtls_alert_fatal_create DTLS_ALERT_INTERNAL_ERROR, result)
          else
            (identity_len ks,
             memcpy result (bytes_at (identity ks)) (Z.to_nat (identity_len ks)))
      | DTLS_PSK_KEY =>
          let ks :=
            match coap_get_psk_info keystore with
            | Some f => consult f session (key_request id id_len)
            | None => zeroed
            end in
          if is_null (key ks) || (key_len ks =? 0) then
            (* PSK for unknown id requested, exiting *)
            (dtls_alert_fatal_create DTLS_ALERT_ILLEGAL_PARAMETER, result)
          else if result_length <? key_len ks then
            (* cannot set psk -- buffer too small *)
            (dtls_alert_fatal_create DTLS_ALERT_INTERNAL_ERROR, result)
          else
            (key_len ks,
             memcpy result (bytes_at (key ks)) (Z.to_nat (key_len ks)))
      | DTLS_PSK_HINT =>
          (* unsupported request type *)
          (dtls_alert_fatal_create DTLS_ALERT_INTERNAL_ERROR, result)
      end
  end.

End Psk.

(** *** Lemmas on the PSK lookup *)

Lemma take_length k : forall s,
  (k <= String.length s)%nat -> String.length (take k s) = k.
Proof.
  induction k as [|k IH]; intros [|c s] H; simpl in *; try lia.
  now rewrite IH by lia.
Qed.

Lemma take_app k : forall s t,
  String.length s = k -> take k (s ++ t) = s.
Proof.
  induction k as [|k IH]; intros [|c s] t H; simpl in *; try discriminate;
    [now destruct t|].
  now rewrite IH by lia.
Qed.

Lemma drop_app k : forall s t,
  String.length s = k -> drop k (s ++ t) = t.
Proof.
  induction k as [|k IH]; intros [|c s] t H; simpl in *; try discriminate;
    [reflexivity|].
  now rewrite IH by lia.
Qed.

(** What [memcpy] leaves: the first [k] bytes are those of the source, the
    rest of the destination is as before. *)
Lemma memcpy_spec dst src k :
  (k <= String.length src)%nat ->
  take k (memcpy dst src k) = take k src
  /\ drop k (memcpy dst src k) = drop k dst.
Proof.
  intros H. unfold memcpy. split.
  - apply take_app. now apply take_length.
  - apply drop_app. now apply take_length.
Qed.

Section PskProperties.

Variable PSK_DEFAULT : option (string * string).
Variable dtls_alert_fatal_create : dtls_alert_t -> Z.

Lemma get_psk_info_identity keystore f session id id_len result result_length
    ret answer :
  coap_get_psk_info keystore = Some f ->
  f (Some session) (Some (identity_request id id_len)) = (ret, Some answer) ->
  get_psk_info PSK_DEFAULT dtls_alert_fatal_create (Some keystore) session
    DTLS_PSK_IDENTITY id id_len result result_length
  = if is_null (identity answer) || (identity_len answer =? 0) then (0, result)
    else if result_length <? identity_len answer
    then (dtls_alert_fatal_create DTLS_ALERT_INTERNAL_ERROR, result)
    else (identity_len answer,
          memcpy result (bytes_at (identity answer))
            (Z.to_nat (identity_len answer))).
Proof.
  intros Hf Hans. unfold get_psk_info. simpl.
  rewrite Hf. unfold consult. rewrite Hans. reflexivity.
Qed.

Lemma get_psk_info_key keystore f session id id_len result result_length
    ret answer :
  coap_get_psk_info keystore = Some f ->
  f (Some session) (Some (key_request id id_len)) = (ret, Some answer) ->
  get_psk_info PSK_DEFAULT dtls_alert_fatal_create (Some keystore) session
    DTLS_PSK_KEY id id_len result result_length
  = if is_null (key answer) || (key_len answer =? 0)
    then (dtls_alert_fatal_create DTLS_ALERT_ILLEGAL_PARAMETER, result)
    else if result_length <? key_len answer
    then (dtls_alert_fatal_create DTLS_ALERT_INTERNAL_ERROR, result)
    else (key_len answer,
          memcpy result (bytes_at (key answer)) (Z.to_nat (key_len answer))).
Proof.
  intros Hf Hans. unfold get_psk_info. simpl.
  rewrite Hf. unfold consult. rewrite Hans. reflexivity.
Qed.

(** The lookup through the selected keystore is the lookup with that
    keystore registered. *)
Lemma get_psk_info_selected dtls_keystore keystore session type id id_len
    result result_length :
  select_keystore PSK_DEFAULT dtls_keystore = Some keystore ->
  get_psk_info PSK_DEFAULT dtls_alert_fatal_create dtls_keystore session type
    id id_len result result_length
  = get_psk_info PSK_DEFAULT dtls_alert_fatal_create (Some keystore) session
      type id id_len result result_length.
Proof.
  intros H. unfold get_psk_info. now rewrite H.
Qed.

End PskProperties.

(** C8.  Whichever keystore answers (the registered one or the default
    one), for an identity request and for a key request: when the keystore
    resolves a credential of [n] bytes and the result buffer is shorter
    than [n], the lookup returns the fatal internal-error alert and leaves
    the buffer as it was; when the buffer has room, the lookup returns [n]
    and the buffer starts with the [n] bytes of the credential, the rest of
    it unchanged. *)
Theorem psk_lookup_never_truncates :
  forall PSK_DEFAULT dtls_alert_fatal_create dtls_keystore keystore f session
         id id_len result result_length ret answer bytes n,
    select_keystore PSK_DEFAULT dtls_keystore = Some keystore ->
    coap_get_psk_info keystore = Some f ->
    n <> 0 ->
    let lookup type :=
      get_psk_info PSK_DEFAULT dtls_alert_fatal_create dtls_keystore session
        type id id_len result result_length in
    let fits (r : Z * string) :=
      fst r = n
      /\ ((Z.to_nat n <= String.length bytes)%nat ->
          take (Z.to_nat n) (snd r) = take (Z.to_nat n) bytes
          /\ drop (Z.to_nat n) (snd r) = drop (Z.to_nat n) result) in
    (f (Some session) (Some (identity_request id id_len)) = (ret, Some answer) ->
     identity answer = Some bytes ->
     identity_len answer = n ->
     (result_length < n ->
      lookup DTLS_PSK_IDENTITY
      = (dtls_alert_fatal_create DTLS_ALERT_INTERNAL_ERROR, result))
     /\ (n <= result_length -> fits (lookup DTLS_PSK_IDENTITY)))
    /\
    (f (Some session) (Some (key_request id id_len)) = (ret, Some answer) ->
     key answer = Some bytes ->
     key_len answer = n ->
     (result_length < n ->
      lookup DTLS_PSK_KEY
      = (dtls_alert_fatal_create DTLS_ALERT_INTERNAL_ERROR, result))
     /\ (n <= result_length -> fits (lookup DTLS_PSK_KEY))).
Proof.
  intros D alert dk keystore f session id id_len result result_length ret
         answer bytes n Hsel Hf Hn lookup fits.
  unfold lookup, fits. split; intros Hans Hb Hl.
  - rewrite (get_psk_info_selected D alert dk keystore) by assumption.
    rewrite (get_psk_info_identity D alert keystore f session id id_len
               result result_length ret answer Hf Hans).
    rewrite Hb, Hl. simpl.
    rewrite (proj2 (Z.eqb_neq n 0) Hn). split; intros Hlen.
    + now rewrite (proj2 (Z.ltb_lt result_length n) Hlen).
    + rewrite (proj2 (Z.ltb_ge result_length n) Hlen). simpl.
      split; [reflexivity|]. apply memcpy_spec.
  - rewrite (get_psk_info_selected D alert dk keystore) by assumption.
    rewrite (get_psk_info_key D alert keystore f session id id_len
               result result_length ret answer Hf Hans).
    rewrite Hb, Hl. simpl.
    rewrite (proj2 (Z.eqb_neq n 0) Hn). split; intros Hlen.
    + now rewrite (proj2 (Z.ltb_lt result_length n) Hlen).
    + rewrite (proj2 (Z.ltb_ge result_length n) Hlen). simpl.
      split; [reflexivity|]. apply memcpy_spec.
Qed.

(** C5 (amended).  With no keystore registered the lookup returns no
    credential only where the default pair is not compiled in.  Where both
    default macros are defined, the lookup with no registered keystore is
    the lookup through the default keystore; an identity request is then
    answered with the default identity whenever the buffer has room for it.
    A registered keystore is used whether or not the default pair exists. *)
Theorem psk_lookup_without_registered_keystore :
  forall dtls_alert_fatal_create session result result_length,
    let lookup D ks type id id_len :=
      get_psk_info D dtls_alert_fatal_create ks session type id id_len
        result result_length in
    (forall type id id_len, lookup None None type id id_len = (0, result))
    /\ (forall PSK_DEFAULT_IDENTITY PSK_DEFAULT_KEY type id id_len,
          lookup (Some (PSK_DEFAULT_IDENTITY, PSK_DEFAULT_KEY)) None type id id_len
          = lookup None
              (Some (default_key_store PSK_DEFAULT_IDENTITY PSK_DEFAULT_KEY))
              type id id_len)
    /\ (forall PSK_DEFAULT_IDENTITY PSK_DEFAULT_KEY id id_len,
          strlen PSK_DEFAULT_IDENTITY <> O ->
          Z.of_nat (strlen PSK_DEFAULT_IDENTITY) <= result_length ->
          lookup (Some (PSK_DEFAULT_IDENTITY, PSK_DEFAULT_KEY)) None
            DTLS_PSK_IDENTITY id id_len
          = (Z.of_nat (strlen PSK_DEFAULT_IDENTITY),
             memcpy result PSK_DEFAULT_IDENTITY (strlen PSK_DEFAULT_IDENTITY)))
    /\ (forall D D' keystore type id id_len,
          lookup D (Some keystore) type id id_len
          = lookup D' (Some keystore) type id id_len).
Proof.
  intros alert session result result_length lookup.
  unfold lookup. repeat split.
  intros I K id id_len Hne Hfit.
  unfold get_psk_info, select_keystore, default_key_store. simpl.
  unfold consult, get_default_psk_info, identity_request.
  destruct (negb (is_null id) && truthy id_len); simpl;
    (destruct (Z.eqb_spec (Z.of_nat (strlen I)) 0) as [E|E]; [lia|]);
    (destruct (Z.ltb_spec result_length (Z.of_nat (strlen I))); [lia|]);
    now rewrite Nat2Z.id.
Qed.

(** *** Endpoint parsing *)

Section EndpointProperties.

Variable UIP_HTONS : Z -> Z.
Variables COAP_DEFAULT_PORT COAP_DEFAULT_SECURE_PORT : Z.
Variable SIZE_MAX : Z.
Variable uiplib_ipaddrconv : string -> uip_ipaddr_t -> Z * uip_ipaddr_t.
Variable char_is_signed : bool.

Local Abbreviation parse_with :=
  (coap_endpoint_parse UIP_HTONS COAP_DEFAULT_PORT COAP_DEFAULT_SECURE_PORT
     SIZE_MAX uiplib_ipaddrconv char_is_signed).

(** The three outcomes for a text whose bracketed address converts.  With
    a port after the bracket the flag of the endpoint is left as it was;
    without one it is set from the scheme. *)
Lemma parse_bracketed text text_var size ep start end_ c a :
  index_of char_is_signed text 0 size "[" = start ->
  index_of char_is_signed text start size "]" = end_ ->
  0 < start -> start < end_ ->
  uiplib_ipaddrconv (drop (Z.to_nat start) text) (ipaddr ep) = (c, a) ->
  c <> 0 ->
  let port_digits :=
    if Ascii.eqb (char_at text (end_ + 1)) ":"
    then get_port (drop (Z.to_nat (end_ + 2)) text)
           ((size - end_ - 2) mod (SIZE_MAX + 1))
    else (0, 0) in
  (fst port_digits <> 0 ->
   parse_with text text_var size ep
   = (1, {| ipaddr := a; port := UIP_HTONS (snd port_digits);
            secure := secure ep |}))
  /\ (fst port_digits = 0 ->
      strncmp text "coaps:" 6 = 0 ->
      parse_with text text_var size ep
      = (1, {| ipaddr := a; port := UIP_HTONS COAP_DEFAULT_SECURE_PORT;
               secure := 1 |}))
  /\ (fst port_digits = 0 ->
      strncmp text "coaps:" 6 <> 0 ->
      parse_with text text_var size ep
      = (1, {| ipaddr := a; port := UIP_HTONS COAP_DEFAULT_PORT;
               secure := 0 |})).
Proof.
  intros Hs He Hs0 Hse Hconv Hc port_digits.
  unfold coap_endpoint_parse. rewrite Hs, He.
  rewrite (proj2 (Z.gtb_lt _ _) Hs0), (proj2 (Z.gtb_lt _ _) Hse). simpl.
  rewrite Hconv, (proj2 (truthy_true c) Hc).
  unfold to_size_t. fold port_digits.
  destruct port_digits as [digits port_]. simpl.
  repeat split.
  - intros Hd. now rewrite (proj2 (truthy_true digits) Hd).
  - intros -> Hcmp. rewrite Hcmp. reflexivity.
  - intros -> Hcmp. unfold truthy at 1. simpl.
    now rewrite (proj2 (Z.eqb_neq _ _) Hcmp).
Qed.

End EndpointProperties.

(** *** The connection test *)

Section ConnectedProperties.

Variables UIP_CONF_IPV6_RPL WITH_DTLS : bool.
Variables dtls_context_t dtls_peer_t : Type.
Variable dtls_get_peer : dtls_context_t -> coap_endpoint_t -> option dtls_peer_t.
Variable dtls_peer_is_connected : dtls_peer_t -> Z.

Local Abbreviation is_connected :=
  (coap_endpoint_is_connected UIP_CONF_IPV6_RPL WITH_DTLS
     dtls_context_t dtls_peer_t dtls_get_peer dtls_peer_is_connected).

(** Without a routing path nothing is connected. *)
Lemma is_connected_without_dag dtls_context ep :
  UIP_CONF_IPV6_RPL = true -> is_connected false dtls_context ep = 0.
Proof. intros ->. reflexivity. Qed.

(** A plaintext endpoint is connected. *)
Lemma is_connected_plaintext rpl_dag dtls_context e :
  UIP_CONF_IPV6_RPL && negb rpl_dag = false ->
  secure e = 0 ->
  is_connected rpl_dag dtls_context (Some e) = 1.
Proof.
  intros Hr He. unfold coap_endpoint_is_connected. rewrite Hr, He.
  destruct WITH_DTLS; [|reflexivity]. now destruct dtls_context.
Qed.

(** A secure endpoint with a peer is connected when the peer is. *)
Lemma is_connected_with_peer rpl_dag ctx e peer :
  UIP_CONF_IPV6_RPL && negb rpl_dag = false ->
  WITH_DTLS = true ->
  secure e <> 0 ->
  dtls_get_peer ctx e = Some peer ->
  is_connected rpl_dag (Some ctx) (Some e) = dtls_peer_is_connected peer.
Proof.
  intros Hr Hd He Hp. unfold coap_endpoint_is_connected.
  rewrite Hr, Hd, Hp. unfold truthy.
  now rewrite (proj2 (Z.eqb_neq _ _) He).
Qed.

(** A secure endpoint for which the context holds no peer falls through to
    the final [return 1]. *)
Lemma is_connected_without_peer rpl_dag ctx e :
  UIP_CONF_IPV6_RPL && negb rpl_dag = false ->
  dtls_get_peer ctx e = None ->
  is_connected rpl_dag (Some ctx) (Some e) = 1.
Proof.
  intros Hr Hp. unfold coap_endpoint_is_connected. rewrite Hr, Hp.
  destruct WITH_DTLS; [|reflexivity]. now destruct (truthy (secure e)).
Qed.

End ConnectedProperties.

(** *** Worked examples

    The parameters are instantiated for a little-endian host with 32-bit
    [size_t], a signed plain [char] and the registered CoAP ports. *)

Definition htons_le (n : Z) : Z :=
  let n16 := n mod 65536 in (n16 mod 256) * 256 + n16 / 256.

Definition hex_digit (c : ascii) : option Z :=
  let n := uchar c in
  if (uchar "0" <=? n) && (n <=? uchar "9") then Some (n - uchar "0")
  else if (uchar "a" <=? n) && (n <=? uchar "f") then Some (n - uchar "a" + 10)
  else if (uchar "A" <=? n) && (n <=? uchar "F") then Some (n - uchar "A" + 10)
  else None.

Definition ends_address (c : ascii) : bool :=
  Ascii.eqb c NUL || Ascii.eqb c "]" || Ascii.eqb c "/".

(** The 16-bit groups of an IPv6 text, most recent first, and the number of
    groups read when "::" was met. *)
Fixpoint ip6_groups (s : string) (value : Z) (groups : list Z)
    (zero : option nat) : option (list Z * option nat) :=
  match s with
  | EmptyString => Some (value :: groups, zero)
  | String c rest =>
      if ends_address c then Some (value :: groups, zero)
      else if Ascii.eqb c ":" then
        match rest with
        | String c' rest' =>
            if Ascii.eqb c' ":" then
              ip6_groups rest' 0 (value :: groups)
                (match zero with
                 | None => Some (S (List.length groups))
                 | Some z => Some z
                 end)
            else ip6_groups rest 0 (value :: groups) zero
        | EmptyString => ip6_groups rest 0 (value :: groups) zero
        end
      else
        match hex_digit c with
        | Some d => ip6_groups rest ((value * 16 + d) mod 65536) groups zero
        | None => None
        end
  end.

Definition group_bytes (g : Z) : list Z := [g / 256; g mod 256].

(** An address conversion for the examples.  It reads IPv6 text as uiplib
    does (an optional '[', hexadecimal groups, one "::", ended by ']', '/'
    or NUL); when the text is no address it leaves the address as it was. *)
Definition ip6addrconv (addrstr : string) (old : uip_ipaddr_t)
    : Z * uip_ipaddr_t :=
  let s := if Ascii.eqb (hd addrstr) "[" then tl addrstr else addrstr in
  match ip6_groups s 0 [] None with
  | Some (rev_groups, zero) =>
      let groups := rev rev_groups in
      let n := List.length groups in
      if (8 <? n)%nat then (0, old)
      else if (n =? 8)%nat then (1, flat_map group_bytes groups)
      else
        match zero with
        | Some z =>
            (1, flat_map group_bytes
                  (firstn z groups ++ repeat 0 (8 - n) ++ skipn z groups))
        | None => (0, old)
        end
  | None => (0, old)
  end.

Definition parse : string -> string -> Z -> coap_endpoint_t -> Z * coap_endpoint_t :=
  coap_endpoint_parse htons_le 5683 5684 (2 ^ 32 - 1) ip6addrconv true.

(** Any sixteen bytes, port and flag: the endpoint before a parse. *)
Definition blank (secure_before : Z) : coap_endpoint_t :=
  {| ipaddr := repeat 0 16; port := 0; secure := secure_before |}.

(** The bytes of a pointer value (0x20001234, low byte first), read as
    text: no address. *)
Definition pointer_bytes : string :=
  String (ascii_of_nat 52) (String (ascii_of_nat 18)
    (String (ascii_of_nat 0) (String (ascii_of_nat 32) ""))).

Definition ip_2001_db8__1 : uip_ipaddr_t :=
  [32; 1; 13; 184; 0; 0; 0; 0; 0; 0; 0; 0; 0; 0; 0; 1].

(** C4: the explicit-port branch assigns the address and the port and
    leaves [ep->secure] as the caller's endpoint had it.  Parsing
    "coap://[2001:db8::1]:5683" into an endpoint whose flag was 1 yields
    secure = 1, and parsing "coaps://[2001:db8::1]:5684" into one whose flag
    was 0 yields secure = 0.  The branches without a port do set the flag:
    "coaps://[2001:db8::1]" yields the default secure port and secure = 1. *)
Lemma explicit_port_keeps_stale_secure_flag :
  parse "coap://[2001:db8::1]:5683" pointer_bytes 25 (blank 1)
  = (1, {| ipaddr := ip_2001_db8__1; port := htons_le 5683; secure := 1 |})
  /\ parse "coaps://[2001:db8::1]:5684" pointer_bytes 26 (blank 0)
     = (1, {| ipaddr := ip_2001_db8__1; port := htons_le 5684; secure := 0 |})
  /\ parse "coaps://[2001:db8::1]" pointer_bytes 21 (blank 0)
     = (1, {| ipaddr := ip_2001_db8__1; port := htons_le 5684; secure := 1 |})
  /\ parse "coap://[2001:db8::1]" pointer_bytes 20 (blank 1)
     = (1, {| ipaddr := ip_2001_db8__1; port := htons_le 5683; secure := 0 |})
  /\ fst (parse "coap://[2001:db8:x]" pointer_bytes 19 (blank 0)) = 0.
Proof.
  repeat split; vm_compute; reflexivity.
Qed.

(** Modelled from the spec: the secure channel's "peer-lookup by endpoint"
    and its test for a completed handshake; the DTLS library is not among
    the sources.  A context is its table of peers, each a session and
    whether its handshake is done; sessions are compared as
    [dtls_session_equals] does. *)
Definition peer_table := list (coap_endpoint_t * bool).

Definition find_peer (ctx : peer_table) (session : coap_endpoint_t)
    : option (coap_endpoint_t * bool) :=
  find (fun p => truthy (dtls_session_equals (fst p) session)) ctx.

Definition handshake_done (peer : coap_endpoint_t * bool) : Z :=
  of_bool (snd peer).

(** The connection test of a build with DTLS and without RPL. *)
Definition is_connected_dtls : option peer_table -> option coap_endpoint_t -> Z :=
  coap_endpoint_is_connected false true peer_table (coap_endpoint_t * bool)
    find_peer handshake_done true.

Definition server_secure : coap_endpoint_t :=
  {| ipaddr := ip_2001_db8__1; port := htons_le 5684; secure := 1 |}.

(** C6: for a secure endpoint the test answers 1 although the context holds
    no peer for it (and also when there is no context at all); with a peer
    it answers 1 only once the handshake is done. *)
Lemma secure_endpoint_without_peer_counts_as_connected :
  find_peer [] server_secure = None
  /\ is_connected_dtls (Some []) (Some server_secure) = 1
  /\ is_connected_dtls None (Some server_secure) = 1
  /\ is_connected_dtls (Some [(server_secure, false)]) (Some server_secure) = 0
  /\ is_connected_dtls (Some [(server_secure, true)]) (Some server_secure) = 1.
Proof.
  repeat split.
Qed.

(** The alert values of the DTLS library: minus (fatal level, description). *)
Definition alert_value (desc : dtls_alert_t) : Z :=
  match desc with
  | DTLS_ALERT_ILLEGAL_PARAMETER => - (2 * 256 + 47)
  | DTLS_ALERT_INTERNAL_ERROR => - (2 * 256 + 80)
  end.

(** The lookup as this source builds it: both default macros defined. *)
Definition lookup_in_source : option coap_keystore_t -> coap_endpoint_t ->
    dtls_credentials_type_t -> option string -> Z -> string -> Z -> Z * string :=
  get_psk_info PSK_DEFAULT_in_source alert_value.

Fixpoint zeros (n : nat) : string :=
  match n with O => EmptyString | S k => String NUL (zeros k) end.

(** C5, as stated, fails here: no keystore is registered, and the lookup
    returns the default identity (15 bytes) to an identity request and the
    default key (9 bytes) to a key request for that identity. *)
Lemma default_pair_answers_without_keystore :
  lookup_in_source None server_secure DTLS_PSK_IDENTITY None 0 (zeros 32) 32
  = (15, ("Client_identity" ++ zeros 17)%string)
  /\ lookup_in_source None server_secure DTLS_PSK_KEY
       (Some "Client_identity"%string) 15 (zeros 32) 32
     = (9, ("secretPSK" ++ zeros 23)%string).
Proof.
  split; reflexivity.
Qed.

Lemma psk_lookup_without_registered_keystore_example :
  get_psk_info None alert_value None server_secure DTLS_PSK_IDENTITY None 0
    (zeros 32) 32 = (0, zeros 32)
  /\ lookup_in_source None server_secure DTLS_PSK_IDENTITY None 0 (zeros 32) 32
     = (15, memcpy (zeros 32) "Client_identity" 15).
Proof.
  pose proof (psk_lookup_without_registered_keystore alert_value server_secure
                (zeros 32) 32) as (Hnone & _ & Hdefault & _).
  split.
  - apply (Hnone DTLS_PSK_IDENTITY None 0).
  - apply (Hdefault "Client_identity"%string "secretPSK"%string None 0).
    + discriminate.
    + vm_compute. discriminate.
Defined.

(** The default keystore resolves the 15-byte identity: a 4-byte buffer is
    refused and left alone, a 32-byte buffer receives all 15 bytes. *)
Lemma psk_lookup_never_truncates_example :
  lookup_in_source None server_secure DTLS_PSK_IDENTITY None 0 (zeros 4) 4
  = (alert_value DTLS_ALERT_INTERNAL_ERROR, zeros 4)
  /\ fst (lookup_in_source None server_secure DTLS_PSK_IDENTITY None 0
            (zeros 32) 32) = 15
  /\ take 15 (snd (lookup_in_source None server_secure DTLS_PSK_IDENTITY None 0
                     (zeros 32) 32)) = "Client_identity"%string.
Proof.
  assert (Hsmall := psk_lookup_never_truncates PSK_DEFAULT_in_source alert_value
            None (default_key_store "Client_identity" "secretPSK")
            (get_default_psk_info "Client_identity" "secretPSK")
            server_secure None 0 (zeros 4) 4 1
            (set_identity zeroed (Some "Client_identity"%string) 15)
            "Client_identity"%string 15 eq_refl eq_refl).
  assert (Hroom := psk_lookup_never_truncates PSK_DEFAULT_in_source alert_value
            None (default_key_store "Client_identity" "secretPSK")
            (get_default_psk_info "Client_identity" "secretPSK")
            server_secure None 0 (zeros 32) 32 1
            (set_identity zeroed (Some "Client_identity"%string) 15)
            "Client_identity"%string 15 eq_refl eq_refl).
  assert (Hn : 15 <> 0) by discriminate.
  destruct (Hsmall Hn) as [Hid _]. destruct (Hroom Hn) as [Hid' _].
  destruct (Hid eq_refl eq_refl eq_refl) as [Hshort _].
  destruct (Hid' eq_refl eq_refl eq_refl) as [_ Hfits].
  split; [|split].
  - apply Hshort. reflexivity.
  - apply Hfits. vm_compute. discriminate.
  - apply Hfits.
    + vm_compute. discriminate.
    + vm_compute. apply le_n.
Defined.

End Transport.

(** ** The LWM2M security object as keystore *)

Module Lwm2mSecurity.
Import CString Transport.

(** The fields of a security instance that the keystore reads; the three
    buffers are the arrays of the struct. *)
Record lwm2m_security_value_t := {
  server_uri : string;
  server_uri_len : Z;
  bootstrap : Z;
  security_mode : Z;
  public_key : string;
  public_key_len : Z;
  secret_key : string;
  secret_key_len : Z
}.

Section Keystore.

(** The mode constant is from a header that is not among the sources; the
    next five are the parameters of [coap_endpoint_parse].
    [uri_pointer_bytes e] is what [coap_endpoint_parse] finds at the address
    of its own parameter when called with [e->server_uri]. *)
Variable LWM2M_SECURITY_MODE_PSK : Z.
Variable UIP_HTONS : Z -> Z.
Variables COAP_DEFAULT_PORT COAP_DEFAULT_SECURE_PORT : Z.
Variable SIZE_MAX : Z.
Variable uiplib_ipaddrconv : string -> uip_ipaddr_t -> Z * uip_ipaddr_t.
Variable char_is_signed : bool.
Variable uri_pointer_bytes : lwm2m_security_value_t -> string.

(** [coap_endpoint_parse((char * )e->server_uri, e->server_uri_len, &ep)] *)
Definition parse_server_uri (e : lwm2m_security_value_t) (ep : coap_endpoint_t)
    : Z * coap_endpoint_t :=
  coap_endpoint_parse UIP_HTONS COAP_DEFAULT_PORT COAP_DEFAULT_SECURE_PORT
    SIZE_MAX uiplib_ipaddrconv char_is_signed
    (server_uri e) (uri_pointer_bytes e) (server_uri_len e) ep.

(** The [for] loop of [get_psk_info] from entry [e] on; [ep] is the local
    endpoint, reused from one iteration to the next.  Returns [e] on exit
    (NULL when no entry was found). *)
Fixpoint find_security (instances : list lwm2m_security_value_t)
    (address_info : coap_endpoint_t) (info : coap_keystore_psk_entry_t)
    (ep : coap_endpoint_t) : option lwm2m_security_value_t :=
  match instances with
  | [] => None
  | e :: next =>
      if server_uri_len e =? 0 then
        find_security next address_info info ep
      else if negb (security_mode e =? LWM2M_SECURITY_MODE_PSK) then
        (* Only PSK supported for now *)
        find_security next address_info info ep
      else
        let '(parsed, ep') := parse_server_uri e ep in
        if negb (truthy parsed) then
          (* Failed to parse URI to endpoint *)
          find_security next address_info info ep'
        else if negb (truthy (coap_endpoint_cmp address_info ep')) then
          (* Wrong server *)
          find_security next address_info info ep'
        else if (identity_len info >? 0) && negb (is_null (identity info))
                && (negb (identity_len info =? public_key_len e)
                    || truthy (memcmp (bytes_at (identity info)) (public_key e)
                                 (Z.to_nat (identity_len info)))) then
          (* Identity not matching *)
          find_security next address_info info ep'
        else
          (* Found security information for this server *)
          Some e
  end.

(** [get_psk_info(address_info, info)] over the list of instances; [ep] is
    what the uninitialised local endpoint holds on entry. *)
Definition get_psk_info (instances : list lwm2m_security_value_t)
    (ep : coap_endpoint_t)
    (address_info : option coap_endpoint_t)
    (info : option coap_keystore_psk_entry_t)
    : Z * option coap_keystore_psk_entry_t :=
  match info, address_info with
  | Some i, Some a =>
      match find_security instances a i ep with
      | None =>
          (* No matching security object found *)
          (0, Some i)
      | Some e =>
          if is_null (identity i) || (identity_len i =? 0) then
            (* Identity requested *)
            (1, Some (set_identity i (Some (public_key e)) (public_key_len e)))
          else if secret_key_len e =? 0 then
            (* No secret key / password *)
            (0, Some i)
          else
            (1, Some (set_key i (Some (secret_key e)) (secret_key_len e)))
      end
  | _, _ => (0, info)
  end.

(** The keystore registered by [lwm2m_security_init]. *)
Definition key_store (instances : list lwm2m_security_value_t)
    (ep : coap_endpoint_t) : coap_keystore_t :=
  {| coap_get_psk_info := Some (get_psk_info instances ep) |}.

End Keystore.

(** *** Worked example: an entry with an explicit port after another entry *)

Definition LWM2M_SECURITY_MODE_PSK_value : Z := 0.

(** The security instance of a DTLS server: a "coaps:" URI without a port. *)
Definition entry_for_2001_db8__1 : lwm2m_security_value_t :=
  {| server_uri := "coaps://[2001:db8::1]"; server_uri_len := 21;
     bootstrap := 0; security_mode := LWM2M_SECURITY_MODE_PSK_value;
     public_key := "device-1"; public_key_len := 8;
     secret_key := "s3cret"; secret_key_len := 6 |}.

(** The security instance of a plaintext server, under a "coap:" URI that
    names its port. *)
Definition entry_for_plain_fd02__1 : lwm2m_security_value_t :=
  {| server_uri := "coap://[fd02::1]:5684"; server_uri_len := 21;
     bootstrap := 0; security_mode := LWM2M_SECURITY_MODE_PSK_value;
     public_key := "device-2"; public_key_len := 8;
     secret_key := "pa55word"; secret_key_len := 8 |}.

(** The peer of a DTLS handshake: fd02::1, port 5684, secure. *)
Definition peer_fd02__1 : coap_endpoint_t :=
  {| ipaddr := [253; 2; 0; 0; 0; 0; 0; 0; 0; 0; 0; 0; 0; 0; 0; 1];
     port := htons_le 5684; secure := 1 |}.

(** The keystore of the security object, the local endpoint holding
    [local] on entry. *)
Definition lookup_from (local : coap_endpoint_t)
    (instances : list lwm2m_security_value_t)
    : option coap_endpoint_t -> option coap_keystore_psk_entry_t ->
      Z * option coap_keystore_psk_entry_t :=
  get_psk_info LWM2M_SECURITY_MODE_PSK_value htons_le 5683 5684 (2 ^ 32 - 1)
    ip6addrconv true (fun _ => pointer_bytes) instances local.

Definition lookup (instances : list lwm2m_security_value_t)
    : option coap_endpoint_t -> option coap_keystore_psk_entry_t ->
      Z * option coap_keystore_psk_entry_t :=
  lookup_from (blank 0) instances.

(** C9: no registered entry has a server URI that denotes the secure peer
    fd02::1, port 5684: one is for another address, the other is a "coap:"
    URI, that of a plaintext endpoint.  The lookup hands out the credential
    of the plaintext entry all the same.  Its URI names a port, so
    [coap_endpoint_parse] leaves the flag of the local endpoint alone, and
    the flag there is the 1 that the parse of the entry before left behind.
    With the two entries in the other order, or with the second entry alone
    and the flag clear on entry, the lookup finds nothing; with the flag set
    on entry, the second entry alone is found as well.  With the two
    entries in the first order the outcome is the same whatever the local
    endpoint holds on entry. *)
Lemma keystore_serves_plaintext_entry_to_secure_peer :
  strncmp (server_uri entry_for_plain_fd02__1) "coaps:" 6 <> 0
  /\ ipaddr (snd (parse (server_uri entry_for_2001_db8__1) pointer_bytes 21
                    (blank 0))) <> ipaddr peer_fd02__1
  /\ lookup [entry_for_2001_db8__1; entry_for_plain_fd02__1]
       (Some peer_fd02__1) (Some zeroed)
     = (1, Some (set_identity zeroed (Some "device-2"%string) 8))
  /\ lookup [entry_for_2001_db8__1; entry_for_plain_fd02__1]
       (Some peer_fd02__1)
       (Some (set_identity zeroed (Some "device-2"%string) 8))
     = (1, Some (set_key (set_identity zeroed (Some "device-2"%string) 8)
                   (Some "pa55word"%string) 8))
  /\ lookup [entry_for_plain_fd02__1; entry_for_2001_db8__1]
       (Some peer_fd02__1) (Some zeroed)
     = (0, Some zeroed)
  /\ lookup_from (blank 0) [entry_for_plain_fd02__1]
       (Some peer_fd02__1) (Some zeroed)
     = (0, Some zeroed)
  /\ lookup_from (blank 1) [entry_for_plain_fd02__1]
       (Some peer_fd02__1) (Some zeroed)
     = (1, Some (set_identity zeroed (Some "device-2"%string) 8))
  /\ (forall local,
        lookup_from local [entry_for_2001_db8__1; entry_for_plain_fd02__1]
          (Some peer_fd02__1) (Some zeroed)
        = (1, Some (set_identity zeroed (Some "device-2"%string) 8))).
Proof.
  split; [vm_compute; discriminate|].
  split; [vm_compute; discriminate|].
  split; [reflexivity|]. split; [reflexivity|]. split; [reflexivity|].
  split; [reflexivity|]. split; [reflexivity|].
  intros local. reflexivity.
Qed.

End Lwm2mSecurity.

(** ** er-coap-blocking-api.c: the blocking request *)

Module BlockingApi.
Import CString.

(** The part of a response the request engine reads: its Block2 option,
    when it carries one, as (block number, more). *)
Record coap_packet_t := {
  block2 : option (Z * Z);
  payload : string
}.

(** Modelled from the spec: [coap_get_header_block2] of er-coap.c, which is
    not among the sources; the spec has the engine "read the response's
    block option".  The two out-parameters receive the block number and
    the more flag; a response without the option leaves them as they are. *)
Definition coap_get_header_block2 (packet : coap_packet_t) (num more : Z)
    : Z * Z :=
  match block2 packet with
  | Some (n, m) => (n, m)
  | None => (num, more)
  end.

(** Where the protothread resumes: at its beginning, or at the
    [PT_YIELD_UNTIL]. *)
Inductive lc_t := LC_BEGIN | LC_YIELD.

Inductive pt_result := PT_WAITING | PT_YIELDED | PT_EXITED | PT_ENDED.

Record request_state_t := {
  pt : lc_t;
  block_num : Z;                              (* uint32_t *)
  response : option coap_packet_t
}.

(** The three [static] locals of the thread. *)
Record locals := {
  more : Z;                                   (* uint8_t *)
  res_block : Z;                              (* uint32_t *)
  block_error : Z                             (* uint8_t *)
}.

Inductive event :=
| EvSend (block : Z)                          (* coap_send_transaction, requesting [block] *)
| EvResponse (block : Z) (r : coap_packet_t). (* request_callback(state->response) *)

(** [coap_blocking_request_callback]: the transaction hands over the
    response (NULL when the retransmissions ran out) and polls the process. *)
Definition coap_blocking_request_callback (state : request_state_t)
    (r : option coap_packet_t) : request_state_t :=
  {| pt := pt state; block_num := block_num state; response := r |}.

Definition PT_INIT (state : request_state_t) : request_state_t :=
  {| pt := LC_BEGIN; block_num := block_num state; response := response state |}.

Section Engine.

(** From headers that are not among the sources. *)
Variable COAP_MAX_ATTEMPTS : Z.
Variable PROCESS_EVENT_POLL : Z.

(** From the top of the [do] loop to the yield.  [txn] tells whether
    [coap_new_transaction] returns a transaction. *)
Definition request_block (state : request_state_t) (lv : locals) (txn : bool)
    : request_state_t * locals * pt_result * list event :=
  if txn then
    ({| pt := LC_YIELD; block_num := block_num state;
        response := response state |},
     lv, PT_YIELDED, [EvSend (block_num state)])
  else
    (* Could not allocate transaction buffer *)
    (PT_INIT state, lv, PT_EXITED, []).

(** One call of the thread function with event [ev]. *)
Definition coap_blocking_request (state : request_state_t) (lv : locals)
    (ev : Z) (txn : bool)
    : request_state_t * locals * pt_result * list event :=
  match pt state with
  | LC_BEGIN =>
      request_block
        {| pt := LC_BEGIN; block_num := 0; response := None |}
        {| more := 0; res_block := 0; block_error := 0 |}
        txn
  | LC_YIELD =>
      if negb (ev =? PROCESS_EVENT_POLL) then (state, lv, PT_YIELDED, [])
      else
        match response state with
        | None =>
            (* Server not responding *)
            (PT_INIT state, lv, PT_EXITED, [])
        | Some r =>
            let '(res_block', more') :=
              coap_get_header_block2 r (res_block lv) (more lv) in
            let '(state', lv', evs) :=
              if res_block' =? block_num state then
                ({| pt := pt state;
                    block_num := (block_num state + 1) mod 2 ^ 32;
                    response := response state |},
                 {| more := more'; res_block := res_block';
                    block_error := block_error lv |},
                 [EvResponse (block_num state) r])
              else
                (state,
                 {| more := more'; res_block := res_block';
                    block_error := (block_error lv + 1) mod 2 ^ 8 |},
                 []) in
            if truthy (more lv') && (block_error lv' <? COAP_MAX_ATTEMPTS) then
              let '(state'', lv'', res, evs') := request_block state' lv' txn in
              (state'', lv'', res, evs ++ evs')
            else
              (PT_INIT state', lv', PT_ENDED, evs)
        end
  end.

(** What happens between two calls of the thread and at the next call: the
    transaction layer may hand over responses, then the scheduler calls the
    thread with an event; [new_transaction] is the outcome of
    [coap_new_transaction] should that call ask for one. *)
Record turn := {
  delivered : list (option coap_packet_t);
  ev : Z;
  new_transaction : bool
}.

(** The caller schedules the thread of one request until it has exited or
    ended, while the thread of no other request is called: the three static
    locals are then touched by this request alone.  [interleave] below is
    the general case. *)
Fixpoint schedule (turns : list turn) (state : request_state_t) (lv : locals)
    : pt_result * list event :=
  match turns with
  | [] => (PT_WAITING, [])
  | t :: rest =>
      let state := fold_left coap_blocking_request_callback (delivered t) state in
      let '(state', lv', res, evs) :=
        coap_blocking_request state lv (ev t) (new_transaction t) in
      match res with
      | PT_EXITED | PT_ENDED => (res, evs)
      | _ =>
          let '(res', evs') := schedule rest state' lv' in
          (res', evs ++ evs')
      end
  end.

(** A blocking request: the thread is initialised, then scheduled. *)
Definition blocking_request (turns : list turn) (state : request_state_t)
    (lv : locals) : pt_result * list event :=
  schedule turns (PT_INIT state) lv.

(** Several requests in flight.  Each request has a state of its own, which
    its caller owns; [more], [res_block] and [block_error] are static
    locals of the thread function and so are shared by all of them.  A call
    names the request whose thread is called. *)
Record call := {
  who : nat;
  what : turn
}.

(** A request is under way, or its thread has exited or ended and is not
    called again. *)
Inductive slot :=
| Running (state : request_state_t)
| Finished (res : pt_result).

Fixpoint set_nth {A} (l : list A) (i : nat) (x : A) : list A :=
  match l, i with
  | [], _ => []
  | _ :: t, O => x :: t
  | h :: t, S k => h :: set_nth t k x
  end.

(** The calls of an interleaved run, in order: the events of each call
    marked with its request, the requests and the statics at the end. *)
Fixpoint interleave (calls : list call) (slots : list slot) (lv : locals)
    : list (nat * event) * list slot * locals :=
  match calls with
  | [] => ([], slots, lv)
  | c :: rest =>
      match nth_error slots (who c) with
      | Some (Running state) =>
          let state :=
            fold_left coap_blocking_request_callback (delivered (what c))
              state in
          let '(state', lv', res, evs) :=
            coap_blocking_request state lv (ev (what c))
              (new_transaction (what c)) in
          let slot' :=
            match res with
            | PT_EXITED | PT_ENDED => Finished res
            | _ => Running state'
            end in
          let '(trace, slots', lv'') :=
            interleave rest (set_nth slots (who c) slot') lv' in
          (map (pair (who c)) evs ++ trace, slots', lv'')
      | _ => interleave rest slots lv
      end
  end.

(** The requests at the start: each thread initialised. *)
Definition requests (states : list request_state_t) : list slot :=
  map (fun state => Running (PT_INIT state)) states.

(** What request [i] did in a run, and how it stands at the end. *)
Definition events_of (i : nat) (trace : list (nat * event)) : list event :=
  map snd (filter (fun e => Nat.eqb (fst e) i) trace).

Definition result_of (i : nat) (slots : list slot) : pt_result :=
  match nth_error slots i with
  | Some (Finished res) => res
  | _ => PT_WAITING
  end.

Definition request_events (i : nat) (calls : list call)
    (states : list request_state_t) (lv : locals) : list event :=
  events_of i (fst (fst (interleave calls (requests states) lv))).

Definition request_result (i : nat) (calls : list call)
    (states : list request_state_t) (lv : locals) : pt_result :=
  result_of i (snd (fst (interleave calls (requests states) lv))).

(** The turns of request [i] as calls, and calls that are all for other
    requests. *)
Definition calls_of (i : nat) (turns : list turn) : list call :=
  map (fun t => {| who := i; what := t |}) turns.

Definition others (i : nat) (calls : list call) : Prop :=
  Forall (fun c => who c <> i) calls.

(** *** Properties *)

(** The block numbers the response callback was called for, in order. *)
Definition callbacks (evs : list event) : list Z :=
  flat_map (fun e => match e with EvResponse b _ => [b] | _ => [] end) evs.

(** [b; b+1; ...], [k] numbers. *)
Fixpoint count_from (b : Z) (k : nat) : list Z :=
  match k with
  | O => []
  | S k' => b :: count_from (b + 1) k'
  end.





Lemma callbacks_app evs evs' :
  callbacks (evs ++ evs') = callbacks evs ++ callbacks evs'.
Proof. unfold callbacks. apply flat_map_app. Qed.






Lemma callback_keeps_position state r :
  pt (coap_blocking_request_callback state r) = pt state
  /\ block_num (coap_blocking_request_callback state r) = block_num state.
Proof. split; reflexivity. Qed.






(** *** One request among several *)

Lemma nth_error_set_nth_same {A} (l : list A) : forall i x y,
  nth_error l i = Some y -> nth_error (set_nth l i x) i = Some x.
Proof.
  induction l as [|h t IH]; intros [|i] x y H; simpl in *;
    try discriminate; [reflexivity|].
  now apply (IH i x y).
Qed.

Lemma nth_error_set_nth_other {A} (l : list A) : forall i j x,
  i <> j -> nth_error (set_nth l i x) j = nth_error l j.
Proof.
  induction l as [|h t IH]; intros [|i] [|j] x H; simpl;
    try reflexivity; [now elim H|].
  apply IH. congruence.
Qed.

Lemma events_of_app i t1 t2 :
  events_of i (t1 ++ t2) = events_of i t1 ++ events_of i t2.
Proof. unfold events_of. now rewrite filter_app, map_app. Qed.

Lemma events_of_own i evs : events_of i (map (pair i) evs) = evs.
Proof.
  unfold events_of. induction evs as [|e evs IH]; simpl; [reflexivity|].
  rewrite Nat.eqb_refl. simpl. now rewrite IH.
Qed.

Lemma events_of_other i j evs : j <> i -> events_of i (map (pair j) evs) = [].
Proof.
  intros Hne. unfold events_of.
  induction evs as [|e evs IH]; simpl; [reflexivity|].
  now rewrite (proj2 (Nat.eqb_neq j i) Hne).
Qed.

Lemma interleave_app a : forall b slots lv,
  interleave (a ++ b) slots lv
  = let '(t1, s1, l1) := interleave a slots lv in
    let '(t2, s2, l2) := interleave b s1 l1 in
    (t1 ++ t2, s2, l2).
Proof.
  induction a as [|c a IH]; intros b slots lv; simpl.
  - now destruct (interleave b slots lv) as [[t2 s2] l2].
  - destruct (nth_error slots (who c)) as [[state|res]|]; try apply IH.
    destruct (coap_blocking_request _ lv _ _) as [[[state' lv'] res] evs].
    rewrite IH.
    destruct (interleave a _ lv') as [[t1 s1] l1].
    destruct (interleave b s1 l1) as [[t2 s2] l2].
    now rewrite app_assoc.
Qed.

(** Calls for other requests leave request [i] as it is, and nothing of
    what they do counts as done by [i]; the statics they may change. *)
Lemma interleave_others i calls : forall slots lv,
  others i calls ->
  events_of i (fst (fst (interleave calls slots lv))) = []
  /\ nth_error (snd (fst (interleave calls slots lv))) i = nth_error slots i.
Proof.
  induction calls as [|c calls IH]; intros slots lv Hall; simpl; [now split|].
  inversion Hall as [|? ? Hc Hrest]; subst.
  destruct (nth_error slots (who c)) as [[state|res]|]; try now apply IH.
  destruct (coap_blocking_request _ lv _ _) as [[[state' lv'] res] evs].
  match goal with
  | |- context [interleave calls ?s ?l] =>
      destruct (IH s l Hrest) as [He Hs];
      destruct (interleave calls s l) as [[trace slots'] lv'']
  end.
  simpl in *. rewrite events_of_app, (events_of_other i (who c) evs Hc), He.
  split; [reflexivity|]. rewrite Hs. now apply nth_error_set_nth_other.
Qed.

Lemma interleave_finished i turns : forall slots lv res,
  nth_error slots i = Some (Finished res) ->
  interleave (calls_of i turns) slots lv = ([], slots, lv).
Proof.
  induction turns as [|t turns IH]; intros slots lv res H; simpl;
    [reflexivity|].
  rewrite H. now apply (IH slots lv res).
Qed.

(** While only request [i] is called, its thread runs as [schedule] has
    it. *)
Lemma interleave_own i turns : forall state slots lv,
  nth_error slots i = Some (Running state) ->
  events_of i (fst (fst (interleave (calls_of i turns) slots lv)))
  = snd (schedule turns state lv)
  /\ result_of i (snd (fst (interleave (calls_of i turns) slots lv)))
     = fst (schedule turns state lv).
Proof.
  induction turns as [|t turns IH]; intros state slots lv Hslot; simpl.
  - unfold result_of. now rewrite Hslot.
  - rewrite Hslot.
    destruct (coap_blocking_request _ lv (ev t) (new_transaction t))
      as [[[state' lv'] res] evs].
    destruct res.
    + destruct (IH state' (set_nth slots i (Running state')) lv'
                  (nth_error_set_nth_same slots i _ _ Hslot)) as [He Hr].
      destruct (interleave (calls_of i turns) _ lv') as [[trace slots'] lv''].
      destruct (schedule turns state' lv') as [res' evs'].
      simpl in *. now rewrite events_of_app, events_of_own, He, Hr.
    + destruct (IH state' (set_nth slots i (Running state')) lv'
                  (nth_error_set_nth_same slots i _ _ Hslot)) as [He Hr].
      destruct (interleave (calls_of i turns) _ lv') as [[trace slots'] lv''].
      destruct (schedule turns state' lv') as [res' evs'].
      simpl in *. now rewrite events_of_app, events_of_own, He, Hr.
    + rewrite (interleave_finished i turns _ lv' PT_EXITED
                 (nth_error_set_nth_same slots i _ _ Hslot)).
      simpl. rewrite app_nil_r, events_of_own. unfold result_of.
      now rewrite (nth_error_set_nth_same slots i _ _ Hslot).
    + rewrite (interleave_finished i turns _ lv' PT_ENDED
                 (nth_error_set_nth_same slots i _ _ Hslot)).
      simpl. rewrite app_nil_r, events_of_own. unfold result_of.
      now rewrite (nth_error_set_nth_same slots i _ _ Hslot).
Qed.

(** A request that no other request is called in between, from its first
    call on, runs as a blocking request on its own does, from whatever the
    calls before it left in the statics. *)
Lemma interleave_alone i turns before after states lv state :
  nth_error states i = Some state ->
  others i before -> others i after ->
  exists lv1,
    request_events i (before ++ calls_of i turns ++ after) states lv
    = snd (blocking_request turns state lv1)
    /\ request_result i (before ++ calls_of i turns ++ after) states lv
       = fst (blocking_request turns state lv1).
Proof.
  intros Hstate Hbefore Hafter.
  assert (Hslot : nth_error (requests states) i = Some (Running (PT_INIT state))).
  { unfold requests. now rewrite nth_error_map, Hstate. }
  unfold request_events, request_result, blocking_request.
  rewrite interleave_app.
  destruct (interleave_others i before (requests states) lv Hbefore)
    as [He0 Hs0].
  destruct (interleave before (requests states) lv) as [[t0 s0] l0].
  simpl in He0, Hs0. rewrite Hslot in Hs0.
  rewrite interleave_app.
  destruct (interleave_own i turns (PT_INIT state) s0 l0 Hs0) as [He1 Hr1].
  destruct (interleave (calls_of i turns) s0 l0) as [[t1 s1] l1].
  simpl in He1, Hr1.
  destruct (interleave_others i after s1 l1 Hafter) as [He2 Hs2].
  destruct (interleave after s1 l1) as [[t2 s2] l2].
  simpl in He2, Hs2. exists l0. simpl.
  rewrite !events_of_app, He0, He1, He2, app_nil_r. split; [reflexivity|].
  unfold result_of in *. now rewrite Hs2.
Qed.

(** The first call, whatever event it is made with. *)
Definition start (e : Z) : turn :=
  {| delivered := []; ev := e; new_transaction := true |}.

(** The transaction hands over [r] and polls the process. *)
Definition answer (r : coap_packet_t) : turn :=
  {| delivered := [Some r]; ev := PROCESS_EVENT_POLL; new_transaction := true |}.



End Engine.

(** *** Worked example *)

(** The request engine with four attempts; the poll event has a number of
    its own. *)
Definition idle : request_state_t :=
  {| pt := LC_BEGIN; block_num := 0; response := None |}.

Definition cleared : locals :=
  {| more := 0; res_block := 0; block_error := 0 |}.

Definition request (turns : list turn) : pt_result * list event :=
  blocking_request 4 130 turns idle cleared.

Definition block (n m : Z) : coap_packet_t :=
  {| block2 := Some (n, m); payload := "" |}.

(** Two requests; a call of the first and a call of the second. *)
Definition first (t : turn) : call := {| who := 0; what := t |}.
Definition second (t : turn) : call := {| who := 1; what := t |}.

Definition events_of_first (calls : list call) : list event :=
  request_events 4 130 0 calls [idle; idle] cleared.

Definition result_of_first (calls : list call) : pt_result :=
  request_result 4 130 0 calls [idle; idle] cleared.



(** A response without a block option. *)
Definition plain : coap_packet_t := {| block2 := None; payload := "" |}.




(** A block that arrives twice is passed to the callback once. *)
Lemma repeated_block_is_skipped :
  request [start 0; answer 130 (block 0 1); answer 130 (block 0 1);
           answer 130 (block 1 0)]
  = (PT_ENDED,
     [EvSend 0; EvResponse 0 (block 0 1); EvSend 1; EvSend 1;
      EvResponse 1 (block 1 0)]).
Proof. reflexivity. Qed.

End BlockingApi.

(** ** rest-engine.c: registration and dispatch together *)

Module RestRegistry.
Import CString RestEngine.

Section Flags.

Variables METHOD_GET METHOD_POST METHOD_PUT METHOD_DELETE : Z.
Variables HAS_SUB_RESOURCES IS_OBSERVABLE IS_PERIODIC : Z.

Local Abbreviation invoke :=
  (rest_invoke_restful_service METHOD_GET METHOD_POST METHOD_PUT METHOD_DELETE
     HAS_SUB_RESOURCES IS_OBSERVABLE).
Local Abbreviation scan :=
  (scan_services METHOD_GET METHOD_POST METHOD_PUT METHOD_DELETE
     HAS_SUB_RESOURCES).
Local Abbreviation activate := (rest_activate_resource IS_PERIODIC).
Local Abbreviation matches := (url_matches HAS_SUB_RESOURCES).

(** An engine that holds just the given services. *)
Definition only (st : engine) (services : list resource_t) : engine :=
  {| restful_services := services;
     restful_periodic_services := [];
     is_initialized := is_initialized st |}.

Lemma invoke_by_services st st' request :
  restful_services st = restful_services st' ->
  invoke st request = invoke st' request.
Proof.
  intros H. unfold rest_invoke_restful_service. now rewrite H.
Qed.

Lemma scan_app_no_match l l' request :
  no_match HAS_SUB_RESOURCES l (req_url request) ->
  scan (l ++ l') request = scan l' request.
Proof.
  induction l as [|r l IH]; intros Hno; simpl; [reflexivity|].
  rewrite (Hno r (or_introl eq_refl)). apply IH.
  intros r' Hin. apply Hno. now right.
Qed.

Lemma scan_app_match l l' request r :
  In r l -> matches r (req_url request) = true ->
  scan (l ++ l') request = scan l request.
Proof.
  induction l as [|a l IH]; intros Hin Hm; simpl; [destruct Hin|].
  destruct (matches a (req_url request)) eqn:Ha; [reflexivity|].
  destruct Hin as [->|Hin]; [congruence|]. now apply IH.
Qed.

(** After a registration every linked entry that is the registered object
    carries the path. *)
Lemma activate_renames st resource p r :
  In r (restful_services (fst (activate st resource p))) ->
  self r = self resource -> url r = p.
Proof.
  rewrite rest_activate_resource_services. intros Hin Hself.
  apply in_app_or in Hin. destruct Hin as [Hin|[<-|[]]]; [|reflexivity].
  unfold write_url in Hin. apply in_map_iff in Hin.
  destruct Hin as (x & <- & _). revert Hself. unfold same_object.
  destruct (Nat.eqb_spec (self x) (self resource)) as [_|Hne];
    [reflexivity|].
  intros Hself. elim (Hne Hself).
Qed.

(** X1.  Registering a resource object that is not linked yet changes the
    answer to a request only when no resource registered before matches the
    request path and the new one does; then the request is answered as if
    the new resource were the only one.  In particular a registration under
    a path already served never takes the path over.  Registering an object
    again writes the path into the object that is linked: afterwards every
    entry that is this object carries the new path, whatever path it was
    registered under before. *)
Theorem registration_serves_only_unserved_paths :
  forall st resource p request,
    let st' := fst (activate st resource p) in
    let r' := set_url resource p in
    (forall r, In r (restful_services st') -> self r = self resource ->
               url r = p)
    /\ (not_linked (restful_services st) resource ->
        restful_services st' = restful_services st ++ [r']
        /\ (forall r, In r (restful_services st) ->
                      matches r (req_url request) = true ->
                      invoke st' request = invoke st request)
        /\ (matches r' (req_url request) = false ->
            invoke st' request = invoke st request)
        /\ (no_match HAS_SUB_RESOURCES (restful_services st)
              (req_url request) ->
            matches r' (req_url request) = true ->
            invoke st' request = invoke (only st [r'] ) request)).
Proof.
  intros st resource p request st' r'. unfold st', r'.
  split; [intros r; apply activate_renames|].
  intros Hfresh.
  assert (Hs : restful_services (fst (activate st resource p))
               = restful_services st ++ [set_url resource p])
    by now rewrite rest_activate_resource_services, write_url_not_linked.
  split; [exact Hs|]. split; [|split].
  - intros r Hin Hm. unfold rest_invoke_restful_service.
    rewrite Hs. now rewrite (scan_app_match _ _ _ r Hin Hm).
  - intros Hm.
    destruct (match_cases HAS_SUB_RESOURCES (restful_services st)
                (req_url request)) as [Hno|[r (b & a & Hb & _ & Hr)]].
    + unfold rest_invoke_restful_service. rewrite Hs.
      rewrite (scan_app_no_match _ _ _ Hno).
      rewrite (scan_services_no_match _ _ _ _ _ _ _ Hno).
      simpl. now rewrite Hm.
    + unfold rest_invoke_restful_service. rewrite Hs.
      rewrite (scan_app_match _ _ _ r); auto.
      rewrite Hb. apply in_or_app. right. now left.
  - intros Hno Hm. unfold rest_invoke_restful_service.
    rewrite Hs. now rewrite (scan_app_no_match _ _ _ Hno).
Qed.

(** X2.  A resource is given a timer at registration exactly when it is flagged
    periodic and has a descriptor with a handler and a non-zero period; the
    timer carries the resource as registered.  When that timer expires on an
    initialised engine, the handler is called and the timer re-armed with
    the period it was armed with. *)
Theorem periodic_registration_then_expiry :
  forall st resource p,
    let r' := set_url resource p in
    (forall q h st'',
        periodic resource = Some q ->
        Z.land (flags resource) IS_PERIODIC <> 0 ->
        periodic_handler q = Some h ->
        period q <> 0 ->
        is_initialized st'' <> 0 ->
        snd (activate st resource p)
        = [EvTimerSetCallback (periodic_timer q);
           EvTimerSetUserData (periodic_timer q) r';
           EvTimerSet (periodic_timer q) (period q)]
        /\ restful_periodic_services (fst (activate st resource p))
           = restful_periodic_services st ++ [q]
        /\ process_callback IS_PERIODIC st''
             {| timer_id := periodic_timer q; user_data := Some r' |}
           = [EvPeriodicHandler h; EvTimerSet (periodic_timer q) (period q)])
    /\ (snd (activate st resource p) <> []
        \/ restful_periodic_services (fst (activate st resource p))
           <> restful_periodic_services st ->
        exists q h,
          periodic resource = Some q
          /\ Z.land (flags resource) IS_PERIODIC <> 0
          /\ periodic_handler q = Some h
          /\ period q <> 0).
Proof.
  intros st resource p r'. unfold r'. split.
  - intros q h st'' Hq Hf Hh Hp Hi.
    unfold rest_activate_resource, process_callback. simpl.
    rewrite (proj2 (truthy_true _) Hf), Hq, Hh, (proj2 (truthy_true _) Hp),
      (proj2 (truthy_true _) Hi).
    simpl. repeat split.
  - unfold rest_activate_resource. simpl.
    destruct (truthy (Z.land (flags resource) IS_PERIODIC)) eqn:Hf;
      [|simpl; intros [H|H]; now elim H].
    destruct (periodic resource) as [q|]; [|simpl; intros [H|H]; now elim H].
    destruct (periodic_handler q) as [h|] eqn:Hh;
      [|simpl; intros [H|H]; now elim H].
    destruct (truthy (period q)) eqn:Hp; [|simpl; intros [H|H]; now elim H].
    intros _. exists q, h. repeat split; auto; now apply truthy_true.
Qed.

(** X3.  Resources registered before the engine is first initialised are lost:
    the initialisation empties both lists, and every request is then
    answered Not-Found. *)
Theorem registration_before_init_is_lost :
  forall st acts request,
    is_initialized st = 0 ->
    let st1 := fst (rest_init_engine (activate_all IS_PERIODIC st acts)) in
    restful_services st1 = []
    /\ restful_periodic_services st1 = []
    /\ invoke st1 request = (0, [EvSetResponseStatus NOT_FOUND]).
Proof.
  intros st acts request Hi st1.
  assert (Hst1 : st1 = {| restful_services := [];
                          restful_periodic_services := [];
                          is_initialized := 1 |}).
  { unfold st1, rest_init_engine.
    rewrite activate_all_keeps_flag, Hi. reflexivity. }
  rewrite Hst1. repeat split.
Qed.

End Flags.

(** *** Worked examples *)

Lemma registration_serves_only_unserved_paths_example :
  dispatch (fst (rest_activate_resource bit_IS_PERIODIC (running [res_a])
                   res_a_post "a")) post_a
  = dispatch (running [res_a]) post_a
  /\ dispatch (fst (rest_activate_resource bit_IS_PERIODIC (running [res_a])
                      res_a_b "a/b")) get_a_b
     = (1, [EvHandler 2%nat]).
Proof.
  pose proof (registration_serves_only_unserved_paths bit_GET bit_POST bit_PUT
                bit_DELETE bit_HAS_SUB_RESOURCES bit_IS_OBSERVABLE
                bit_IS_PERIODIC) as H.
  split.
  - apply (proj1 (proj2 (proj2 (H (running [res_a]) res_a_post "a"%string
                                  post_a)
                           ltac:(intros r [<-|[]]; discriminate))) res_a).
    + now left.
    + reflexivity.
  - apply (proj2 (proj2 (proj2 (proj2 (H (running [res_a]) res_a_b
                                         "a/b"%string get_a_b)
                                  ltac:(intros r [<-|[]]; discriminate))))).
    + intros r [<-|[]]. reflexivity.
    + reflexivity.
Defined.

(** The object registered under "a" is registered again under "b": the
    linked object is renamed, and a request for "a" that was served before
    is now answered Not-Found. *)
Lemma second_registration_renames_the_resource :
  dispatch (running [res_a]) get_a = (1, [EvHandler 1%nat])
  /\ dispatch (fst (rest_activate_resource bit_IS_PERIODIC (running [res_a])
                      res_a "b")) get_a
     = (0, [EvSetResponseStatus NOT_FOUND]).
Proof. repeat split. Qed.

Lemma periodic_registration_then_expiry_example :
  snd (rest_activate_resource bit_IS_PERIODIC (running [])
         (res_periodic tick_some) "tick")
  = [EvTimerSetCallback 4%nat;
     EvTimerSetUserData 4%nat (res_periodic tick_some);
     EvTimerSet 4%nat 10]
  /\ restful_periodic_services
       (fst (rest_activate_resource bit_IS_PERIODIC (running [])
               (res_periodic tick_some) "tick")) = [] ++ [tick_some]
  /\ process_callback bit_IS_PERIODIC (running [])
       {| timer_id := 4%nat; user_data := Some (res_periodic tick_some) |}
     = [EvPeriodicHandler 7%nat; EvTimerSet 4%nat 10].
Proof.
  apply (proj1 (periodic_registration_then_expiry bit_IS_PERIODIC (running [])
                  (res_periodic tick_some) "tick"%string)
           tick_some 7%nat (running []));
    (reflexivity || discriminate).
Defined.

Lemma registration_before_init_is_lost_example :
  restful_services
    (fst (rest_init_engine
            (activate_all bit_IS_PERIODIC
               {| restful_services := []; restful_periodic_services := [];
                  is_initialized := 0 |} [(res_a, "a"%string)]))) = []
  /\ restful_periodic_services
       (fst (rest_init_engine
               (activate_all bit_IS_PERIODIC
                  {| restful_services := []; restful_periodic_services := [];
                     is_initialized := 0 |} [(res_a, "a"%string)]))) = []
  /\ dispatch
       (fst (rest_init_engine
               (activate_all bit_IS_PERIODIC
                  {| restful_services := []; restful_periodic_services := [];
                     is_initialized := 0 |} [(res_a, "a"%string)]))) get_a
     = (0, [EvSetResponseStatus NOT_FOUND]).
Proof.
  apply (registration_before_init_is_lost bit_GET bit_POST bit_PUT bit_DELETE
           bit_HAS_SUB_RESOURCES bit_IS_OBSERVABLE bit_IS_PERIODIC
           {| restful_services := []; restful_periodic_services := [];
              is_initialized := 0 |} [(res_a, "a"%string)] get_a).
  reflexivity.
Defined.

End RestRegistry.

(** ** The uIP transport: what its helpers compute *)

Module TransportFacts.
Import CString Transport.

(** *** Endpoint comparison *)

Lemma uip_ipaddr_cmp_eq a : forall b, uip_ipaddr_cmp a b = true <-> a = b.
Proof.
  induction a as [|x a IH]; intros [|y b]; simpl; split; intros H;
    try discriminate; try reflexivity.
  - apply andb_true_iff in H. destruct H as [Hx Hab].
    apply Z.eqb_eq in Hx. apply IH in Hab. congruence.
  - injection H as -> ->. rewrite Z.eqb_refl. simpl. now apply IH.
Qed.

(** X4.  [coap_endpoint_cmp] answers 1 for two endpoints with the same address,
    port and secure flag and 0 for any other pair, in either order of its
    arguments; the flag is compared as a number, so two secure endpoints
    whose flags are different non-zero values are unequal.  A copy compares
    equal to its source. *)
Theorem coap_endpoint_cmp_is_equality :
  forall e1 e2,
    (e1 = e2 -> coap_endpoint_cmp e1 e2 = 1)
    /\ (e1 <> e2 -> coap_endpoint_cmp e1 e2 = 0)
    /\ coap_endpoint_cmp e1 e2 = coap_endpoint_cmp e2 e1
    /\ coap_endpoint_cmp (coap_endpoint_copy e1 e2) e2 = 1.
Proof.
  assert (Hrefl : forall e, coap_endpoint_cmp e e = 1).
  { intros e. unfold coap_endpoint_cmp.
    rewrite (proj2 (uip_ipaddr_cmp_eq _ _) eq_refl), !Z.eqb_refl.
    reflexivity. }
  assert (Hneq : forall e1 e2, e1 <> e2 -> coap_endpoint_cmp e1 e2 = 0).
  { intros [a1 p1 s1] [a2 p2 s2] Hne. unfold coap_endpoint_cmp. simpl.
    destruct (uip_ipaddr_cmp a1 a2) eqn:Ha; [|reflexivity]. simpl.
    apply uip_ipaddr_cmp_eq in Ha.
    destruct (Z.eqb_spec p1 p2) as [Hp|Hp]; [|reflexivity].
    destruct (Z.eqb_spec s1 s2) as [Hs|Hs]; [|reflexivity].
    exfalso. apply Hne. congruence. }
  intros e1 e2. split; [|split; [|split]].
  - intros ->. apply Hrefl.
  - apply Hneq.
  - destruct e1 as [a1 p1 s1], e2 as [a2 p2 s2].
    destruct (list_eq_dec Z.eq_dec a1 a2) as [Ha|Ha];
      [destruct (Z.eq_dec p1 p2) as [Hp|Hp];
       [destruct (Z.eq_dec s1 s2) as [Hs|Hs]|]|].
    + subst. now rewrite Hrefl.
    + rewrite !Hneq; congruence.
    + rewrite !Hneq; congruence.
    + rewrite !Hneq; congruence.
  - destruct e2 as [a p s]. apply Hrefl.
Qed.

(** *** Searching a character *)

Lemma uchar_range c : 0 <= uchar c < 256.
Proof.
  unfold uchar. pose proof (N_ascii_bounded c) as H. lia.
Qed.

(** What [data[offset] == c] compares.  An unsigned plain [char], or a [c]
    below 128, makes it the equality of bytes; a signed plain [char] never
    equals a [c] of 128 or more. *)
Lemma plain_char_eq signed ch c :
  (signed = false \/ uchar c < 128 ->
   (plain_char signed ch = uchar c <-> ch = c))
  /\ (signed = true -> 128 <= uchar c -> plain_char signed ch <> uchar c).
Proof.
  pose proof (uchar_range ch) as Hch. pose proof (uchar_range c) as Hc.
  unfold plain_char. split.
  - intros Hcase. split.
    + intros H. apply uchar_inj.
      destruct signed; simpl in H; [|exact H].
      destruct (Z.ltb_spec 127 (uchar ch)); [|exact H].
      destruct Hcase as [Hs|Hlow]; [discriminate|lia].
    + intros ->. destruct signed; simpl; [|reflexivity].
      destruct (Z.ltb_spec 127 (uchar c)); [|reflexivity].
      destruct Hcase as [Hs|Hlow]; [discriminate|lia].
  - intros -> Hhigh. simpl.
    destruct (Z.ltb_spec 127 (uchar ch)); lia.
Qed.

Lemma index_of_loop_spec signed data c n : forall offset,
  0 <= offset ->
  let r := index_of_loop signed data c offset n in
  (r = -1 /\ forall i, offset <= i < offset + Z.of_nat n ->
                       plain_char signed (char_at data i) <> uchar c)
  \/ (offset <= r < offset + Z.of_nat n
      /\ plain_char signed (char_at data r) = uchar c
      /\ forall i, offset <= i < r ->
                   plain_char signed (char_at data i) <> uchar c).
Proof.
  induction n as [|n IH]; intros offset Hoff; cbn zeta.
  - left. split; [reflexivity|]. intros i Hi. lia.
  - cbn [index_of_loop].
    destruct (Z.eqb_spec (plain_char signed (char_at data offset)) (uchar c))
      as [Heq|Hne].
    + right. split; [lia|]. split; [assumption|]. intros i Hi. lia.
    + destruct (IH (offset + 1)) as [[Hr Hall]|(Hr & Hc & Hall)]; [lia| |].
      * left. split; [exact Hr|]. intros i Hi.
        destruct (Z.eq_dec i offset) as [->|Hio]; [assumption|].
        apply Hall. lia.
      * right. split; [lia|]. split; [assumption|]. intros i Hi.
        destruct (Z.eq_dec i offset) as [->|Hio]; [assumption|].
        apply Hall. lia.
Qed.

(** X5.  [index_of] returns the first position at or after [offset] and
    before [len] whose character compares equal to [c], -1 when there is
    none, and a negative [offset] unchanged (so that a failed search can be
    chained).  The comparison is between a plain [char] and a [uint8_t]:
    where plain [char] is unsigned, or [c] is below 128, the position found
    is the first that holds the byte [c]; where plain [char] is signed and
    [c] is 128 or more, no position compares equal and the search returns
    -1 even if the byte is there. *)
Theorem index_of_finds_first_occurrence :
  forall signed data offset len c,
    let r := index_of signed data offset len c in
    (offset < 0 -> r = offset)
    /\ (0 <= offset ->
        (r = -1 /\ forall i, offset <= i < len ->
                             plain_char signed (char_at data i) <> uchar c)
        \/ (offset <= r < len
            /\ plain_char signed (char_at data r) = uchar c
            /\ forall i, offset <= i < r ->
                         plain_char signed (char_at data i) <> uchar c))
    /\ (signed = false \/ uchar c < 128 ->
        0 <= offset ->
        (r = -1 /\ forall i, offset <= i < len -> char_at data i <> c)
        \/ (offset <= r < len
            /\ char_at data r = c
            /\ forall i, offset <= i < r -> char_at data i <> c))
    /\ (signed = true -> 128 <= uchar c -> 0 <= offset -> r = -1).
Proof.
  intros signed data offset len c r.
  assert (Hsearch :
    0 <= offset ->
    (r = -1 /\ forall i, offset <= i < len ->
                         plain_char signed (char_at data i) <> uchar c)
    \/ (offset <= r < len
        /\ plain_char signed (char_at data r) = uchar c
        /\ forall i, offset <= i < r ->
                     plain_char signed (char_at data i) <> uchar c)).
  { intros H. unfold r, index_of. rewrite (proj2 (Z.ltb_ge _ _) H).
    destruct (index_of_loop_spec signed data c (Z.to_nat (len - offset))
                offset H) as [[Hr Hall]|(Hr & Hc & Hall)].
    - left. split; [exact Hr|]. intros i Hi. apply Hall. lia.
    - right. split; [lia|]. split; assumption. }
  split; [|split; [exact Hsearch|split]].
  - intros H. unfold r, index_of. now rewrite (proj2 (Z.ltb_lt _ _) H).
  - intros Hcase Hoff.
    assert (Heq : forall ch, plain_char signed ch = uchar c <-> ch = c)
      by (intros ch; now apply plain_char_eq).
    destruct (Hsearch Hoff) as [[Hr Hall]|(Hr & Hc & Hall)].
    + left. split; [exact Hr|]. intros i Hi Hci.
      apply (Hall i Hi). now apply Heq.
    + right. split; [exact Hr|]. split; [now apply Heq|].
      intros i Hi Hci. apply (Hall i Hi). now apply Heq.
  - intros Hs Hhigh Hoff.
    destruct (Hsearch Hoff) as [[Hr _]|(_ & Hc & _)]; [exact Hr|].
    exfalso. revert Hc. now apply plain_char_eq.
Qed.

(** *** Reading a port number *)

Lemma char_at_0 c s : char_at (String c s) 0 = c.
Proof. reflexivity. Qed.

Lemma char_at_succ c s k : 0 <= k -> char_at (String c s) (k + 1) = char_at s k.
Proof.
  intros Hk. unfold char_at.
  destruct (Z.ltb_spec (k + 1) 0); [lia|].
  destruct (Z.ltb_spec k 0); [lia|].
  replace (Z.to_nat (k + 1)) with (S (Z.to_nat k)) by lia. reflexivity.
Qed.

Lemma char_at_empty k : char_at EmptyString k = NUL.
Proof.
  unfold char_at. destruct (k <? 0); [reflexivity|].
  now destruct (Z.to_nat k).
Qed.

Lemma hd_char_at a : hd a = char_at a 0.
Proof. now destruct a. Qed.

Lemma char_at_tl a k : 0 <= k -> char_at (tl a) k = char_at a (k + 1).
Proof.
  intros Hk. destruct a as [|c r]; simpl.
  - now rewrite !char_at_empty.
  - now rewrite char_at_succ.
Qed.

Lemma get_port_loop_spec inbuf len : forall i0 v0,
  0 <= v0 < 2 ^ 32 ->
  let r := get_port_loop inbuf len i0 v0 in
  i0 <= fst r
  /\ (i0 <= len -> fst r <= len)
  /\ fst r - i0 <= Z.of_nat (String.length inbuf)
  /\ (forall k, 0 <= k < fst r - i0 -> is_digit (char_at inbuf k) = true)
  /\ (fst r < len -> is_digit (char_at inbuf (fst r - i0)) = false)
  /\ 0 <= snd r < 2 ^ 32
  /\ (fst r = i0 -> snd r = v0).
Proof.
  induction inbuf as [|ch rest IH]; intros i0 v0 Hv; cbn zeta.
  - assert (Hr : get_port_loop EmptyString len i0 v0 = (i0, v0))
      by (simpl; now destruct (i0 <? len)).
    rewrite Hr. simpl. repeat split; try lia.
    + intros _. replace (i0 - i0) with 0 by lia. reflexivity.
  - cbn [get_port_loop].
    destruct (Z.ltb_spec i0 len) as [Hlt|Hge].
    + destruct (is_digit ch) eqn:Hd.
      * pose proof (Z.mod_pos_bound (v0 * 10 + (uchar ch - uchar "0")) (2 ^ 32))
          as Hm.
        destruct (IH (i0 + 1)
                    ((v0 * 10 + (uchar ch - uchar "0")) mod 2 ^ 32))
          as (H1 & H2 & H3 & H4 & H5 & H6 & H7); [lia|].
        set (r := get_port_loop rest len (i0 + 1) _) in *.
        cbn [String.length]. repeat split; try lia.
        -- intros k Hk. destruct (Z.eq_dec k 0) as [->|Hk0]; [exact Hd|].
           replace k with ((k - 1) + 1) by lia.
           rewrite char_at_succ by lia. apply H4. lia.
        -- intros Hl. replace (fst r - i0) with ((fst r - (i0 + 1)) + 1) by lia.
           rewrite char_at_succ by lia. now apply H5.
      * simpl. repeat split; try lia.
        intros _. replace (i0 - i0) with 0 by lia. exact Hd.
    + simpl. repeat split; try lia.
Qed.

(** The number that the first [n] characters of [s] write in decimal, most
    significant digit first. *)
Fixpoint decimal (s : string) (n : nat) : Z :=
  match n with
  | O => 0
  | S k => (uchar (hd s) - uchar "0") * 10 ^ Z.of_nat k + decimal (tl s) k
  end.

Lemma decimal_bound s : forall n,
  (forall k, 0 <= k < Z.of_nat n -> is_digit (char_at s k) = true) ->
  0 <= decimal s n < 10 ^ Z.of_nat n.
Proof.
  revert s. intros s n. revert s.
  induction n as [|n IH]; intros s Hd; cbn [decimal]; [simpl; lia|].
  assert (H0 : is_digit (hd s) = true).
  { rewrite hd_char_at. apply Hd. lia. }
  unfold is_digit in H0. apply andb_true_iff in H0.
  destruct H0 as [Hlo Hhi]. apply Z.leb_le in Hlo, Hhi.
  assert (Hgap : uchar "9" - uchar "0" = 9) by reflexivity.
  assert (Ht : 0 <= decimal (tl s) n < 10 ^ Z.of_nat n).
  { apply IH. intros k Hk. rewrite char_at_tl by lia. apply Hd. lia. }
  replace (Z.of_nat (S n)) with (Z.of_nat n + 1) by lia.
  rewrite Z.pow_add_r, Z.pow_1_r by lia.
  nia.
Qed.

Lemma get_port_loop_value inbuf len : forall i0 v0,
  0 <= v0 < 2 ^ 32 ->
  let r := get_port_loop inbuf len i0 v0 in
  snd r = (v0 * 10 ^ (fst r - i0) + decimal inbuf (Z.to_nat (fst r - i0)))
          mod 2 ^ 32.
Proof.
  induction inbuf as [|ch rest IH]; intros i0 v0 Hv; cbn zeta.
  - assert (Hr : get_port_loop EmptyString len i0 v0 = (i0, v0))
      by (simpl; now destruct (i0 <? len)).
    rewrite Hr. cbn [fst snd]. rewrite Z.sub_diag. cbn [Z.to_nat decimal].
    rewrite Z.pow_0_r, Z.mul_1_r, Z.add_0_r. symmetry. now apply Z.mod_small.
  - cbn [get_port_loop].
    assert (Hstop : snd (i0, v0)
                    = (v0 * 10 ^ (fst (i0, v0) - i0)
                       + decimal (String ch rest)
                           (Z.to_nat (fst (i0, v0) - i0))) mod 2 ^ 32).
    { cbn [fst snd]. rewrite Z.sub_diag. cbn [Z.to_nat decimal].
      rewrite Z.pow_0_r, Z.mul_1_r, Z.add_0_r. symmetry.
      now apply Z.mod_small. }
    destruct (i0 <? len); [|exact Hstop].
    destruct (is_digit ch); [|exact Hstop].
    pose proof (Z.mod_pos_bound (v0 * 10 + (uchar ch - uchar "0")) (2 ^ 32))
      as Hm.
    specialize (IH (i0 + 1) ((v0 * 10 + (uchar ch - uchar "0")) mod 2 ^ 32)
                  ltac:(lia)).
    destruct (get_port_loop_spec rest len (i0 + 1)
                ((v0 * 10 + (uchar ch - uchar "0")) mod 2 ^ 32) ltac:(lia))
      as (Hge & _).
    cbn zeta in IH.
    set (r := get_port_loop rest len (i0 + 1) _) in *.
    rewrite IH.
    set (k := fst r - (i0 + 1)) in *.
    replace (fst r - i0) with (k + 1) by (unfold k; lia).
    replace (Z.to_nat (k + 1)) with (S (Z.to_nat k)) by (unfold k; lia).
    cbn [decimal hd tl].
    rewrite Z2Nat.id by (unfold k; lia).
    rewrite Z.pow_add_r, Z.pow_1_r by (unfold k; lia).
    rewrite <- Zplus_mod_idemp_l, Zmult_mod_idemp_l, Zplus_mod_idemp_l.
    f_equal. ring.
Qed.

(** X6.  [get_port] counts the decimal digits at the start of the buffer, at
    most [len] of them: everything before the returned index is a digit,
    and the character at the index, when it lies before [len], is not.  The
    value read is the number these digits write in decimal, reduced modulo
    2^32 (it is a [uint32_t]): the number itself when there are at most
    nine digits, and 0 when no digit was read. *)
Theorem get_port_reads_leading_digits :
  forall inbuf len,
    let r := get_port inbuf len in
    0 <= fst r
    /\ (0 <= len -> fst r <= len)
    /\ fst r <= Z.of_nat (String.length inbuf)
    /\ (forall k, 0 <= k < fst r -> is_digit (char_at inbuf k) = true)
    /\ (fst r < len -> is_digit (char_at inbuf (fst r)) = false)
    /\ snd r = decimal inbuf (Z.to_nat (fst r)) mod 2 ^ 32
    /\ (fst r <= 9 -> snd r = decimal inbuf (Z.to_nat (fst r)))
    /\ 0 <= snd r < 2 ^ 32
    /\ (fst r = 0 -> snd r = 0).
Proof.
  intros inbuf len r. unfold r, get_port.
  destruct (get_port_loop_spec inbuf len 0 0) as (H1 & H2 & H3 & H4 & H5 & H6 & H7);
    [lia|].
  pose proof (get_port_loop_value inbuf len 0 0 ltac:(lia)) as Hval.
  cbn zeta in Hval.
  rewrite Z.sub_0_r in *. rewrite Z.mul_0_l, Z.add_0_l in Hval.
  split; [lia|]. split; [exact H2|]. split; [exact H3|]. split; [exact H4|].
  split; [exact H5|]. split; [exact Hval|]. split; [|split; [exact H6|exact H7]].
  intros Hnine. rewrite Hval. apply Z.mod_small.
  pose proof (decimal_bound inbuf (Z.to_nat (fst (get_port_loop inbuf len 0 0))))
    as Hb.
  rewrite Z2Nat.id in Hb by lia. specialize (Hb H4).
  assert (Hpow : 10 ^ fst (get_port_loop inbuf len 0 0) <= 10 ^ 9)
    by (apply Z.pow_le_mono_r; lia).
  assert (H109 : 10 ^ 9 < 2 ^ 32) by reflexivity.
  lia.
Qed.

(** *** Parsing an endpoint *)

Section ParseFacts.

Variable UIP_HTONS : Z -> Z.
Variables COAP_DEFAULT_PORT COAP_DEFAULT_SECURE_PORT : Z.
Variable SIZE_MAX : Z.
Variable uiplib_ipaddrconv : string -> uip_ipaddr_t -> Z * uip_ipaddr_t.
Variable char_is_signed : bool.

Local Abbreviation parse_with :=
  (coap_endpoint_parse UIP_HTONS COAP_DEFAULT_PORT COAP_DEFAULT_SECURE_PORT
     SIZE_MAX uiplib_ipaddrconv char_is_signed).

(** X7.  [coap_endpoint_parse] returns 0 or 1.  When it returns 0 the port and
    the secure flag of the endpoint are as before the call (the address may
    have been written).  When it returns 1 the flag is 0, 1, or what it was
    before.  For a text without a '[' after its first character (a bare
    address, or a bracket at the very start) the outcome does not depend on
    the text at all: the bracket branch is skipped and the address
    conversion is handed the address of the parameter instead of the text. *)
Theorem parse_outcomes :
  forall text text_var size ep,
    let r := parse_with text text_var size ep in
    (fst r = 0 \/ fst r = 1)
    /\ (fst r = 0 ->
        port (snd r) = port ep /\ secure (snd r) = secure ep)
    /\ (fst r = 1 ->
        secure (snd r) = 0 \/ secure (snd r) = 1
        \/ secure (snd r) = secure ep)
    /\ (forall text' size',
          index_of char_is_signed text 0 size "[" <= 0 ->
          index_of char_is_signed text' 0 size' "[" <= 0 ->
          parse_with text text_var size ep
          = parse_with text' text_var size' ep).
Proof.
  intros text text_var size ep r. unfold r. split; [|split; [|split]].
  - unfold coap_endpoint_parse.
    destruct (_ && _); [destruct (uiplib_ipaddrconv _ _) as [c a]|];
      try (destruct (truthy c));
      repeat match goal with
             | |- context [let '(_, _) := ?x in _] => destruct x
             | |- context [if ?b then _ else _] => destruct b
             end; simpl; auto.
  - unfold coap_endpoint_parse.
    destruct (_ && _); [destruct (uiplib_ipaddrconv _ _) as [c a]|];
      try (destruct (truthy c));
      repeat match goal with
             | |- context [let '(_, _) := ?x in _] => destruct x
             | |- context [if ?b then _ else _] => destruct b
             end; simpl; auto; discriminate.
  - unfold coap_endpoint_parse.
    destruct (_ && _); [destruct (uiplib_ipaddrconv _ _) as [c a]|];
      try (destruct (truthy c));
      repeat match goal with
             | |- context [let '(_, _) := ?x in _] => destruct x
             | |- context [if ?b then _ else _] => destruct b
             end; simpl; auto.
  - intros text' size' H H'. unfold coap_endpoint_parse.
    rewrite (Z.gtb_ltb (index_of char_is_signed text 0 size "[")),
      (proj2 (Z.ltb_ge _ _) H).
    rewrite (Z.gtb_ltb (index_of char_is_signed text' 0 size' "[")),
      (proj2 (Z.ltb_ge _ _) H').
    reflexivity.
Qed.

End ParseFacts.

(** *** The default keystore *)

(** [memcmp] is 0 exactly when the first [n] bytes agree. *)
Lemma memcmp_0 n : forall a b,
  memcmp a b n = 0 <->
  forall i, 0 <= i < Z.of_nat n -> char_at a i = char_at b i.
Proof.
  induction n as [|n IH]; intros a b; cbn [memcmp].
  - split; [intros _ i Hi; lia|reflexivity].
  - rewrite !hd_char_at.
    destruct (Ascii.eqb_spec (char_at a 0) (char_at b 0)) as [Heq|Hne].
    + rewrite IH. split.
      * intros H i Hi. destruct (Z.eq_dec i 0) as [->|Hi0]; [assumption|].
        replace i with ((i - 1) + 1) by lia.
        rewrite <- !char_at_tl by lia. apply H. lia.
      * intros H i Hi. rewrite !char_at_tl by lia. apply H. lia.
    + split.
      * intros H. exfalso. apply Hne, uchar_inj. lia.
      * intros H. exfalso. apply Hne, H. lia.
Qed.

Section DefaultKey.

Variable dtls_alert_fatal_create : dtls_alert_t -> Z.
Variables PSK_DEFAULT_IDENTITY PSK_DEFAULT_KEY : string.

(** The request names the default identity: same length, same bytes. *)
Definition names_default_identity (id : option string) (id_len : Z) : Prop :=
  id_len = Z.of_nat (strlen PSK_DEFAULT_IDENTITY)
  /\ id_len <> 0
  /\ exists bytes,
       id = Some bytes
       /\ forall i, 0 <= i < id_len ->
                    char_at bytes i = char_at PSK_DEFAULT_IDENTITY i.

(** X8.  With no keystore registered and the default pair compiled in, a key
    request is answered with the default key only when it names the default
    identity, byte for byte; any other identity (or none) gets the
    illegal-parameter alert and the result buffer is left alone. *)
Theorem default_key_only_for_default_identity :
  forall session id id_len result result_length,
    let r :=
      get_psk_info (Some (PSK_DEFAULT_IDENTITY, PSK_DEFAULT_KEY))
        dtls_alert_fatal_create None session DTLS_PSK_KEY id id_len
        result result_length in
    (names_default_identity id id_len ->
     strlen PSK_DEFAULT_KEY <> O ->
     Z.of_nat (strlen PSK_DEFAULT_KEY) <= result_length ->
     r = (Z.of_nat (strlen PSK_DEFAULT_KEY),
          memcpy result PSK_DEFAULT_KEY (strlen PSK_DEFAULT_KEY)))
    /\ (~ names_default_identity id id_len ->
        r = (dtls_alert_fatal_create DTLS_ALERT_ILLEGAL_PARAMETER, result)).
Proof.
  intros session id id_len result result_length r. unfold r.
  unfold get_psk_info, select_keystore, default_key_store. cbn [coap_get_psk_info].
  unfold consult, get_default_psk_info, key_request.
  cbn [identity identity_len set_identity zeroed snd].
  split.
  - intros (Hlen & Hn0 & bytes & -> & Hbytes) Hk Hfit.
    cbn [is_null bytes_at orb].
    rewrite (proj2 (Z.eqb_neq _ _) Hn0).
    rewrite (proj2 (Z.eqb_eq _ _) Hlen). cbn [negb orb].
    assert (Hm : memcmp bytes PSK_DEFAULT_IDENTITY (Z.to_nat id_len) = 0).
    { apply memcmp_0. intros i Hi. apply Hbytes. lia. }
    rewrite Hm. cbn. 
    destruct (Z.eqb_spec (Z.of_nat (strlen PSK_DEFAULT_KEY)) 0); [lia|].
    destruct (Z.ltb_spec result_length (Z.of_nat (strlen PSK_DEFAULT_KEY)));
      [lia|].
    now rewrite Nat2Z.id.
  - intros Hnot.
    destruct id as [bytes|]; cbn [is_null bytes_at orb]; [|reflexivity].
    destruct (Z.eqb_spec id_len 0) as [H0|H0]; [reflexivity|].
    destruct (Z.eqb_spec id_len (Z.of_nat (strlen PSK_DEFAULT_IDENTITY)))
      as [Hl|Hl]; cbn [negb orb]; [|reflexivity].
    destruct (Z.eqb_spec (memcmp bytes PSK_DEFAULT_IDENTITY (Z.to_nat id_len)) 0)
      as [Hm|Hm]; cbn [negb]; [|reflexivity].
    exfalso. apply Hnot. repeat split; auto. exists bytes. split; [reflexivity|].
    intros i Hi. apply (proj1 (memcmp_0 _ _ _) Hm). lia.
Qed.

End DefaultKey.

(** *** Worked examples *)

Lemma default_key_only_for_default_identity_example :
  lookup_in_source None server_secure DTLS_PSK_KEY
    (Some "Client_identity"%string) 15 (zeros 32) 32
  = (9, memcpy (zeros 32) "secretPSK" 9)
  /\ lookup_in_source None server_secure DTLS_PSK_KEY
       (Some "Client_identitx"%string) 15 (zeros 32) 32
     = (alert_value DTLS_ALERT_ILLEGAL_PARAMETER, zeros 32).
Proof.
  pose proof (default_key_only_for_default_identity alert_value
                "Client_identity" "secretPSK" server_secure) as H.
  split.
  - apply (proj1 (H (Some "Client_identity"%string) 15 (zeros 32) 32)).
    + repeat split; try discriminate.
      exists "Client_identity"%string. split; reflexivity.
    + discriminate.
    + vm_compute. discriminate.
  - apply (proj2 (H (Some "Client_identitx"%string) 15 (zeros 32) 32)).
    intros (_ & _ & bytes & [= <-] & Hb).
    assert (H14 : 0 <= 14 < 15) by (split; [discriminate|reflexivity]).
    specialize (Hb 14 H14). vm_compute in Hb. discriminate Hb.
Defined.

Lemma coap_endpoint_cmp_is_equality_example :
  coap_endpoint_cmp server_secure server_secure = 1
  /\ coap_endpoint_cmp server_secure
       {| ipaddr := ip_2001_db8__1; port := htons_le 5684; secure := 2 |} = 0.
Proof.
  split.
  - apply (proj1 (coap_endpoint_cmp_is_equality server_secure server_secure)).
    reflexivity.
  - apply (proj1 (proj2 (coap_endpoint_cmp_is_equality server_secure
                           {| ipaddr := ip_2001_db8__1; port := htons_le 5684;
                              secure := 2 |}))).
    discriminate.
Defined.

(** A search for the byte 233 in a buffer that holds it at position 1. *)
Definition e_acute : ascii := ascii_of_nat 233.

Definition cafe : string := String "c" (String e_acute "").

Lemma index_of_finds_first_occurrence_example :
  index_of true "coap://[::1]" (-1) 12 "]" = -1
  /\ ((index_of true "coap://[::1]" 0 12 "[" = -1
       /\ forall i, 0 <= i < 12 -> char_at "coap://[::1]" i <> "["%char)
      \/ (0 <= index_of true "coap://[::1]" 0 12 "[" < 12
          /\ char_at "coap://[::1]" (index_of true "coap://[::1]" 0 12 "[")
             = "["%char
          /\ forall i, 0 <= i < index_of true "coap://[::1]" 0 12 "[" ->
                       char_at "coap://[::1]" i <> "["%char))
  /\ index_of true cafe 0 2 e_acute = -1.
Proof.
  split; [|split].
  - apply (proj1 (index_of_finds_first_occurrence true "coap://[::1]" (-1) 12
                    "]"%char)).
    reflexivity.
  - apply (proj1 (proj2 (proj2 (index_of_finds_first_occurrence true
                                  "coap://[::1]" 0 12 "["%char)))).
    + right. reflexivity.
    + discriminate.
  - apply (proj2 (proj2 (proj2 (index_of_finds_first_occurrence true cafe 0 2
                                  e_acute)))).
    + reflexivity.
    + discriminate.
    + discriminate.
Defined.

(** Where plain [char] is unsigned the same search finds the byte. *)
Lemma index_of_depends_on_char_signedness :
  index_of false cafe 0 2 e_acute = 1 /\ index_of true cafe 0 2 e_acute = -1.
Proof. split; reflexivity. Qed.

Lemma get_port_reads_leading_digits_example :
  fst (get_port "5683/rd" 7) <= 7
  /\ (fst (get_port "5683/rd" 7) < 7 ->
      is_digit (char_at "5683/rd" (fst (get_port "5683/rd" 7))) = false)
  /\ snd (get_port "5683/rd" 7)
     = decimal "5683/rd" (Z.to_nat (fst (get_port "5683/rd" 7))) mod 2 ^ 32.
Proof.
  pose proof (get_port_reads_leading_digits "5683/rd" 7)
    as (_ & Hle & _ & _ & Hstop & Hval & _).
  split; [apply Hle; discriminate|]. split; [exact Hstop|exact Hval].
Defined.

(** Four digits are read as they stand; ten digits that write 2^32 + 1 are
    read as 1. *)
Lemma get_port_values :
  get_port "5683/rd" 7 = (4, 5683)
  /\ get_port "4294967297" 10 = (10, 1).
Proof. split; reflexivity. Qed.

Lemma parse_outcomes_example :
  parse "2001:db8::1" pointer_bytes 11 (blank 1)
  = parse "[fd02::1]:5683" pointer_bytes 14 (blank 1)
  /\ (fst (parse "2001:db8::1" pointer_bytes 11 (blank 1)) = 0 ->
      port (snd (parse "2001:db8::1" pointer_bytes 11 (blank 1))) = 0
      /\ secure (snd (parse "2001:db8::1" pointer_bytes 11 (blank 1))) = 1).
Proof.
  pose proof (parse_outcomes htons_le 5683 5684 (2 ^ 32 - 1) ip6addrconv true
                "2001:db8::1" pointer_bytes 11 (blank 1))
    as (_ & Hfail & _ & Hbare).
  split.
  - apply (Hbare "[fd02::1]:5683"%string 14); vm_compute; discriminate.
  - exact Hfail.
Defined.

End TransportFacts.

(** ** The uIP transport: sending, connecting, receiving *)

Module TransportIO.
Import CString Transport.

(** A UDP connection is known by its address. *)
Definition udp_conn_t := nat.

(** The calls into uIP, the DTLS library and the CoAP engine. *)
Inductive io_event :=
| EvUdpSendto (c : option udp_conn_t) (data : string) (len : Z)
    (toaddr : uip_ipaddr_t) (toport : Z)       (* uip_udp_packet_sendto *)
| EvDtlsWrite (session : coap_endpoint_t) (data : string) (len : Z)
| EvDtlsConnect (ep : coap_endpoint_t)
| EvDtlsClose (ep : coap_endpoint_t)
| EvDtlsHandleMessage (session : coap_endpoint_t) (data : string) (len : Z)
| EvCoapReceive (ep : coap_endpoint_t) (data : string) (len : Z).


Section IO.

(** The build option, the type of the DTLS context, and the file-scope
    variables [udp_conn], [dtls_conn] and [dtls_context]. *)
Variable WITH_DTLS : bool.
Variable dtls_context_t : Type.
Variable udp_conn : option udp_conn_t.
Variable dtls_conn : option udp_conn_t.
Variable dtls_context : option dtls_context_t.


Definition coap_endpoint_connect (ep : coap_endpoint_t) : Z * list io_event :=
  if secure ep =? 0 then (1, [])
  else if WITH_DTLS then
    (* setup all address info here... should be done to connect *)
    (1, match dtls_context with Some _ => [EvDtlsConnect ep] | None => [] end)
  else (1, []).

Definition coap_endpoint_disconnect (ep : option coap_endpoint_t)
    : list io_event :=
  if WITH_DTLS then
    match ep, dtls_context with
    | Some e, Some _ => if truthy (secure e) then [EvDtlsClose e] else []
    | _, _ => []
    end
  else [].



Definition coap_send_message (ep : option coap_endpoint_t) (data : string)
    (length : Z) : list io_event :=
  match ep with
  | None => []                                 (* failed to send - no endpoint *)
  | Some e =>
      if WITH_DTLS && truthy (coap_endpoint_is_secure e) then
        match dtls_context with
        | Some _ => [EvDtlsWrite e data length]
        | None => []
        end
      else [EvUdpSendto udp_conn data length (ipaddr e) (port e)]
  end.


Variable dtls_peer_t : Type.
Variable dtls_get_peer : dtls_context_t -> coap_endpoint_t -> option dtls_peer_t.


(** [output_to_peer]: encrypted output of the DTLS code; [udp_connection]
    is what [dtls_get_app_data(ctx)] gives. *)
Definition output_to_peer (udp_connection : option udp_conn_t)
    (session : coap_endpoint_t) (data : string) (len : Z) : Z * list io_event :=
  (len, [EvUdpSendto udp_connection data len (ipaddr session) (port session)]).

(** *** Properties *)

(** Checks each call of a list of at most one call against a predicate
    given by cases. *)
Ltac channel_ok :=
  repeat (first [apply Forall_nil | apply Forall_cons]);
  simpl; repeat split; auto; try discriminate;
  try (now left); try (now right).

(** What the three outbound operations may do for endpoint [e]. *)
Definition outbound_ok (e : coap_endpoint_t) (ev : io_event) : Prop :=
  match ev with
  | EvUdpSendto c _ _ a p =>
      (WITH_DTLS = false \/ secure e = 0)
      /\ c = udp_conn /\ a = ipaddr e /\ p = port e
  | EvDtlsWrite s _ _ | EvDtlsConnect s | EvDtlsClose s =>
      WITH_DTLS = true /\ secure e <> 0 /\ dtls_context <> None /\ s = e
  | _ => False
  end.

(** X9.  Sending, connecting and disconnecting keep the two channels apart.  In
    a build with DTLS nothing addressed to a secure endpoint goes out on the
    plaintext socket, and the DTLS library is called only for an endpoint
    with the secure flag and only when a DTLS context exists: a message for
    a secure endpoint is dropped without a trace when there is none.  A
    plaintext endpoint always gets exactly one datagram, to its address and
    port.  Sending to no endpoint does nothing, and connecting always
    reports success. *)
Theorem outbound_channels_are_kept_apart :
  forall e data length,
    Forall (outbound_ok e) (coap_send_message (Some e) data length)
    /\ Forall (outbound_ok e) (snd (coap_endpoint_connect e))
    /\ Forall (outbound_ok e) (coap_endpoint_disconnect (Some e))
    /\ (secure e = 0 ->
        coap_send_message (Some e) data length
        = [EvUdpSendto udp_conn data length (ipaddr e) (port e)])
    /\ (WITH_DTLS = true -> secure e <> 0 -> dtls_context = None ->
        coap_send_message (Some e) data length = [])
    /\ coap_send_message None data length = []
    /\ coap_endpoint_disconnect None = []
    /\ fst (coap_endpoint_connect e) = 1.
Proof.
  intros e data length.
  unfold coap_send_message, coap_endpoint_connect, coap_endpoint_disconnect,
    coap_endpoint_is_secure, truthy, outbound_ok.
  repeat split.
  - destruct WITH_DTLS; simpl.
    + destruct (Z.eqb_spec (secure e) 0) as [Hs|Hs]; simpl.
      * channel_ok.
      * destruct dtls_context; channel_ok.
    + channel_ok.
  - destruct (Z.eqb_spec (secure e) 0) as [Hs|Hs]; simpl; [constructor|].
    destruct WITH_DTLS; simpl; [|constructor].
    destruct dtls_context; channel_ok.
  - destruct WITH_DTLS; [|constructor].
    destruct dtls_context; [|constructor].
    destruct (Z.eqb_spec (secure e) 0) as [Hs|Hs]; simpl; channel_ok.
  - intros ->. simpl. now rewrite andb_false_r.
  - intros -> Hs ->. simpl. now rewrite (proj2 (Z.eqb_neq _ _) Hs).
  - now destruct WITH_DTLS.
  - destruct (secure e =? 0); [reflexivity|]. now destruct WITH_DTLS.
Qed.



End IO.

(** *** Worked examples *)

Definition to_plain : coap_endpoint_t :=
  {| ipaddr := ip_2001_db8__1; port := htons_le 5683; secure := 0 |}.

Lemma outbound_channels_are_kept_apart_example :
  coap_send_message true unit (Some 1%nat) (Some tt) (Some to_plain) "hi" 2
  = [EvUdpSendto (Some 1%nat) "hi" 2 ip_2001_db8__1 (htons_le 5683)]
  /\ coap_send_message true unit (Some 1%nat) None (Some server_secure) "hi" 2
     = [].
Proof.
  pose proof (outbound_channels_are_kept_apart true unit (Some 1%nat))
    as H.
  split.
  - apply (H (Some tt) to_plain "hi"%string 2). reflexivity.
  - apply (H None server_secure "hi"%string 2);
      (reflexivity || discriminate).
Defined.


End TransportIO.

(** ** The LWM2M keystore: what it hands out, and to whom *)

Module Lwm2mKeystoreFacts.
Import CString Transport Lwm2mSecurity TransportFacts.

Section Keystore.

Variable LWM2M_SECURITY_MODE_PSK : Z.
Variable UIP_HTONS : Z -> Z.
Variables COAP_DEFAULT_PORT COAP_DEFAULT_SECURE_PORT : Z.
Variable SIZE_MAX : Z.
Variable uiplib_ipaddrconv : string -> uip_ipaddr_t -> Z * uip_ipaddr_t.
Variable char_is_signed : bool.
Variable uri_pointer_bytes : lwm2m_security_value_t -> string.

Local Abbreviation parse_uri :=
  (parse_server_uri UIP_HTONS COAP_DEFAULT_PORT COAP_DEFAULT_SECURE_PORT
     SIZE_MAX uiplib_ipaddrconv char_is_signed uri_pointer_bytes).
Local Abbreviation find :=
  (find_security LWM2M_SECURITY_MODE_PSK UIP_HTONS COAP_DEFAULT_PORT
     COAP_DEFAULT_SECURE_PORT SIZE_MAX uiplib_ipaddrconv char_is_signed
     uri_pointer_bytes).
Local Abbreviation keystore_lookup :=
  (Lwm2mSecurity.get_psk_info LWM2M_SECURITY_MODE_PSK UIP_HTONS
     COAP_DEFAULT_PORT COAP_DEFAULT_SECURE_PORT SIZE_MAX uiplib_ipaddrconv
     char_is_signed uri_pointer_bytes).
Local Abbreviation lwm2m_key_store :=
  (key_store LWM2M_SECURITY_MODE_PSK UIP_HTONS COAP_DEFAULT_PORT
     COAP_DEFAULT_SECURE_PORT SIZE_MAX uiplib_ipaddrconv char_is_signed
     uri_pointer_bytes).

(** The server URI of [e] parses to one endpoint, whatever the endpoint
    parsed into held before: the parse succeeds for every such content or
    for none, and where it succeeds the outcome is the same.  A URI that
    names a port is not of this kind: its parse leaves the flag alone. *)
Definition parses_alike (e : lwm2m_security_value_t) : Prop :=
  forall ep1 ep2,
    fst (parse_uri e ep1) = fst (parse_uri e ep2)
    /\ (fst (parse_uri e ep1) <> 0 ->
        snd (parse_uri e ep1) = snd (parse_uri e ep2)).

(** Entry [e] stands for [peer]: it has a server URI, is in PSK mode, and
    its URI parses to an endpoint that compares equal to [peer]. *)
Definition stands_for (e : lwm2m_security_value_t) (peer : coap_endpoint_t)
    : Prop :=
  server_uri_len e <> 0
  /\ security_mode e = LWM2M_SECURITY_MODE_PSK
  /\ forall ep, fst (parse_uri e ep) <> 0
                /\ coap_endpoint_cmp peer (snd (parse_uri e ep)) <> 0.

(** The request names the identity stored in [e] as its public key. *)
Definition names_identity_of (info : coap_keystore_psk_entry_t)
    (e : lwm2m_security_value_t) : Prop :=
  identity_len info = public_key_len e
  /\ forall i, 0 <= i < identity_len info ->
               char_at (bytes_at (identity info)) i = char_at (public_key e) i.

(** Where the parse does not depend on the endpoint parsed into, one
    successful parse that compares equal to the peer decides. *)
Lemma parses_alike_stands_for e peer ep :
  parses_alike e ->
  server_uri_len e <> 0 ->
  security_mode e = LWM2M_SECURITY_MODE_PSK ->
  fst (parse_uri e ep) <> 0 ->
  coap_endpoint_cmp peer (snd (parse_uri e ep)) <> 0 ->
  stands_for e peer.
Proof.
  intros Halike Hlen Hmode Hp Hc. split; [exact Hlen|]. split; [exact Hmode|].
  intros ep'. destruct (Halike ep ep') as [Hfst Hsnd].
  split; [now rewrite <- Hfst|]. now rewrite <- (Hsnd Hp).
Qed.

(** A URI whose parse does not take the explicit-port branch parses alike,
    when the address conversion does not depend on what the address held
    before. *)
Definition names_port (e : lwm2m_security_value_t) : bool :=
  let text := server_uri e in
  let size := server_uri_len e in
  let start := index_of char_is_signed text 0 size "[" in
  let end_ := index_of char_is_signed text start size "]" in
  (start >? 0) && (end_ >? start)
  && Ascii.eqb (char_at text (end_ + 1)) ":"
  && truthy (fst (get_port (drop (Z.to_nat (end_ + 2)) text)
                    ((size - end_ - 2) mod (SIZE_MAX + 1)))).

Definition conversion_ignores_buffer : Prop :=
  forall s a a',
    fst (uiplib_ipaddrconv s a) = fst (uiplib_ipaddrconv s a')
    /\ (fst (uiplib_ipaddrconv s a) <> 0 ->
        snd (uiplib_ipaddrconv s a) = snd (uiplib_ipaddrconv s a')).

Lemma portless_uri_parses_alike e :
  conversion_ignores_buffer ->
  names_port e = false ->
  parses_alike e.
Proof.
  intros Hconv Hport [a1 p1 s1] [a2 p2 s2].
  unfold parse_server_uri, coap_endpoint_parse, names_port, to_size_t in *.
  cbn [ipaddr port secure].
  set (start := index_of char_is_signed (server_uri e) 0 (server_uri_len e) "[")
    in *.
  set (end_ := index_of char_is_signed (server_uri e) start (server_uri_len e)
                 "]") in *.
  destruct ((start >? 0) && (end_ >? start)) eqn:Hb.
  - cbn [andb] in Hport.
    destruct (Hconv (drop (Z.to_nat start) (server_uri e)) a1 a2) as [Hf Hs].
    destruct (uiplib_ipaddrconv (drop (Z.to_nat start) (server_uri e)) a1)
      as [c1 b1].
    destruct (uiplib_ipaddrconv (drop (Z.to_nat start) (server_uri e)) a2)
      as [c2 b2].
    cbn [fst snd] in Hf, Hs. subst c2.
    destruct (truthy c1) eqn:Hc1.
    + apply truthy_true in Hc1. rewrite <- (Hs Hc1).
      destruct (Ascii.eqb (char_at (server_uri e) (end_ + 1)) ":").
      * cbn [andb] in Hport.
        destruct (get_port _ _) as [digits port_]. cbn [fst] in Hport.
        rewrite Hport. now destruct (truthy _).
      * cbn [truthy Z.eqb negb]. now destruct (truthy _).
    + destruct (Hconv (uri_pointer_bytes e) b1 b2) as [Hf' Hs'].
      destruct (uiplib_ipaddrconv (uri_pointer_bytes e) b1) as [d1 g1].
      destruct (uiplib_ipaddrconv (uri_pointer_bytes e) b2) as [d2 g2].
      cbn [fst snd] in Hf', Hs'. subst d2.
      destruct (truthy d1) eqn:Hd1; cbn [fst snd].
      * apply truthy_true in Hd1. rewrite <- (Hs' Hd1). now split.
      * split; [reflexivity|]. intros H. now elim H.
  - destruct (Hconv (uri_pointer_bytes e) a1 a2) as [Hf' Hs'].
    destruct (uiplib_ipaddrconv (uri_pointer_bytes e) a1) as [d1 g1].
    destruct (uiplib_ipaddrconv (uri_pointer_bytes e) a2) as [d2 g2].
    cbn [fst snd truthy Z.eqb negb] in *. subst d2.
    destruct (truthy d1) eqn:Hd1; cbn [fst snd].
    + apply truthy_true in Hd1. rewrite <- (Hs' Hd1). now split.
    + split; [reflexivity|]. intros H. now elim H.
Qed.

(** What the loop has found when it leaves with an entry. *)
Lemma find_security_some instances peer info : forall ep e,
  0 <= identity_len info ->
  Forall parses_alike instances ->
  find instances peer info ep = Some e ->
  In e instances
  /\ stands_for e peer
  /\ (identity info <> None -> identity_len info <> 0 ->
      names_identity_of info e).
Proof.
  induction instances as [|e0 next IH]; intros ep e Hlen Hall; simpl;
    [discriminate|].
  inversion Hall as [|? ? Halike Hrest]; subst.
  assert (Hnext : forall ep', find next peer info ep' = Some e ->
                              In e (e0 :: next) /\ stands_for e peer
                              /\ (identity info <> None ->
                                  identity_len info <> 0 ->
                                  names_identity_of info e)).
  { intros ep' H. destruct (IH ep' e Hlen Hrest H) as (H1 & H2 & H3).
    split; [now right|]. split; assumption. }
  destruct (Z.eqb_spec (server_uri_len e0) 0) as [Hu|Hu]; [apply Hnext|].
  destruct (Z.eqb_spec (security_mode e0) LWM2M_SECURITY_MODE_PSK)
    as [Hmode|Hmode]; cbn [negb]; [|apply Hnext].
  destruct (parse_uri e0 ep) as [parsed ep'] eqn:Hparse.
  destruct (truthy parsed) eqn:Hp; cbn [negb]; [|apply Hnext].
  destruct (truthy (coap_endpoint_cmp peer ep')) eqn:Hc; cbn [negb];
    [|apply Hnext].
  destruct ((identity_len info >? 0) && negb (is_null (identity info))
            && (negb (identity_len info =? public_key_len e0)
                || truthy (memcmp (bytes_at (identity info)) (public_key e0)
                             (Z.to_nat (identity_len info))))) eqn:Hid;
    [apply Hnext|].
  intros [= <-]. split; [now left|]. split.
  - apply (parses_alike_stands_for e0 peer ep); auto; rewrite Hparse; simpl;
      now apply truthy_true.
  - intros Hnn Hn0.
    assert (Hgt : (identity_len info >? 0) = true) by (apply Z.gtb_lt; lia).
    assert (Hnull : is_null (identity info) = false)
      by (destruct (identity info); [reflexivity|congruence]).
    rewrite Hgt, Hnull in Hid. cbn [negb andb] in Hid.
    apply orb_false_iff in Hid. destruct Hid as [Hl Hm].
    apply negb_false_iff, Z.eqb_eq in Hl.
    apply truthy_false in Hm. split; [exact Hl|].
    intros i Hi. apply (proj1 (memcmp_0 _ _ _) Hm). lia.
Qed.

(** The loop runs through when no entry stands for the peer. *)
Lemma find_security_none instances peer info : forall ep,
  Forall parses_alike instances ->
  (forall e, In e instances -> ~ stands_for e peer) ->
  find instances peer info ep = None.
Proof.
  induction instances as [|e next IH]; intros ep Hall Hno; simpl;
    [reflexivity|].
  inversion Hall as [|? ? Halike Hrest]; subst.
  assert (Hnext : forall e', In e' next -> ~ stands_for e' peer)
    by (intros e' Hin; apply Hno; now right).
  destruct (Z.eqb_spec (server_uri_len e) 0) as [Hlen|Hlen]; [now apply IH|].
  destruct (Z.eqb_spec (security_mode e) LWM2M_SECURITY_MODE_PSK)
    as [Hmode|Hmode]; simpl; [|now apply IH].
  destruct (parse_uri e ep) as [parsed ep'] eqn:Hparse.
  destruct (truthy parsed) eqn:Hp; simpl; [|now apply IH].
  destruct (truthy (coap_endpoint_cmp peer ep')) eqn:Hc; simpl; [|now apply IH].
  exfalso. apply (Hno e (or_introl eq_refl)).
  apply (parses_alike_stands_for e peer ep); auto; rewrite Hparse; simpl;
    now apply truthy_true.
Qed.

(** X11.  As long as the server URI of every registered entry parses to one
    endpoint whatever the local endpoint held before (as a URI without an
    explicit port does), the keystore answers 0 or 1.  On 0 the credential
    record is left as it was.  On 1 there is a registered entry in PSK mode
    whose server URI parses to the peer's endpoint, and: a request without
    identity has received that entry's public key as identity; a request
    that names an identity names that entry's public key, byte for byte,
    the entry has a secret key, and the request has received it. *)
Theorem keystore_hands_out_only_matching_credentials :
  forall instances ep peer info,
    0 <= identity_len info ->
    Forall parses_alike instances ->
    let r := keystore_lookup instances ep (Some peer) (Some info) in
    (fst r = 0 \/ fst r = 1)
    /\ (fst r = 0 -> snd r = Some info)
    /\ (fst r = 1 ->
        exists e,
          In e instances
          /\ stands_for e peer
          /\ ((identity info = None \/ identity_len info = 0)
              /\ snd r = Some (set_identity info (Some (public_key e))
                                 (public_key_len e))
              \/ identity info <> None /\ identity_len info <> 0
                 /\ names_identity_of info e
                 /\ secret_key_len e <> 0
                 /\ snd r = Some (set_key info (Some (secret_key e))
                                    (secret_key_len e)))).
Proof.
  intros instances ep peer info Hlen Hall r.
  unfold r, Lwm2mSecurity.get_psk_info.
  destruct (find instances peer info ep) as [e|] eqn:Hfind.
  2:{ cbn [fst snd]. split; [now left|]. split; [reflexivity|discriminate]. }
  destruct (find_security_some instances peer info ep e Hlen Hall Hfind)
    as (Hin & Hden & Hid).
  destruct (is_null (identity info) || (identity_len info =? 0)) eqn:Hreq.
  - cbn [fst snd].
    split; [now right|]. split; [discriminate|].
    intros _. exists e. split; [assumption|]. split; [assumption|].
    left. split; [|reflexivity].
    apply orb_true_iff in Hreq. destruct Hreq as [Hn|Hz].
    + left. now destruct (identity info).
    + right. now apply Z.eqb_eq.
  - apply orb_false_iff in Hreq. destruct Hreq as [Hn Hz].
    apply Z.eqb_neq in Hz.
    assert (Hnn : identity info <> None)
      by (destruct (identity info); [discriminate|discriminate]).
    destruct (Z.eqb_spec (secret_key_len e) 0) as [Hk|Hk]; cbn [fst snd].
    + split; [now left|]. split; [reflexivity|discriminate].
    + split; [now right|]. split; [discriminate|].
      intros _. exists e. split; [assumption|]. split; [assumption|].
      right. split; [assumption|]. split; [assumption|].
      split; [now apply Hid|]. split; [assumption|reflexivity].
Qed.

(** X12.  Once the LWM2M keystore is registered, and as long as the server
    URI of every registered entry parses to one endpoint whatever the local
    endpoint held before, a handshake with a peer that no entry stands for
    finds no credential: an identity request returns 0 and a key request the
    illegal-parameter alert, the result buffer untouched.  The compiled-in
    default pair is not consulted, whether it exists or not. *)
Theorem registered_keystore_refuses_unknown_peer :
  forall PSK_DEFAULT dtls_alert_fatal_create instances ep session id id_len
         result result_length,
    Forall parses_alike instances ->
    (forall e, In e instances -> ~ stands_for e session) ->
    Transport.get_psk_info PSK_DEFAULT dtls_alert_fatal_create
      (Some (lwm2m_key_store instances ep)) session DTLS_PSK_IDENTITY
      id id_len result result_length = (0, result)
    /\ Transport.get_psk_info PSK_DEFAULT dtls_alert_fatal_create
         (Some (lwm2m_key_store instances ep)) session DTLS_PSK_KEY
         id id_len result result_length
       = (dtls_alert_fatal_create DTLS_ALERT_ILLEGAL_PARAMETER, result).
Proof.
  intros D alert instances ep session id id_len result result_length Hall Hno.
  unfold Transport.get_psk_info, select_keystore, key_store.
  cbn [coap_get_psk_info].
  unfold consult, Lwm2mSecurity.get_psk_info.
  rewrite !(find_security_none instances session _ ep Hall Hno).
  cbn [snd]. split.
  - unfold identity_request.
    now destruct (negb (is_null id) && truthy id_len).
  - reflexivity.
Qed.

End Keystore.

(** *** Worked examples *)

(** The conversion of the examples does not read the address it writes. *)
Lemma ip6addrconv_ignores_buffer :
  conversion_ignores_buffer ip6addrconv.
Proof.
  intros s a a'. unfold ip6addrconv.
  destruct (ip6_groups _ 0 [] None) as [[rev_groups zero]|].
  - destruct (8 <? List.length (rev rev_groups))%nat.
    + split; [reflexivity|]. intros H. now elim H.
    + destruct (List.length (rev rev_groups) =? 8)%nat; [now split|].
      destruct zero; [now split|].
      split; [reflexivity|]. intros H. now elim H.
  - split; [reflexivity|]. intros H. now elim H.
Qed.

Lemma entry_for_2001_db8__1_parses_alike :
  parses_alike htons_le 5683 5684 (2 ^ 32 - 1) ip6addrconv true
    (fun _ => pointer_bytes) entry_for_2001_db8__1.
Proof.
  apply portless_uri_parses_alike.
  - apply ip6addrconv_ignores_buffer.
  - reflexivity.
Defined.

Lemma keystore_hands_out_only_matching_credentials_example :
  fst (lookup [entry_for_2001_db8__1] (Some server_secure)
         (Some (set_identity zeroed (Some "device-1"%string) 8))) = 0
  \/ fst (lookup [entry_for_2001_db8__1] (Some server_secure)
            (Some (set_identity zeroed (Some "device-1"%string) 8))) = 1.
Proof.
  apply (keystore_hands_out_only_matching_credentials
           LWM2M_SECURITY_MODE_PSK_value htons_le 5683 5684 (2 ^ 32 - 1)
           ip6addrconv true (fun _ => pointer_bytes)
           [entry_for_2001_db8__1] (blank 0) server_secure
           (set_identity zeroed (Some "device-1"%string) 8)).
  - discriminate.
  - constructor; [apply entry_for_2001_db8__1_parses_alike|constructor].
Defined.

(** The one registered entry gives its key to the peer it is for, when asked
    under its own identity. *)
Lemma keystore_gives_key_to_its_peer :
  lookup [entry_for_2001_db8__1] (Some server_secure)
    (Some (set_identity zeroed (Some "device-1"%string) 8))
  = (1, Some (set_key (set_identity zeroed (Some "device-1"%string) 8)
                (Some "s3cret"%string) 6))
  /\ lookup [entry_for_2001_db8__1] (Some server_secure)
       (Some (set_identity zeroed (Some "device-2"%string) 8))
     = (0, Some (set_identity zeroed (Some "device-2"%string) 8)).
Proof. split; reflexivity. Qed.

(** The entry with an explicit port does not parse alike: what its parse
    yields depends on the flag of the endpoint parsed into. *)
Lemma entry_with_port_parses_differently :
  names_port (2 ^ 32 - 1) true entry_for_plain_fd02__1 = true
  /\ secure (snd (parse (server_uri entry_for_plain_fd02__1) pointer_bytes 21
                    (blank 0))) = 0
  /\ secure (snd (parse (server_uri entry_for_plain_fd02__1) pointer_bytes 21
                    (blank 1))) = 1.
Proof. repeat split. Qed.

Lemma registered_keystore_refuses_unknown_peer_example :
  lookup_in_source
    (Some (key_store LWM2M_SECURITY_MODE_PSK_value htons_le 5683 5684
             (2 ^ 32 - 1) ip6addrconv true (fun _ => pointer_bytes)
             [entry_for_2001_db8__1] (blank 0)))
    peer_fd02__1 DTLS_PSK_IDENTITY None 0 (zeros 32) 32 = (0, zeros 32)
  /\ lookup_in_source
       (Some (key_store LWM2M_SECURITY_MODE_PSK_value htons_le 5683 5684
                (2 ^ 32 - 1) ip6addrconv true (fun _ => pointer_bytes)
                [entry_for_2001_db8__1] (blank 0)))
       peer_fd02__1 DTLS_PSK_KEY (Some "device-1"%string) 8 (zeros 32) 32
     = (alert_value DTLS_ALERT_ILLEGAL_PARAMETER, zeros 32).
Proof.
  assert (Hall : Forall (parses_alike htons_le 5683 5684 (2 ^ 32 - 1)
                           ip6addrconv true (fun _ => pointer_bytes))
                   [entry_for_2001_db8__1])
    by (constructor; [apply entry_for_2001_db8__1_parses_alike|constructor]).
  assert (Hno : forall e, In e [entry_for_2001_db8__1] ->
                ~ stands_for LWM2M_SECURITY_MODE_PSK_value htons_le 5683 5684
                    (2 ^ 32 - 1) ip6addrconv true (fun _ => pointer_bytes)
                    e peer_fd02__1).
  { intros e [<-|[]] (_ & _ & H).
    destruct (H (blank 0)) as [_ Hcmp]. apply Hcmp. reflexivity. }
  pose proof (registered_keystore_refuses_unknown_peer
                LWM2M_SECURITY_MODE_PSK_value htons_le 5683 5684 (2 ^ 32 - 1)
                ip6addrconv true (fun _ => pointer_bytes) PSK_DEFAULT_in_source
                alert_value [entry_for_2001_db8__1] (blank 0) peer_fd02__1)
    as H.
  split.
  - apply (proj1 (H None 0 (zeros 32) 32 Hall Hno)).
  - apply (proj2 (H (Some "device-1"%string) 8 (zeros 32) 32 Hall Hno)).
Defined.

End Lwm2mKeystoreFacts.

(** ** The LWM2M security object: its instances *)

Module SecurityObject.
Import CString Lwm2mSecurity.

(** The members of [lwm2m_status_t] the file uses. *)
Inductive lwm2m_status_t :=
| LWM2M_STATUS_OK
| LWM2M_STATUS_ERROR
| LWM2M_STATUS_OPERATION_NOT_ALLOWED
| LWM2M_STATUS_SERVICE_UNAVAILABLE.

(** The generic part of an instance, as [create_instance] fills it. *)
Record lwm2m_object_instance_t := {
  has_callback : bool;                      (* callback = lwm2m_callback *)
  object_id : Z;
  instance_id : Z;                          (* uint16_t *)
  resource_count : Z
}.

(** One element of the array [instances]: the generic part and the
    security values. *)
Record security_t := {
  instance : lwm2m_object_instance_t;
  values : lwm2m_security_value_t
}.

(** The file-scope state: the array, and the list [instances_list] as the
    sequence of the array elements linked into it (each known by its
    index), head first. *)
Record store := {
  instances : list security_t;
  instances_list : list nat
}.

(** [memset(&instances[i], 0, sizeof(instances[i]))] *)
Definition zero_values : lwm2m_security_value_t :=
  {| server_uri := ""; server_uri_len := 0; bootstrap := 0;
     security_mode := 0; public_key := ""; public_key_len := 0;
     secret_key := ""; secret_key_len := 0 |}.

Definition zero_slot : security_t :=
  {| instance := {| has_callback := false; object_id := 0;
                    instance_id := 0; resource_count := 0 |};
     values := zero_values |}.

(** [instances[i]]; the indices the code uses are always inside the array. *)
Definition slot (a : list security_t) (i : nat) : security_t :=
  nth i a zero_slot.

Definition id_of (a : list security_t) (i : nat) : Z :=
  instance_id (instance (slot a i)).

(** [instances[i] = s] *)
Fixpoint set_slot (a : list security_t) (i : nat) (s : security_t)
    : list security_t :=
  match a, i with
  | [], _ => []
  | _ :: t, O => s :: t
  | h :: t, S k => h :: set_slot t k s
  end.

(** [instances[i].instance.instance_id = id] *)
Definition set_id (a : list security_t) (i : nat) (id : Z) : list security_t :=
  set_slot a i
    {| instance := {| has_callback := has_callback (instance (slot a i));
                      object_id := object_id (instance (slot a i));
                      instance_id := id;
                      resource_count := resource_count (instance (slot a i)) |};
       values := values (slot a i) |}.

(** Modelled from the spec: the list library (lib/list.h, lib/list.c),
    which is not among the sources; the spec has registration "append to an
    ordered collection".  The lists are singly linked through the first
    member of their items, and the operations act on the sequence of items:
    [list_remove] takes the item out, [list_add] takes the item out should
    it be linked and appends it at the end, [list_pop] takes the head off,
    [list_head] is the first item. *)
Definition list_remove (l : list nat) (item : nat) : list nat :=
  filter (fun x => negb (Nat.eqb x item)) l.

Definition list_add (l : list nat) (item : nat) : list nat :=
  list_remove l item ++ [item].

Definition list_head (l : list nat) : option nat :=
  match l with [] => None | x :: _ => Some x end.

Definition list_pop (l : list nat) : option nat * list nat :=
  match l with [] => (None, []) | x :: t => (Some x, t) end.

(** [if(status) *status = s]: [None] is the null pointer. *)
Definition set_status (status : option lwm2m_status_t) (s : lwm2m_status_t)
    : option lwm2m_status_t :=
  match status with Some _ => Some s | None => None end.

Section Object.

(** From headers that are not among the sources. *)
Variable LWM2M_OBJECT_INSTANCE_NONE : Z.
Variable LWM2M_OBJECT_SECURITY_ID : Z.
Variable RESOURCE_COUNT : Z.          (* sizeof(resources) / sizeof(lwm2m_resource_id_t) *)

(** The [for] loop of [get_by_id] from list item [l] on. *)
Fixpoint get_by_id_from (a : list security_t) (l : list nat) (instance_id : Z)
    : option nat :=
  match l with
  | [] => None
  | i :: next => if id_of a i =? instance_id then Some i
                 else get_by_id_from a next instance_id
  end.

Definition get_by_id (st : store) (instance_id : Z) : option nat :=
  get_by_id_from (instances st) (instances_list st) instance_id.

Definition get_first (st : store) : option nat := list_head (instances_list st).

(** [instance->next]: the item after [i] in the list. *)
Fixpoint next_of (l : list nat) (i : nat) : option nat :=
  match l with
  | [] => None
  | x :: t => if Nat.eqb x i then list_head t else next_of t i
  end.

Definition get_next (st : store) (i : option nat) : option nat :=
  match i with None => None | Some x => next_of (instances_list st) x end.

(** The [for] loop of [create_instance] over the array, from index [i]. *)
Fixpoint first_free (a : list security_t) (i : nat) : option nat :=
  match a with
  | [] => None
  | s :: t =>
      if instance_id (instance s) =? LWM2M_OBJECT_INSTANCE_NONE then Some i
      else first_free t (S i)
  end.

Definition new_slot (instance_id : Z) : security_t :=
  {| instance := {| has_callback := true;
                    object_id := LWM2M_OBJECT_SECURITY_ID;
                    instance_id := instance_id;
                    resource_count := RESOURCE_COUNT |};
     values := zero_values |}.

(** Returns the new instance (NULL on failure), the state and [*status].
    The [memset] also clears the link of the element taken; an element
    marked free is in the list in no state the properties below are about. *)
Definition create_instance (st : store) (instance_id : Z)
    (status : option lwm2m_status_t)
    : option nat * store * option lwm2m_status_t :=
  match get_by_id st instance_id with
  | Some _ =>
      (* An instance with this id is already registered *)
      (None, st, set_status status LWM2M_STATUS_OPERATION_NOT_ALLOWED)
  | None =>
      match first_free (instances st) 0 with
      | Some i =>
          (Some i,
           {| instances := set_slot (instances st) i (new_slot instance_id);
              instances_list := list_add (instances_list st) i |},
           status)
      | None => (None, st, set_status status LWM2M_STATUS_SERVICE_UNAVAILABLE)
      end
  end.

(** The [while] loop that pops every instance and marks it free. *)
Fixpoint pop_all (a : list security_t) (l : list nat) : list security_t :=
  match l with
  | [] => a
  | i :: t => pop_all (set_id a i LWM2M_OBJECT_INSTANCE_NONE) t
  end.

Definition delete_instance (st : store) (instance_id : Z) : Z * store :=
  if instance_id =? LWM2M_OBJECT_INSTANCE_NONE then
    (* Remove all instances *)
    (1, {| instances := pop_all (instances st) (instances_list st);
           instances_list := [] |})
  else
    match get_by_id st instance_id with
    | Some i =>
        (1, {| instances := set_id (instances st) i LWM2M_OBJECT_INSTANCE_NONE;
               instances_list := list_remove (instances_list st) i |})
    | None => (0, st)
    end.

(** The loop of [lwm2m_security_init] over the array. *)
Definition free_all (a : list security_t) : list security_t :=
  map (fun s =>
         {| instance := {| has_callback := has_callback (instance s);
                           object_id := object_id (instance s);
                           instance_id := LWM2M_OBJECT_INSTANCE_NONE;
                           resource_count := resource_count (instance s) |};
            values := values s |}) a.

(** [lwm2m_security_init]; [added] is what
    [lwm2m_engine_add_generic_object] returns.  Returns the state and
    whether the keystore was registered with the transport. *)
Definition lwm2m_security_init (WITH_DTLS : bool) (st : store) (added : Z)
    : store * bool :=
  ({| instances := free_all (instances st); instances_list := [] |},
   truthy added && WITH_DTLS).

(** The entries the keystore walks over: [lwm2m_security_get_first] and
    [lwm2m_security_get_next] follow the list. *)
Definition registered (st : store) : list lwm2m_security_value_t :=
  map (fun i => values (slot (instances st) i)) (instances_list st).

(** *** Properties *)

(** What the operations keep: the list has no item twice, it holds exactly
    the array elements whose id is not the free mark, and no two listed
    instances have the same id. *)
Definition consistent (st : store) : Prop :=
  NoDup (instances_list st)
  /\ (forall i, In i (instances_list st) <->
                (i < List.length (instances st))%nat
                /\ id_of (instances st) i <> LWM2M_OBJECT_INSTANCE_NONE)
  /\ (forall i j, In i (instances_list st) -> In j (instances_list st) ->
                  id_of (instances st) i = id_of (instances st) j -> i = j).

Lemma set_slot_length a : forall i s,
  List.length (set_slot a i s) = List.length a.
Proof.
  induction a as [|h t IH]; intros [|k] s; simpl; auto.
Qed.

Lemma slot_set_slot_same a : forall i s,
  (i < List.length a)%nat -> slot (set_slot a i s) i = s.
Proof.
  unfold slot. induction a as [|h t IH]; intros [|k] s H; simpl in *; try lia.
  - reflexivity.
  - apply IH. lia.
Qed.

Lemma slot_set_slot_other a : forall i j s,
  i <> j -> slot (set_slot a i s) j = slot a j.
Proof.
  unfold slot. induction a as [|h t IH]; intros [|k] [|j] s H; simpl; auto;
    try congruence.
Qed.

Lemma id_of_set_id a i v j :
  id_of (set_id a i v) j
  = if Nat.eqb j i && (i <? List.length a)%nat then v else id_of a j.
Proof.
  unfold id_of, set_id.
  destruct (Nat.eqb_spec j i) as [->|Hne]; simpl.
  - destruct (Nat.ltb_spec i (List.length a)) as [Hlt|Hge].
    + now rewrite slot_set_slot_same.
    + assert (Hsame : forall b s, (List.length b <= i)%nat -> set_slot b i s = b).
      { clear. intros b. revert i. induction b as [|h t IH]; intros [|k] s H;
          simpl in *; try reflexivity; try lia.
        f_equal. apply IH. lia. }
      now rewrite Hsame.
  - rewrite slot_set_slot_other; auto.
Qed.

Lemma set_id_length a i v : List.length (set_id a i v) = List.length a.
Proof. apply set_slot_length. Qed.

Lemma in_list_remove l i x : In x (list_remove l i) <-> In x l /\ x <> i.
Proof.
  unfold list_remove. rewrite filter_In, negb_true_iff, Nat.eqb_neq.
  reflexivity.
Qed.

Lemma list_remove_absent l i : ~ In i l -> list_remove l i = l.
Proof.
  unfold list_remove. induction l as [|x t IH]; intros H; simpl; [reflexivity|].
  destruct (Nat.eqb_spec x i) as [->|Hne]; simpl.
  - exfalso. apply H. now left.
  - f_equal. apply IH. intros Hin. apply H. now right.
Qed.

Lemma get_by_id_from_some a l id i :
  get_by_id_from a l id = Some i -> In i l /\ id_of a i = id.
Proof.
  induction l as [|x t IH]; simpl; [discriminate|].
  destruct (Z.eqb_spec (id_of a x) id) as [He|Hne].
  - intros [= <-]. split; [now left|assumption].
  - intros H. destruct (IH H). split; [now right|assumption].
Qed.

Lemma get_by_id_from_none a l id :
  get_by_id_from a l id = None <-> forall i, In i l -> id_of a i <> id.
Proof.
  induction l as [|x t IH]; simpl.
  - split; [intros _ i []|reflexivity].
  - destruct (Z.eqb_spec (id_of a x) id) as [He|Hne].
    + split; [discriminate|]. intros H. exfalso. apply (H x); auto.
    + rewrite IH. split.
      * intros H i [<-|Hin]; auto.
      * intros H i Hin. apply H. now right.
Qed.

Lemma get_by_id_from_unique a l id i :
  In i l -> id_of a i = id ->
  (forall x y, In x l -> In y l -> id_of a x = id_of a y -> x = y) ->
  get_by_id_from a l id = Some i.
Proof.
  intros Hin Hid Huniq.
  destruct (get_by_id_from a l id) as [j|] eqn:Hg.
  - destruct (get_by_id_from_some _ _ _ _ Hg) as [Hj Hjid].
    f_equal. apply Huniq; congruence.
  - exfalso. apply (proj1 (get_by_id_from_none _ _ _) Hg i Hin Hid).
Qed.

Lemma get_by_id_from_ext a a' l id :
  (forall x, In x l -> id_of a' x = id_of a x) ->
  get_by_id_from a' l id = get_by_id_from a l id.
Proof.
  induction l as [|x t IH]; intros H; simpl; [reflexivity|].
  rewrite (H x (or_introl eq_refl)). rewrite IH; [reflexivity|].
  intros y Hy. apply H. now right.
Qed.

Lemma get_by_id_from_app a l l' id :
  get_by_id_from a (l ++ l') id
  = match get_by_id_from a l id with
    | Some i => Some i
    | None => get_by_id_from a l' id
    end.
Proof.
  induction l as [|x t IH]; simpl; [reflexivity|].
  now destruct (id_of a x =? id).
Qed.

Lemma get_by_id_from_remove a l id i :
  id_of a i <> id ->
  get_by_id_from a (list_remove l i) id = get_by_id_from a l id.
Proof.
  intros Hne. unfold list_remove. induction l as [|x t IH]; simpl;
    [reflexivity|].
  destruct (Nat.eqb_spec x i) as [->|Hx]; simpl.
  - rewrite IH. now rewrite (proj2 (Z.eqb_neq _ _) Hne).
  - now rewrite IH.
Qed.

Lemma first_free_some a : forall k i,
  first_free a k = Some i ->
  (k <= i)%nat /\ (i - k < List.length a)%nat
  /\ id_of a (i - k) = LWM2M_OBJECT_INSTANCE_NONE.
Proof.
  induction a as [|h t IH]; intros k i; simpl; [discriminate|].
  destruct (Z.eqb_spec (instance_id (instance h)) LWM2M_OBJECT_INSTANCE_NONE)
    as [He|Hne].
  - intros [= <-]. rewrite Nat.sub_diag. repeat split; try lia. exact He.
  - intros H. destruct (IH (S k) i H) as (H1 & H2 & H3).
    repeat split; try lia.
    replace (i - k)%nat with (S (i - S k)) by lia. exact H3.
Qed.

Lemma first_free_none a : forall k,
  first_free a k = None ->
  forall j, (j < List.length a)%nat -> id_of a j <> LWM2M_OBJECT_INSTANCE_NONE.
Proof.
  induction a as [|h t IH]; intros k; simpl; [intros _ j Hj; lia|].
  destruct (Z.eqb_spec (instance_id (instance h)) LWM2M_OBJECT_INSTANCE_NONE)
    as [He|Hne]; [discriminate|].
  intros H [|j] Hj; [exact Hne|]. apply (IH (S k) H). lia.
Qed.

(** A consistent store never holds more instances than the array has
    elements, and it is full exactly when no element is free. *)
Lemma consistent_bound st :
  consistent st ->
  (List.length (instances_list st) <= List.length (instances st))%nat.
Proof.
  intros (Hnd & Hin & _).
  rewrite <- (length_seq (List.length (instances st)) 0).
  apply NoDup_incl_length; [assumption|].
  intros i Hi. apply in_seq. apply Hin in Hi. lia.
Qed.

Lemma consistent_full st :
  consistent st ->
  first_free (instances st) 0 = None ->
  List.length (instances_list st) = List.length (instances st).
Proof.
  intros Hc Hfree. apply Nat.le_antisymm; [now apply consistent_bound|].
  destruct Hc as (Hnd & Hin & _).
  rewrite <- (length_seq (List.length (instances st)) 0) at 1.
  apply NoDup_incl_length; [apply seq_NoDup|].
  intros i Hi. apply in_seq in Hi. apply Hin. split; [lia|].
  apply (first_free_none _ _ Hfree). lia.
Qed.

Lemma consistent_not_full st i :
  consistent st ->
  first_free (instances st) 0 = Some i ->
  (List.length (instances_list st) < List.length (instances st))%nat
  /\ (i < List.length (instances st))%nat
  /\ ~ In i (instances_list st).
Proof.
  intros (Hnd & Hin & _) Hfree.
  destruct (first_free_some _ _ _ Hfree) as (_ & Hlt & Hid).
  rewrite Nat.sub_0_r in *.
  assert (Hni : ~ In i (instances_list st)).
  { intros H. apply Hin in H. tauto. }
  repeat split; auto.
  assert (Hle : (List.length (i :: instances_list st)
                 <= List.length (seq 0 (List.length (instances st))))%nat).
  { apply NoDup_incl_length; [now constructor|].
    intros j [<-|Hj]; apply in_seq; [lia|]. apply Hin in Hj. lia. }
  rewrite length_seq in Hle. simpl in Hle. lia.
Qed.

Lemma NoDup_snoc (l : list nat) i : NoDup l -> ~ In i l -> NoDup (l ++ [i]).
Proof.
  induction l as [|x t IH]; intros Hnd Hni; simpl.
  - constructor; [intros []|constructor].
  - inversion Hnd as [|? ? Hx Ht]; subst. constructor.
    + intros Hin. apply in_app_or in Hin. destruct Hin as [Hin|[<-|[]]].
      * contradiction.
      * apply Hni. now left.
    + apply IH; [assumption|]. intros Hin. apply Hni. now right.
Qed.

Lemma list_remove_length l i :
  NoDup l -> In i l -> S (List.length (list_remove l i)) = List.length l.
Proof.
  unfold list_remove. induction l as [|x t IH]; intros Hnd Hin; [destruct Hin|].
  inversion Hnd as [|? ? Hx Ht]; subst. simpl.
  destruct (Nat.eqb_spec x i) as [->|Hne]; simpl.
  - f_equal. fold (list_remove t i). now rewrite (list_remove_absent t i Hx).
  - f_equal. apply IH; [assumption|]. destruct Hin; [contradiction|assumption].
Qed.

Lemma pop_all_length l : forall a,
  List.length (pop_all a l) = List.length a.
Proof.
  induction l as [|x t IH]; intros a; simpl; [reflexivity|].
  now rewrite IH, set_id_length.
Qed.

Lemma id_of_pop_all l : forall a j,
  id_of (pop_all a l) j = LWM2M_OBJECT_INSTANCE_NONE
  \/ (~ (In j l /\ (j < List.length a)%nat)
      /\ id_of (pop_all a l) j = id_of a j).
Proof.
  induction l as [|x t IH]; intros a j; simpl.
  - right. split; [intros [[] _]|reflexivity].
  - destruct (IH (set_id a x LWM2M_OBJECT_INSTANCE_NONE) j)
      as [Hn|[Hni Heq]]; [now left|].
    rewrite set_id_length in Hni. rewrite Heq, id_of_set_id.
    destruct (Nat.eqb_spec j x) as [->|Hne]; simpl.
    + destruct (Nat.ltb_spec x (List.length a)) as [Hlt|Hge]; [now left|].
      right. split; [|reflexivity]. intros [_ H]. lia.
    + right. split; [|reflexivity]. intros [[H|H] Hlt]; [congruence|].
      apply Hni. now split.
Qed.

Lemma create_instance_length st id status :
  List.length (instances (snd (fst (create_instance st id status))))
  = List.length (instances st).
Proof.
  unfold create_instance. destruct (get_by_id st id); [reflexivity|].
  destruct (first_free (instances st) 0); [|reflexivity].
  simpl. apply set_slot_length.
Qed.

Lemma delete_instance_length st id :
  List.length (instances (snd (delete_instance st id)))
  = List.length (instances st).
Proof.
  unfold delete_instance.
  destruct (id =? LWM2M_OBJECT_INSTANCE_NONE); simpl;
    [apply pop_all_length|].
  destruct (get_by_id st id); simpl; [apply set_id_length|reflexivity].
Qed.

(** The state after a successful [create_instance] into element [i]. *)
Definition created (st : store) (i : nat) (id : Z) : store :=
  {| instances := set_slot (instances st) i (new_slot id);
     instances_list := instances_list st ++ [i] |}.

Lemma id_of_created st i id j :
  (i < List.length (instances st))%nat ->
  id_of (instances (created st i id)) j
  = if Nat.eqb j i then id else id_of (instances st) j.
Proof.
  intros Hlt. unfold id_of, created. simpl.
  destruct (Nat.eqb_spec j i) as [->|Hne].
  - now rewrite slot_set_slot_same.
  - rewrite slot_set_slot_other; auto.
Qed.

Lemma created_consistent st i id :
  consistent st ->
  id <> LWM2M_OBJECT_INSTANCE_NONE ->
  get_by_id st id = None ->
  (i < List.length (instances st))%nat ->
  ~ In i (instances_list st) ->
  consistent (created st i id)
  /\ get_by_id (created st i id) id = Some i
  /\ (forall id', id' <> id ->
                  get_by_id (created st i id) id' = get_by_id st id').
Proof.
  intros (Hnd & Hin & Huniq) Hid Hnone Hlt Hni.
  assert (Hfresh : forall x, In x (instances_list st) ->
                             id_of (instances st) x <> id)
    by (apply get_by_id_from_none; exact Hnone).
  assert (Hold : forall x, In x (instances_list st) ->
                           id_of (instances (created st i id)) x
                           = id_of (instances st) x).
  { intros x Hx. rewrite id_of_created by assumption.
    destruct (Nat.eqb_spec x i) as [->|Hne]; [contradiction|reflexivity]. }
  assert (Hnew : id_of (instances (created st i id)) i = id).
  { rewrite id_of_created by assumption. now rewrite Nat.eqb_refl. }
  split; [|split].
  - split; [|split].
    + simpl. now apply NoDup_snoc.
    + intros j. simpl instances_list. rewrite in_app_iff.
      rewrite id_of_created by assumption.
      replace (List.length (instances (created st i id)))
        with (List.length (instances st))
        by (simpl; now rewrite set_slot_length).
      destruct (Nat.eqb_spec j i) as [->|Hne].
      * split; [intros _; now split|intros _; right; now left].
      * rewrite Hin. split.
        -- intros [H|[H|[]]]; [assumption|congruence].
        -- intros H. now left.
    + intros x y Hx Hy. simpl in Hx, Hy.
      apply in_app_or in Hx. apply in_app_or in Hy.
      destruct Hx as [Hx|[<-|[]]], Hy as [Hy|[<-|[]]].
      * rewrite (Hold x Hx), (Hold y Hy). now apply Huniq.
      * rewrite (Hold x Hx), Hnew. intros H. now elim (Hfresh x Hx).
      * rewrite (Hold y Hy), Hnew. intros H.
        symmetry in H. now elim (Hfresh y Hy).
      * reflexivity.
  - unfold get_by_id. simpl instances_list. rewrite get_by_id_from_app.
    rewrite (get_by_id_from_ext (instances st)) by exact Hold.
    unfold get_by_id in Hnone. rewrite Hnone. cbn [get_by_id_from].
    now rewrite Hnew, Z.eqb_refl.
  - intros id' Hne. unfold get_by_id. simpl instances_list.
    rewrite get_by_id_from_app.
    rewrite (get_by_id_from_ext (instances st)
               (instances (created st i id))) by exact Hold.
    destruct (get_by_id_from (instances st) (instances_list st) id');
      [reflexivity|].
    cbn [get_by_id_from]. rewrite Hnew.
    now rewrite (proj2 (Z.eqb_neq id id') (fun H => Hne (eq_sym H))).
Qed.

(** The state after a successful [delete_instance] of element [i]. *)
Definition deleted (st : store) (i : nat) : store :=
  {| instances := set_id (instances st) i LWM2M_OBJECT_INSTANCE_NONE;
     instances_list := list_remove (instances_list st) i |}.

Lemma deleted_consistent st i id :
  consistent st ->
  get_by_id st id = Some i ->
  consistent (deleted st i)
  /\ get_by_id (deleted st i) id = None
  /\ (forall id', id' <> id ->
                  get_by_id (deleted st i) id' = get_by_id st id')
  /\ S (List.length (instances_list (deleted st i)))
     = List.length (instances_list st).
Proof.
  intros (Hnd & Hin & Huniq) Hget.
  destruct (get_by_id_from_some _ _ _ _ Hget) as [Hi Hid].
  assert (Hlt : (i < List.length (instances st))%nat) by (apply Hin; exact Hi).
  assert (Hold : forall x, x <> i ->
                           id_of (instances (deleted st i)) x
                           = id_of (instances st) x).
  { intros x Hx. unfold deleted. simpl. rewrite id_of_set_id.
    now rewrite (proj2 (Nat.eqb_neq x i) Hx). }
  assert (Hnew : id_of (instances (deleted st i)) i
                 = LWM2M_OBJECT_INSTANCE_NONE).
  { unfold deleted. simpl. rewrite id_of_set_id, Nat.eqb_refl.
    now rewrite (proj2 (Nat.ltb_lt _ _) Hlt). }
  assert (Hext : forall x, In x (list_remove (instances_list st) i) ->
                           id_of (instances (deleted st i)) x
                           = id_of (instances st) x).
  { intros x Hx. apply in_list_remove in Hx. now apply Hold. }
  split; [|split; [|split]].
  - split; [|split].
    + simpl. unfold list_remove. now apply NoDup_filter.
    + intros j. simpl instances_list. rewrite in_list_remove.
      replace (List.length (instances (deleted st i)))
        with (List.length (instances st))
        by (simpl; now rewrite set_id_length).
      destruct (Nat.eq_dec j i) as [->|Hne].
      * rewrite Hnew. split; [intros [_ H]; now elim H|intros [_ H]; now elim H].
      * rewrite Hold, Hin by assumption. tauto.
    + intros x y Hx Hy. simpl in Hx, Hy.
      rewrite (Hext x Hx), (Hext y Hy).
      apply in_list_remove in Hx. apply in_list_remove in Hy.
      apply Huniq; tauto.
  - unfold get_by_id. simpl instances_list.
    apply get_by_id_from_none. intros x Hx. rewrite Hext by assumption.
    apply in_list_remove in Hx. destruct Hx as [Hx Hne].
    intros H. apply Hne. apply Huniq; congruence.
  - intros id' Hne. unfold get_by_id. simpl instances_list.
    rewrite (get_by_id_from_ext (instances st)
               (instances (deleted st i))) by exact Hext.
    apply get_by_id_from_remove. congruence.
  - simpl. now apply list_remove_length.
Qed.

Lemma emptied_consistent st :
  consistent st ->
  consistent {| instances := pop_all (instances st) (instances_list st);
                instances_list := [] |}.
Proof.
  intros (Hnd & Hin & Huniq). split; [constructor|]. split.
  - intros j. simpl. rewrite pop_all_length. split; [intros []|].
    intros [Hlt Hid].
    destruct (id_of_pop_all (instances_list st) (instances st) j)
      as [Hn|[Hni Heq]]; [contradiction|].
    rewrite Heq in Hid. apply Hni. split; [|assumption].
    apply Hin. now split.
  - intros x y [].
Qed.

Lemma create_instance_state st id status :
  consistent st ->
  snd (fst (create_instance st id status)) = st
  \/ exists i,
       snd (fst (create_instance st id status)) = created st i id
       /\ get_by_id st id = None
       /\ (i < List.length (instances st))%nat
       /\ ~ In i (instances_list st).
Proof.
  intros Hc. unfold create_instance.
  destruct (get_by_id st id) eqn:Hget; [now left|].
  destruct (first_free (instances st) 0) as [i|] eqn:Hfree; [|now left].
  destruct (consistent_not_full st i Hc Hfree) as (_ & Hlt & Hni).
  right. exists i. unfold list_add. rewrite (list_remove_absent _ _ Hni).
  repeat split; auto.
Qed.

(** X13.  [create_instance] on a consistent store, for an id other than the free
    mark.  An id that is already registered is refused with
    operation-not-allowed, and a full array with service-unavailable; in both
    cases nothing changes.  Otherwise the instance is created in a free
    element with zeroed values and appended to the list: looking the id up
    finds it, every other id is looked up as before, and the store stays
    consistent. *)
Theorem create_instance_registers_the_id :
  forall st id status,
    consistent st ->
    id <> LWM2M_OBJECT_INSTANCE_NONE ->
    let r := create_instance st id status in
    (get_by_id st id <> None ->
     r = (None, st, set_status status LWM2M_STATUS_OPERATION_NOT_ALLOWED))
    /\ (get_by_id st id = None ->
        List.length (instances_list st) = List.length (instances st) ->
        r = (None, st, set_status status LWM2M_STATUS_SERVICE_UNAVAILABLE))
    /\ (get_by_id st id = None ->
        (List.length (instances_list st) < List.length (instances st))%nat ->
        exists i,
          r = (Some i, created st i id, status)
          /\ consistent (created st i id)
          /\ get_by_id (created st i id) id = Some i
          /\ (forall id', id' <> id ->
                          get_by_id (created st i id) id' = get_by_id st id')
          /\ values (slot (instances (created st i id)) i) = zero_values).
Proof.
  intros st id status Hc Hid r. unfold r, create_instance.
  split; [|split].
  - intros H. destruct (get_by_id st id); [reflexivity|now elim H].
  - intros -> Hfull.
    destruct (first_free (instances st) 0) as [i|] eqn:Hfree; [|reflexivity].
    destruct (consistent_not_full st i Hc Hfree) as (Hlt & _). lia.
  - intros Hnone Hroom. rewrite Hnone.
    destruct (first_free (instances st) 0) as [i|] eqn:Hfree.
    2:{ pose proof (consistent_full st Hc Hfree). lia. }
    destruct (consistent_not_full st i Hc Hfree) as (_ & Hlt & Hni).
    exists i. unfold list_add. rewrite (list_remove_absent _ _ Hni).
    split; [reflexivity|].
    destruct (created_consistent st i id Hc Hid Hnone Hlt Hni)
      as (H1 & H2 & H3).
    split; [exact H1|]. split; [exact H2|]. split; [exact H3|].
    unfold created. cbn [instances]. now rewrite slot_set_slot_same.
Qed.

(** X14.  [delete_instance] on a consistent store.  An id that is not registered
    gives 0 and changes nothing.  A registered id gives 1: the instance
    leaves the list and its element is marked free, the id is no longer
    found, every other id is looked up as before, and there is one instance
    less.  The free mark as id removes every instance.  The store stays
    consistent throughout. *)
Theorem delete_instance_unregisters_the_id :
  forall st id,
    consistent st ->
    let r := delete_instance st id in
    (id <> LWM2M_OBJECT_INSTANCE_NONE -> get_by_id st id = None -> r = (0, st))
    /\ (id <> LWM2M_OBJECT_INSTANCE_NONE ->
        forall i, get_by_id st id = Some i ->
          r = (1, deleted st i)
          /\ consistent (deleted st i)
          /\ get_by_id (deleted st i) id = None
          /\ (forall id', id' <> id ->
                          get_by_id (deleted st i) id' = get_by_id st id')
          /\ S (List.length (instances_list (deleted st i)))
             = List.length (instances_list st))
    /\ (id = LWM2M_OBJECT_INSTANCE_NONE ->
        fst r = 1
        /\ consistent (snd r)
        /\ instances_list (snd r) = []
        /\ forall id', get_by_id (snd r) id' = None).
Proof.
  intros st id Hc r. unfold r, delete_instance. split; [|split].
  - intros Hid ->. now rewrite (proj2 (Z.eqb_neq _ _) Hid).
  - intros Hid i Hget. rewrite (proj2 (Z.eqb_neq _ _) Hid), Hget.
    split; [reflexivity|]. now apply (deleted_consistent st i id).
  - intros ->. rewrite Z.eqb_refl. simpl.
    split; [reflexivity|]. split; [now apply emptied_consistent|].
    split; reflexivity.
Qed.

(** Requests made to the object after its initialisation. *)
Inductive request :=
| Create (id : Z) (status : option lwm2m_status_t)
| Delete (id : Z).

Definition serve (st : store) (q : request) : store :=
  match q with
  | Create id status => snd (fst (create_instance st id status))
  | Delete id => snd (delete_instance st id)
  end.

Definition creates_real_ids (q : request) : Prop :=
  match q with
  | Create id _ => id <> LWM2M_OBJECT_INSTANCE_NONE
  | Delete _ => True
  end.

Lemma serve_consistent st q :
  consistent st -> creates_real_ids q ->
  consistent (serve st q)
  /\ List.length (instances (serve st q)) = List.length (instances st).
Proof.
  intros Hc Hq. destruct q as [id status|id]; simpl in *.
  - split; [|apply create_instance_length].
    destruct (create_instance_state st id status Hc) as [H|H].
    + rewrite H. exact Hc.
    + destruct H as (i & -> & Hnone & Hlt & Hni).
      now apply created_consistent.
  - split; [|apply delete_instance_length].
    unfold delete_instance.
    destruct (Z.eqb_spec id LWM2M_OBJECT_INSTANCE_NONE) as [->|Hid]; simpl.
    + now apply emptied_consistent.
    + destruct (get_by_id st id) as [i|] eqn:Hget; simpl; [|exact Hc].
      now apply (deleted_consistent st i id).
Qed.

Lemma id_of_free_all a : forall j,
  (j < List.length a)%nat -> id_of (free_all a) j = LWM2M_OBJECT_INSTANCE_NONE.
Proof.
  unfold id_of, slot. induction a as [|h t IH]; intros [|j] Hj; simpl in *;
    try lia.
  apply IH. lia.
Qed.

Lemma lwm2m_security_init_consistent WITH_DTLS st added :
  consistent (fst (lwm2m_security_init WITH_DTLS st added)).
Proof.
  unfold lwm2m_security_init. simpl. split; [constructor|]. split.
  - intros j. simpl. split; [intros []|]. intros [Hlt Hid].
    unfold free_all in Hlt. rewrite length_map in Hlt.
    now rewrite id_of_free_all in Hid.
  - intros x y [].
Qed.

Lemma serve_all_consistent qs : forall st,
  consistent st -> Forall creates_real_ids qs ->
  consistent (fold_left serve qs st)
  /\ List.length (instances (fold_left serve qs st))
     = List.length (instances st).
Proof.
  induction qs as [|q qs IH]; intros st Hc Hall; simpl; [now split|].
  inversion Hall as [|? ? Hq Hqs]; subst.
  destruct (serve_consistent st q Hc Hq) as [Hc' Hlen].
  destruct (IH (serve st q) Hc' Hqs) as [Hc'' Hlen'].
  split; [assumption|congruence].
Qed.

(** X15.  From its initialisation on, whatever instances are created (under ids
    other than the free mark) and deleted, the security object holds at
    most as many instances as its array has elements, no instance is in the
    list twice, no two instances have the same id, and the list holds
    exactly the array elements that are not marked free. *)
Theorem security_object_stays_consistent :
  forall WITH_DTLS st0 added qs,
    Forall creates_real_ids qs ->
    let st := fold_left serve qs (fst (lwm2m_security_init WITH_DTLS st0 added)) in
    consistent st
    /\ List.length (instances st) = List.length (instances st0)
    /\ (List.length (instances_list st) <= List.length (instances st0))%nat.
Proof.
  intros WITH_DTLS st0 added qs Hall st.
  destruct (serve_all_consistent qs _
              (lwm2m_security_init_consistent WITH_DTLS st0 added) Hall)
    as [Hc Hlen].
  fold st in Hc, Hlen.
  assert (Hn : List.length (instances st) = List.length (instances st0)).
  { rewrite Hlen. unfold lwm2m_security_init, free_all. simpl.
    apply length_map. }
  split; [assumption|]. split; [assumption|].
  rewrite <- Hn. now apply consistent_bound.
Qed.

End Object.

(** *** Worked examples: an array of two elements *)

Definition NONE : Z := 65535.

Definition fresh : store :=
  fst (lwm2m_security_init NONE true
         {| instances := [zero_slot; zero_slot]; instances_list := [] |} 1).

Definition one : store := created 0 7 fresh 0%nat 7.

Definition two : store := created 0 7 one 1%nat 8.

Lemma create_instance_registers_the_id_example :
  exists i,
    create_instance NONE 0 7 fresh 7 (Some LWM2M_STATUS_OK)
    = (Some i, created 0 7 fresh i 7, Some LWM2M_STATUS_OK)
    /\ consistent NONE (created 0 7 fresh i 7)
    /\ get_by_id (created 0 7 fresh i 7) 7 = Some i
    /\ (forall id', id' <> 7 ->
                    get_by_id (created 0 7 fresh i 7) id'
                    = get_by_id fresh id')
    /\ values (slot (instances (created 0 7 fresh i 7)) i) = zero_values.
Proof.
  apply (proj2 (proj2 (create_instance_registers_the_id NONE 0 7 fresh 7
                         (Some LWM2M_STATUS_OK)
                         (lwm2m_security_init_consistent NONE true _ 1)
                         ltac:(discriminate)))).
  - reflexivity.
  - simpl. apply Nat.lt_0_succ.
Defined.

(** With both elements taken a third instance is refused, and so is a
    second one under an id in use. *)
Lemma create_instance_refusals :
  create_instance NONE 0 7 two 9 (Some LWM2M_STATUS_OK)
  = (None, two, Some LWM2M_STATUS_SERVICE_UNAVAILABLE)
  /\ create_instance NONE 0 7 one 7 (Some LWM2M_STATUS_OK)
     = (None, one, Some LWM2M_STATUS_OPERATION_NOT_ALLOWED).
Proof. split; reflexivity. Qed.

Lemma one_consistent : consistent NONE one.
Proof.
  apply created_consistent.
  - apply lwm2m_security_init_consistent.
  - discriminate.
  - reflexivity.
  - simpl. apply Nat.lt_0_succ.
  - intros [].
Defined.

Lemma delete_instance_unregisters_the_id_example :
  delete_instance NONE one 7 = (1, deleted NONE one 0%nat)
  /\ consistent NONE (deleted NONE one 0%nat)
  /\ get_by_id (deleted NONE one 0%nat) 7 = None
  /\ (forall id', id' <> 7 ->
                  get_by_id (deleted NONE one 0%nat) id' = get_by_id one id')
  /\ S (List.length (instances_list (deleted NONE one 0%nat)))
     = List.length (instances_list one).
Proof.
  apply (proj1 (proj2 (delete_instance_unregisters_the_id NONE one 7
                         one_consistent))).
  - discriminate.
  - reflexivity.
Defined.

Definition requests : list request :=
  [Create 7 None; Create 7 None; Delete 7; Create 8 None; Create 9 None;
   Create 10 None; Delete NONE].

Lemma security_object_stays_consistent_example :
  consistent NONE (fold_left (serve NONE 0 7) requests fresh)
  /\ List.length (instances (fold_left (serve NONE 0 7) requests fresh))
     = 2%nat
  /\ (List.length (instances_list (fold_left (serve NONE 0 7) requests fresh))
      <= 2)%nat.
Proof.
  apply (security_object_stays_consistent NONE 0 7 true
           {| instances := [zero_slot; zero_slot]; instances_list := [] |} 1
           requests).
  repeat constructor; discriminate.
Defined.

End SecurityObject.

(** * The blocking request: budget, complete transfers, failures *)

Module BlockingFacts.
Import CString BlockingApi.

(** The block numbers requests were sent for, in order. *)
Definition sends (evs : list event) : list Z :=
  flat_map (fun e => match e with EvSend b => [b] | _ => [] end) evs.

Lemma sends_app evs evs' : sends (evs ++ evs') = sends evs ++ sends evs'.
Proof. unfold sends. apply flat_map_app. Qed.

(** The responses of a server that has the given payloads as the blocks
    [b], [b+1], ... of the resource: all but the last carry "more". *)
Fixpoint answers_from (b : Z) (payloads : list string) : list coap_packet_t :=
  match payloads with
  | [] => []
  | p :: rest =>
      {| block2 := Some (b, match rest with [] => 0 | _ :: _ => 1 end);
         payload := p |} :: answers_from (b + 1) rest
  end.

(** What a transfer without losses looks like from block [b] on, after the
    request for [b]: each response is passed on and the next block asked
    for, until the last response. *)
Fixpoint replies (b : Z) (rs : list coap_packet_t) : list event :=
  match rs with
  | [] => []
  | r :: rest =>
      EvResponse b r ::
      match rest with
      | [] => []
      | _ :: _ => EvSend (b + 1) :: replies (b + 1) rest
      end
  end.

Definition conversation (rs : list coap_packet_t) : list event :=
  EvSend 0 :: replies 0 rs.

(** A turn in which a transaction is available and, if the thread is
    polled, a response is there. *)
Definition responsive (t : turn) : Prop :=
  new_transaction t = true /\ last (delivered t) None <> None.

Section Engine.

Variable COAP_MAX_ATTEMPTS : Z.
Variable PROCESS_EVENT_POLL : Z.

Local Abbreviation thread :=
  (coap_blocking_request COAP_MAX_ATTEMPTS PROCESS_EVENT_POLL).
Local Abbreviation run := (schedule COAP_MAX_ATTEMPTS PROCESS_EVENT_POLL).
Local Abbreviation blocking :=
  (blocking_request COAP_MAX_ATTEMPTS PROCESS_EVENT_POLL).
Local Abbreviation polled := (answer PROCESS_EVENT_POLL).

Lemma deliveries_keep_pt rs : forall state,
  pt (fold_left coap_blocking_request_callback rs state) = pt state
  /\ block_num (fold_left coap_blocking_request_callback rs state)
     = block_num state.
Proof.
  induction rs as [|r rs IH]; intros state; simpl; [now split|].
  destruct (IH (coap_blocking_request_callback state r)) as [H1 H2].
  now rewrite H1, H2.
Qed.

Lemma deliveries_response rs : forall state,
  last rs None <> None ->
  response (fold_left coap_blocking_request_callback rs state) <> None.
Proof.
  induction rs as [|r rs IH]; intros state Hlast; simpl in *; [now elim Hlast|].
  destruct rs as [|r' rs'].
  - simpl. exact Hlast.
  - apply IH. exact Hlast.
Qed.

(** One call of a suspended thread, in numbers: a request is sent only
    after a callback or after a counted mismatch, and the mismatches stay
    below the budget. *)
Lemma resume_budget state lv e txn state' lv' res evs :
  pt state = LC_YIELD ->
  0 <= block_error lv < COAP_MAX_ATTEMPTS ->
  COAP_MAX_ATTEMPTS <= 255 ->
  thread state lv e txn = (state', lv', res, evs) ->
  (res = PT_YIELDED \/ res = PT_EXITED \/ res = PT_ENDED)
  /\ (res = PT_YIELDED ->
      pt state' = LC_YIELD
      /\ 0 <= block_error lv' < COAP_MAX_ATTEMPTS
      /\ Z.of_nat (List.length (sends evs)) + block_error lv
         <= Z.of_nat (List.length (callbacks evs)) + block_error lv')
  /\ (res <> PT_YIELDED -> sends evs = []).
Proof.
  intros Hpt Hbe Hmax Hstep.
  unfold coap_blocking_request in Hstep. rewrite Hpt in Hstep.
  destruct (negb (e =? PROCESS_EVENT_POLL)).
  { injection Hstep as <- <- <- <-. split; [now left|]. split.
    - intros _. cbn [pt block_error sends callbacks flat_map app List.length]. split; [assumption|]. split; [assumption|lia].
    - intros H. now elim H. }
  destruct (response state) as [r|].
  2:{ injection Hstep as <- <- <- <-. split; [right; now left|]. split.
      - discriminate.
      - reflexivity. }
  destruct (coap_get_header_block2 r (res_block lv) (more lv))
    as [res_block' more'].
  destruct (res_block' =? block_num state).
  - cbn [more block_error] in Hstep.
    destruct (truthy more' && (block_error lv <? COAP_MAX_ATTEMPTS)).
    + unfold request_block in Hstep. destruct txn;
        injection Hstep as <- <- <- <-.
      * split; [now left|]. split.
        -- intros _. cbn [pt block_error sends callbacks flat_map app List.length]. split; [reflexivity|]. split; [assumption|lia].
        -- intros H. now elim H.
      * split; [right; now left|]. split; [discriminate|reflexivity].
    + injection Hstep as <- <- <- <-.
      split; [right; now right|]. split; [discriminate|reflexivity].
  - cbn [more block_error] in Hstep.
    assert (Hnext : (block_error lv + 1) mod 2 ^ 8 = block_error lv + 1)
      by (apply Z.mod_small; lia).
    rewrite Hnext in Hstep.
    destruct (block_error lv + 1 <? COAP_MAX_ATTEMPTS) eqn:Hlt.
    2:{ rewrite andb_false_r in Hstep. injection Hstep as <- <- <- <-.
        split; [right; now right|]. split; [discriminate|reflexivity]. }
    apply Z.ltb_lt in Hlt. rewrite andb_true_r in Hstep.
    destruct (truthy more').
    + unfold request_block in Hstep. destruct txn;
        injection Hstep as <- <- <- <-.
      * split; [now left|]. split.
        -- intros _. cbn [pt block_error sends callbacks flat_map app List.length]. split; [reflexivity|]. split; lia.
        -- intros H. now elim H.
      * split; [right; now left|]. split; [discriminate|reflexivity].
    + injection Hstep as <- <- <- <-.
      split; [right; now right|]. split; [discriminate|reflexivity].
Qed.

Lemma schedule_budget turns : forall state lv,
  pt state = LC_YIELD ->
  0 <= block_error lv < COAP_MAX_ATTEMPTS ->
  COAP_MAX_ATTEMPTS <= 255 ->
  Z.of_nat (List.length (sends (snd (run turns state lv)))) + block_error lv + 1
  <= Z.of_nat (List.length (callbacks (snd (run turns state lv))))
     + COAP_MAX_ATTEMPTS.
Proof.
  induction turns as [|t rest IH]; intros state lv Hpt Hbe Hmax; simpl; [lia|].
  destruct (deliveries_keep_pt (delivered t) state) as [Hpt1 _].
  remember (fold_left coap_blocking_request_callback (delivered t) state)
    as state1.
  rewrite Hpt in Hpt1.
  destruct (thread state1 lv (ev t) (new_transaction t))
    as [[[state' lv'] res] evs] eqn:Hstep.
  destruct (resume_budget _ _ _ _ _ _ _ _ Hpt1 Hbe Hmax Hstep)
    as (Hres & Hyield & Hstop).
  destruct Hres as [->|[->| ->]].
  - destruct (Hyield eq_refl) as (Hpt' & Hbe' & Hcount).
    specialize (IH state' lv' Hpt' Hbe' Hmax).
    destruct (run rest state' lv') as [res' evs']. simpl in *.
    rewrite sends_app, callbacks_app, !List.length_app, !Nat2Z.inj_add. lia.
  - simpl. rewrite Hstop by discriminate. simpl. lia.
  - simpl. rewrite Hstop by discriminate. simpl. lia.
Qed.

Lemma blocking_request_budget turns state lv :
  1 <= COAP_MAX_ATTEMPTS <= 255 ->
  let evs := snd (blocking turns state lv) in
  Z.of_nat (List.length (sends evs))
  <= Z.of_nat (List.length (callbacks evs)) + COAP_MAX_ATTEMPTS.
Proof.
  intros [Hmin Hmax] evs. unfold evs, blocking_request.
  destruct turns as [|t rest]; simpl; [lia|].
  destruct (deliveries_keep_pt (delivered t) (PT_INIT state)) as [Hpt _].
  simpl in Hpt. unfold coap_blocking_request. rewrite Hpt.
  unfold request_block. destruct (new_transaction t); simpl; [|lia].
  match goal with
  | |- context [run rest ?s ?l] =>
      pose proof (schedule_budget rest s l eq_refl) as Hb;
      destruct (run rest s l) as [res' evs']
  end.
  simpl in *. specialize (Hb ltac:(lia) Hmax). lia.
Qed.

(** X16.  With an attempts budget between 1 and 255, a blocking request
    during which the thread of no other blocking request is called sends at
    most as many requests as blocks were passed to the response callback,
    plus the budget: every request but the first follows a block that was
    passed on or a counted mismatch, and the thread ends before the
    mismatches reach the budget.  (The count of mismatches is a static
    local: the start of another request in between sets it back.) *)
Theorem requests_stay_within_the_attempts_budget :
  forall i turns before after states lv state,
    nth_error states i = Some state ->
    others i before -> others i after ->
    1 <= COAP_MAX_ATTEMPTS <= 255 ->
    let evs :=
      request_events COAP_MAX_ATTEMPTS PROCESS_EVENT_POLL i
        (before ++ calls_of i turns ++ after) states lv in
    Z.of_nat (List.length (sends evs))
    <= Z.of_nat (List.length (callbacks evs)) + COAP_MAX_ATTEMPTS.
Proof.
  intros i turns before after states lv state Hstate Hb Ha Hmax evs.
  unfold evs.
  destruct (interleave_alone COAP_MAX_ATTEMPTS PROCESS_EVENT_POLL i turns
              before after states lv state Hstate Hb Ha) as (lv1 & -> & _).
  now apply blocking_request_budget.
Qed.

Lemma schedule_replies payloads : forall b state lv,
  payloads <> [] ->
  pt state = LC_YIELD ->
  block_num state = b ->
  block_error lv < COAP_MAX_ATTEMPTS ->
  0 <= b ->
  b + Z.of_nat (List.length payloads) <= 2 ^ 32 ->
  run (map polled (answers_from b payloads)) state lv
  = (PT_ENDED, replies b (answers_from b payloads)).
Proof.
  induction payloads as [|p rest IH]; intros b state lv Hne Hpt Hnum Hbe Hb Hlen;
    [now elim Hne|].
  assert (Hlt : (block_error lv <? COAP_MAX_ATTEMPTS) = true)
    by now apply Z.ltb_lt.
  subst b.
  assert (Hcall :
    forall m,
      thread (coap_blocking_request_callback state
                (Some {| block2 := Some (block_num state, m); payload := p |}))
             lv PROCESS_EVENT_POLL true
      = if truthy m then
          ({| pt := LC_YIELD; block_num := (block_num state + 1) mod 2 ^ 32;
              response :=
                Some {| block2 := Some (block_num state, m); payload := p |} |},
           {| more := m; res_block := block_num state;
              block_error := block_error lv |},
           PT_YIELDED,
           [EvResponse (block_num state)
              {| block2 := Some (block_num state, m); payload := p |};
            EvSend ((block_num state + 1) mod 2 ^ 32)])
        else
          ({| pt := LC_BEGIN; block_num := (block_num state + 1) mod 2 ^ 32;
              response :=
                Some {| block2 := Some (block_num state, m); payload := p |} |},
           {| more := m; res_block := block_num state;
              block_error := block_error lv |},
           PT_ENDED,
           [EvResponse (block_num state)
              {| block2 := Some (block_num state, m); payload := p |}])).
  { intros m.
    unfold coap_blocking_request, coap_blocking_request_callback,
      coap_get_header_block2.
    cbn [pt response block2 block_num more res_block block_error].
    rewrite Hpt, !Z.eqb_refl. cbn [negb more block_error]. rewrite Hlt.
    destruct (truthy m); reflexivity. }
  destruct rest as [|p' rest'].
  - cbn [answers_from map schedule delivered ev new_transaction answer
         fold_left].
    rewrite Hcall. reflexivity.
  - remember (p' :: rest') as more_payloads.
    cbn [answers_from map schedule delivered ev new_transaction answer
         fold_left].
    assert (Hm : match more_payloads with [] => 0 | _ :: _ => 1 end = 1)
      by now rewrite Heqmore_payloads.
    rewrite Hm, Hcall. change (truthy 1) with true. cbv iota beta.
    assert (Hnext : (block_num state + 1) mod 2 ^ 32 = block_num state + 1).
    { apply Z.mod_small. rewrite Heqmore_payloads in Hlen. simpl in Hlen. lia. }
    rewrite Hnext, IH.
    + cbn [replies answers_from]. rewrite Heqmore_payloads. reflexivity.
    + rewrite Heqmore_payloads. discriminate.
    + reflexivity.
    + reflexivity.
    + assumption.
    + lia.
    + cbn [List.length] in Hlen. lia.
Qed.

Lemma blocking_request_transfer payloads state lv e :
  0 < COAP_MAX_ATTEMPTS ->
  payloads <> [] ->
  Z.of_nat (List.length payloads) <= 2 ^ 32 ->
  blocking (start e :: map polled (answers_from 0 payloads)) state lv
  = (PT_ENDED, conversation (answers_from 0 payloads))
  /\ callbacks (conversation (answers_from 0 payloads))
     = count_from 0 (List.length payloads)
  /\ sends (conversation (answers_from 0 payloads))
     = count_from 0 (List.length payloads).
Proof.
  intros Hmax Hne Hlen. split.
  - unfold blocking_request. cbn [schedule start delivered fold_left ev
                                   new_transaction].
    unfold coap_blocking_request at 1. cbn [PT_INIT pt request_block block_num
                                            response].
    rewrite schedule_replies; try reflexivity; try assumption; simpl; lia.
  - unfold conversation. simpl.
    assert (H : forall ps b, ps <> [] ->
                callbacks (replies b (answers_from b ps))
                = count_from b (List.length ps)
                /\ sends (replies b (answers_from b ps))
                   = count_from (b + 1) (List.length ps - 1)).
    { induction ps as [|p rest IH]; intros b Hps; [now elim Hps|].
      destruct rest as [|p' rest']; [now split|].
      destruct (IH (b + 1)) as [H1 H2]; [discriminate|].
      remember (p' :: rest') as more_payloads.
      cbn [answers_from replies].
      rewrite Heqmore_payloads in *. cbn [answers_from] in *.
      cbn [callbacks sends flat_map app] in *.
      split.
      - unfold callbacks in H1. rewrite H1. reflexivity.
      - unfold sends in H2. rewrite H2. simpl. now rewrite Nat.sub_0_r. }
    destruct (H payloads 0 Hne) as [H1 H2]. split; [exact H1|].
    rewrite H2. destruct payloads as [|p rest]; [now elim Hne|].
    simpl. now rewrite Nat.sub_0_r.
Qed.

(** X17.  When the server answers the request for each block with that
    block, "more" set on all but the last, a blocking request during which
    the thread of no other blocking request is called ends after exactly
    this conversation: each block is asked for once and passed to the
    callback, in order, the payloads being those of the server. *)
Theorem complete_transfer_without_losses :
  forall i payloads before after states lv state e,
    nth_error states i = Some state ->
    others i before -> others i after ->
    0 < COAP_MAX_ATTEMPTS ->
    payloads <> [] ->
    Z.of_nat (List.length payloads) <= 2 ^ 32 ->
    let calls :=
      before
      ++ calls_of i (start e :: map polled (answers_from 0 payloads))
      ++ after in
    request_events COAP_MAX_ATTEMPTS PROCESS_EVENT_POLL i calls states lv
    = conversation (answers_from 0 payloads)
    /\ request_result COAP_MAX_ATTEMPTS PROCESS_EVENT_POLL i calls states lv
       = PT_ENDED
    /\ callbacks (conversation (answers_from 0 payloads))
       = count_from 0 (List.length payloads)
    /\ sends (conversation (answers_from 0 payloads))
       = count_from 0 (List.length payloads).
Proof.
  intros i payloads before after states lv state e Hstate Hb Ha Hmax Hne Hlen
         calls. unfold calls.
  destruct (interleave_alone COAP_MAX_ATTEMPTS PROCESS_EVENT_POLL i
              (start e :: map polled (answers_from 0 payloads))
              before after states lv state Hstate Hb Ha) as (lv1 & -> & ->).
  destruct (blocking_request_transfer payloads state lv1 e Hmax Hne Hlen)
    as (-> & Hc & Hs).
  repeat split; assumption.
Qed.

Lemma schedule_never_exits turns : forall state lv,
  pt state = LC_YIELD ->
  Forall responsive turns ->
  fst (run turns state lv) = PT_WAITING \/ fst (run turns state lv) = PT_ENDED.
Proof.
  induction turns as [|t rest IH]; intros state lv Hpt Hall; simpl;
    [now left|].
  inversion Hall as [|? ? [Htxn Hlast] Hrest]; subst.
  destruct (deliveries_keep_pt (delivered t) state) as [Hpt1 _].
  pose proof (deliveries_response (delivered t) state Hlast) as Hresp.
  remember (fold_left coap_blocking_request_callback (delivered t) state)
    as state1.
  rewrite Hpt in Hpt1.
  unfold coap_blocking_request. rewrite Hpt1, Htxn.
  destruct (negb (ev t =? PROCESS_EVENT_POLL)).
  { specialize (IH state1 lv Hpt1 Hrest).
    destruct (run rest state1 lv). exact IH. }
  destruct (response state1) as [r|]; [|now elim Hresp].
  destruct (coap_get_header_block2 r (res_block lv) (more lv))
    as [res_block' more'].
  destruct (res_block' =? block_num state1);
    match goal with
    | |- context [if ?c then _ else _] => destruct c
    end; simpl; try (now right);
    match goal with
    | |- context [run rest ?s ?l] =>
        specialize (IH s l eq_refl Hrest); destruct (run rest s l)
    end; exact IH.
Qed.

(** X18.  A blocking request gives up (the thread exits) only for want of a
    transaction or of a response: as long as a transaction is available at
    every call and a response has been handed over before every call after
    the first, the request is still under way when the turns are over, or
    it has ended; it has not exited, whatever the responses carry. *)
Theorem gives_up_only_without_transaction_or_response :
  forall t turns state lv,
    new_transaction t = true ->
    Forall responsive turns ->
    fst (blocking (t :: turns) state lv) = PT_WAITING
    \/ fst (blocking (t :: turns) state lv) = PT_ENDED.
Proof.
  intros t turns state lv Htxn Hall. unfold blocking_request. simpl.
  destruct (deliveries_keep_pt (delivered t) (PT_INIT state)) as [Hpt _].
  simpl in Hpt. unfold coap_blocking_request. rewrite Hpt, Htxn.
  unfold request_block.
  match goal with
  | |- context [run turns ?s ?l] =>
      pose proof (schedule_never_exits turns s l eq_refl Hall) as H;
      destruct (run turns s l)
  end.
  exact H.
Qed.

End Engine.

(** *** Worked examples: four attempts *)

(** A server that keeps answering the first request with block 5, "more"
    set; the second request has run before. *)
Definition stuck : list call :=
  [second (start 0); second (answer 130 (block 0 0));
   first (start 0); first (answer 130 (block 5 1));
   first (answer 130 (block 5 1)); first (answer 130 (block 5 1));
   first (answer 130 (block 5 1)); first (answer 130 (block 5 1))].

Lemma requests_stay_within_the_attempts_budget_example :
  Z.of_nat (List.length (sends (events_of_first stuck)))
  <= Z.of_nat (List.length (callbacks (events_of_first stuck))) + 4.
Proof.
  apply (requests_stay_within_the_attempts_budget 4 130 0%nat
           [start 0; answer 130 (block 5 1); answer 130 (block 5 1);
            answer 130 (block 5 1); answer 130 (block 5 1);
            answer 130 (block 5 1)]
           [second (start 0); second (answer 130 (block 0 0))] []
           [idle; idle] cleared idle).
  - reflexivity.
  - repeat constructor; discriminate.
  - constructor.
  - split; discriminate.
Defined.

(** The budget is used up: four requests, no callback, and the thread has
    ended before the fifth response. *)
Lemma stuck_server_uses_the_budget :
  events_of_first stuck = [EvSend 0; EvSend 0; EvSend 0; EvSend 0]
  /\ result_of_first stuck = PT_ENDED.
Proof. split; reflexivity. Qed.

(** With other requests started in between, the count of mismatches is set
    back each time and the first request goes on asking: ten requests and
    no callback. *)
Definition third (t : turn) : call := {| who := 2; what := t |}.

Lemma started_requests_renew_the_budget :
  sends
    (request_events 4 130 0
       [first (start 0);
        first (answer 130 (block 5 1)); first (answer 130 (block 5 1));
        first (answer 130 (block 5 1));
        second (start 0);
        first (answer 130 (block 5 1)); first (answer 130 (block 5 1));
        first (answer 130 (block 5 1));
        third (start 0);
        first (answer 130 (block 5 1)); first (answer 130 (block 5 1));
        first (answer 130 (block 5 1))]
       [idle; idle; idle] cleared)
  = [0; 0; 0; 0; 0; 0; 0; 0; 0; 0].
Proof. reflexivity. Qed.

Definition three_payloads : list string := ["ab"; "cd"; "ef"]%string.

Lemma complete_transfer_without_losses_example :
  events_of_first
    ([second (start 0)]
     ++ calls_of 0 (start 0 :: map (answer 130) (answers_from 0 three_payloads))
     ++ [second (answer 130 (block 0 0))])
  = conversation (answers_from 0 three_payloads)
  /\ result_of_first
       ([second (start 0)]
        ++ calls_of 0
             (start 0 :: map (answer 130) (answers_from 0 three_payloads))
        ++ [second (answer 130 (block 0 0))])
     = PT_ENDED
  /\ callbacks (conversation (answers_from 0 three_payloads)) = [0; 1; 2]
  /\ sends (conversation (answers_from 0 three_payloads)) = [0; 1; 2].
Proof.
  apply (complete_transfer_without_losses 4 130 0%nat three_payloads
           [second (start 0)] [second (answer 130 (block 0 0))]
           [idle; idle] cleared idle 0).
  - reflexivity.
  - repeat constructor; discriminate.
  - repeat constructor; discriminate.
  - reflexivity.
  - discriminate.
  - discriminate.
Defined.

Lemma gives_up_only_without_transaction_or_response_example :
  fst (request [start 0; answer 130 (block 7 1); answer 130 (block 0 0)])
  = PT_WAITING
  \/ fst (request [start 0; answer 130 (block 7 1); answer 130 (block 0 0)])
     = PT_ENDED.
Proof.
  apply (gives_up_only_without_transaction_or_response 4 130 (start 0)
           [answer 130 (block 7 1); answer 130 (block 0 0)] idle cleared).
  - reflexivity.
  - repeat constructor; discriminate.
Defined.

(** The two ways of giving up: no response when polled, no transaction. *)
Lemma gives_up_examples :
  request [start 0; {| delivered := [None]; ev := 130;
                       new_transaction := true |}]
  = (PT_EXITED, [EvSend 0])
  /\ request [start 0; {| delivered := [Some (block 0 1)]; ev := 130;
                          new_transaction := false |}]
     = (PT_EXITED, [EvSend 0; EvResponse 0 (block 0 1)]).
Proof. split; reflexivity. Qed.

End BlockingFacts.

(** * The DTLS support functions: random numbers *)

Module DtlsSupport.
Import CString TransportFacts.

(** What the function does to its stream and to the log. *)
Inductive stdio_event :=
| EvFopen                                   (* fopen("/dev/urandom", "r") *)
| EvFread (n : nat)                         (* fread(buf, 1, n, urandom) *)
| EvFclose                                  (* fclose(urandom) *)
| EvEmerg.                                  (* dtls_emerg("cannot initialize PRNG\n") *)

(** [fread(buf, 1, n, stream)] of the C library on a stream that has the
    bytes [data] left: the bytes stored and their number. *)
Definition fread (data : list ascii) (n : nat) : list ascii * nat :=
  (firstn n data, List.length (firstn n data)).

(** [dtls_get_random].  [sizeof_unsigned_long] is the size of the buffer;
    [urandom] is [None] when [fopen] returns NULL, and the bytes the stream
    has otherwise; [rand] is what [*rand] held.  Returns the result, [*rand]
    and what was done. *)
Definition dtls_get_random (sizeof_unsigned_long : nat)
    (urandom : option (list ascii)) (rand : Z) : Z * Z * list stdio_event :=
  match urandom with
  | None => (0, rand, [EvFopen; EvEmerg])
  | Some data =>
      let '(buf, n) := fread data sizeof_unsigned_long in
      if negb (Nat.eqb n sizeof_unsigned_long) then
        (0, rand, [EvFopen; EvFread sizeof_unsigned_long; EvEmerg])
      else
        (1, uchar (List.hd NUL buf),
         [EvFopen; EvFread sizeof_unsigned_long; EvFclose])
  end.

(** [dtls_fill_random]: [buf] with the bytes read stored at its beginning. *)
Definition dtls_fill_random (urandom : option (list ascii))
    (buf : list ascii) (len : nat) : Z * list ascii * list stdio_event :=
  match urandom with
  | None => (0, buf, [EvFopen; EvEmerg])
  | Some data =>
      let '(bytes, n) := fread data len in
      let buf' := (bytes ++ skipn n buf)%list in
      if negb (Nat.eqb n len) then (0, buf', [EvFopen; EvFread len; EvEmerg])
      else (1, buf', [EvFopen; EvFread len; EvFclose])
  end.

(** X19.  Whatever the size of [unsigned long], a random number obtained from
    [dtls_get_random] is one byte: it is the first byte of the stream, below
    256, and the other bytes read do not enter it.  The function succeeds
    exactly when the stream could be opened and had as many bytes as an
    [unsigned long]; when it fails [*rand] is left as it was; and the stream
    is closed exactly when it succeeds, so it stays open after a short read. *)
Theorem dtls_get_random_yields_one_byte :
  forall sz urandom rand,
    let res := dtls_get_random (S sz) urandom rand in
    (fst (fst res) = 1 \/ fst (fst res) = 0)
    /\ (fst (fst res) = 1 <->
        exists b rest, urandom = Some (b :: rest) /\ (sz <= List.length rest)%nat)
    /\ (forall b rest, urandom = Some (b :: rest) -> fst (fst res) = 1 ->
                       snd (fst res) = uchar b /\ 0 <= snd (fst res) < 256)
    /\ (fst (fst res) = 0 -> snd (fst res) = rand)
    /\ (In EvFclose (snd res) <-> fst (fst res) = 1)
    /\ (forall data, urandom = Some data -> (List.length data <= sz)%nat ->
                     snd res = [EvFopen; EvFread (S sz); EvEmerg]).
Proof.
  intros sz urandom rand res. unfold res, dtls_get_random, fread.
  destruct urandom as [data|].
  2:{ simpl. split; [now right|]. split.
      - split; [discriminate|]. intros (b & rest & H & _). discriminate H.
      - split; [intros b rest H; discriminate H|]. split; [reflexivity|].
        split.
        + split; [|discriminate].
          intros [H|[H|[]]]; discriminate H.
        + intros data H. discriminate H. }
  destruct data as [|b rest].
  { simpl. split; [now right|]. split.
    - split; [discriminate|]. intros (b & rest & H & _). discriminate H.
    - split; [intros b rest H; discriminate H|]. split; [reflexivity|].
      split.
      + split; [|discriminate].
        intros [H|[H|[H|[]]]]; discriminate H.
      + reflexivity. }
  cbn [firstn List.length Nat.eqb].
  destruct (Nat.eqb_spec (List.length (firstn sz rest)) sz) as [Heq|Hne];
    cbn [negb fst snd List.hd].
  - assert (Hlen : (sz <= List.length rest)%nat).
    { rewrite <- Heq at 1. rewrite length_firstn. apply Nat.le_min_r. }
    split; [now left|]. split.
    + split; [|reflexivity]. intros _. now exists b, rest.
    + split.
      * intros b' rest' H _. injection H as <- <-.
        split; [reflexivity|apply uchar_range].
      * split; [discriminate|]. split.
        -- split; [reflexivity|]. intros _. right. right. now left.
        -- intros data H Hshort. injection H as <-. simpl in Hshort. lia.
  - assert (Hlen : (List.length rest < sz)%nat).
    { rewrite length_firstn in Hne. lia. }
    split; [now right|]. split.
    + split; [discriminate|].
      intros (b' & rest' & H & Hle). injection H as <- <-. lia.
    + split.
      * intros b' rest' _ H. discriminate H.
      * split; [reflexivity|]. split.
        -- split; [|discriminate].
           intros [H|[H|[H|[]]]]; discriminate H.
        -- reflexivity.
Qed.

(** Two streams that begin with the same byte give the same number. *)
Lemma dtls_get_random_example :
  dtls_get_random 8 (Some (map ascii_of_nat [200; 1; 2; 3; 4; 5; 6; 7]%nat)) 0
  = (1, 200, [EvFopen; EvFread 8; EvFclose])
  /\ dtls_get_random 8 (Some (map ascii_of_nat [200; 9; 9; 9; 9; 9; 9; 9]%nat)) 0
     = (1, 200, [EvFopen; EvFread 8; EvFclose])
  /\ dtls_get_random 8 (Some (map ascii_of_nat [200; 1; 2]%nat)) 77
     = (0, 77, [EvFopen; EvFread 8; EvEmerg]).
Proof. repeat split. Qed.

End DtlsSupport.
